(** * Parser-v3, [parser/base_network.py]: the orchestration engine of
    [BaseNetwork]

    A shallow embedding of the three entry points of [BaseNetwork]:
    - [__init__] (module [Registry]): the resolution of the shared
      vocabularies over the frozen input networks;
    - [train] (module [Train]): the training loop with its optimizer switch,
      its early stopping and its checkpoints gated by the moving accuracy;
    - [parse], [parse_file] and [parse_files] (module [Inference]): the
      batched inference over one or several files.

    The source is read as Python 3: [os.path.join] on [None] and the
    [write] of a [str] to a file opened in binary mode raise TypeError.
    Python integers are [Z], Python floats are the binary64 numbers of the
    kernel ([PrimFloat]), strings are [string]; dictionaries and sets are
    stdpp's [gmap] and [gset].  The calls into TensorFlow, the dataset
    provider and the file system are recorded as effects, in the order in
    which the source performs them; what the file system answers is a
    parameter.

    The definitions come first; the facts about them follow, in the modules
    [TrainFacts], [RegistryFacts] and [InferenceFacts]. *)

From Stdlib Require Import ZArith Floats Lia Ascii String.
From stdpp Require Import gmap strings list.

Local Open Scope Z_scope.

(* ===================================================================== *)
(** ** The training loop: [BaseNetwork.train] *)
(* ===================================================================== *)

Module Train.

(** The two update strategies built at lines 155-160. *)
Inductive optimizer := Adam | AMSGrad.

(** The configuration properties [train] reads (lines 518-537). *)
Record config := {
  max_steps : Z;
  max_steps_without_improvement : Z;
  print_every : Z;
  switch_optimizers : bool;
  save_model : bool;
  parse_datasets : bool
}.

Inductive dataset := Devset | Testset.

(** What the loop does to the session and to the file system. *)
Inductive effect :=
| RunTrain (o : optimizer)     (* sess.run(train_tensors, ...), line 222 *)
| DevSweep                     (* the sweep over devset, lines 226-230 *)
| SaverSave                    (* saver.save(sess, save_dir/ckpt), line 237 *)
| ParseDataset (d : dataset)   (* self.parse_dataset(...), lines 239-240 *)
| UpdateStep                   (* sess.run(update_step), line 264 *)
| WriteSuccess                 (* open(save_dir/SUCCESS, 'w'), line 265 *)
| WriteScores.                 (* open(save_dir/scores.txt, 'wb'), line 281 *)

(** The six values written to the screen at every evaluation (lines
    244-258). *)
Record frame := {
  shown_optimizer : optimizer;
  shown_epoch : nat;
  shown_step : Z;
  shown_accuracy : float;
  shown_best : float;
  shown_steps_since_best : Z
}.

(** The local variables of [run], the global step of the graph, and what
    has been shown and done so far.  [evaluations] counts the sweeps over
    the development set; it indexes the accuracies the sweeps return. *)
Record state := {
  current_optimizer : optimizer;
  current_step : Z;
  best_accuracy : float;
  current_accuracy : float;
  steps_since_best : Z;
  global_step : nat;
  evaluations : nat;
  screen : list frame;
  effects : list effect
}.

(** The moments of a step at which Ctrl-C can arrive: before the update is
    run, and after each statement of the body of the loop over the batches
    (lines 220-263).  A KeyboardInterrupt is raised at the first statement
    boundary after the signal. *)
Inductive phase :=
| BeforeUpdate    (* lines 220-221: the update is not run *)
| AfterUpdate     (* after lines 222-223 *)
| AfterCount      (* after line 224 *)
| AfterSweep      (* after lines 226-230 *)
| MidSmoothing    (* after line 231 *)
| AfterSmoothing  (* after line 232 *)
| AfterReset      (* after line 234 *)
| AfterBest       (* after line 235 *)
| AfterSave       (* after line 237 *)
| AfterParseDev   (* after line 239 *)
| AfterParseTest  (* after line 240 *)
| AfterWait       (* after line 242 *)
| AfterFrame.     (* after line 263 *)

#[global] Instance phase_eq_dec : EqDecision phase.
Proof. solve_decision. Defined.

(** What the loop is run against: the number of batches
    [trainset.shuffled_batch_iterator()] yields in each pass; the value
    [dev_outputs.get_current_accuracy()] returns after each sweep; the
    training step, if any, during which Ctrl-C is pressed, [Some k] for the
    step that begins with [current_step = k], and the moment of that step at
    which the KeyboardInterrupt is raised; and whether the class of the
    instance has a method [parse_dataset].  [BaseNetwork] defines none, nor
    [build_graph] and [classname], which [train] needs: the instance is one
    of a subclass. *)
Record world := {
  train_batches : nat -> nat;
  dev_accuracy : nat -> float;
  interrupt_at : option Z;
  interrupt_phase : phase;
  has_parse_dataset : bool
}.

Inductive exn := KeyboardInterrupt | ZeroDivisionError | AttributeError | TypeError.

(** A computation ends normally or raises; the state reached is kept in
    both cases. *)
Inductive result := Ok (st : state) | Raise (e : exn) (st : state).

Definition state_of (r : result) : state :=
  match r with Ok st => st | Raise _ st => st end.

(** What follows a computation that ends normally. *)
Definition and_then (r : result) (k : state -> result) : result :=
  match r with Ok st => k st | Raise e st => Raise e st end.

Notation "'let*' st ':=' r 'in' k" := (and_then r (fun st => k))
  (at level 10, st name, r at level 100, k at level 200).

(** Lines 212-214 and 176-178, after [sess.run(tf.global_variables_initializer())]. *)
Definition initial : state := {|
  current_optimizer := Adam;
  current_step := 0;
  best_accuracy := 0%float;
  current_accuracy := 0%float;
  steps_since_best := 0;
  global_step := 0%nat;
  evaluations := 0%nat;
  screen := [];
  effects := []
|}.

(** [float(n)] for a Python integer: the nearest binary64 number. *)
Definition float_of_Z (n : Z) : float :=
  SF2Prim (binary_normalize prec emax n 0 false).

(** [n > x] for a Python integer [n] and a float [x]: Python compares the
    exact values. *)
Definition Z_gt_float (n : Z) (x : float) : bool :=
  match Prim2SF x with
  | S754_nan => false
  | S754_infinity s => s
  | S754_zero _ => 0 <? n
  | S754_finite s m e =>
      let v := if s then Z.neg m else Z.pos m in
      if 0 <=? e then v * 2 ^ e <? n else v <? n * 2 ^ (- e)
  end.

(** *** The statements of the loop, one by one *)

(** A call on the session or the file system has been made. *)
Definition log (e : effect) (st : state) : state :=
  {| current_optimizer := current_optimizer st;
     current_step := current_step st;
     best_accuracy := best_accuracy st;
     current_accuracy := current_accuracy st;
     steps_since_best := steps_since_best st;
     global_step := global_step st;
     evaluations := evaluations st;
     screen := screen st;
     effects := effects st ++ [e] |}.

(** Line 224: [current_step += 1]. *)
Definition count_step (st : state) : state :=
  {| current_optimizer := current_optimizer st;
     current_step := current_step st + 1;
     best_accuracy := best_accuracy st;
     current_accuracy := current_accuracy st;
     steps_since_best := steps_since_best st;
     global_step := global_step st;
     evaluations := evaluations st;
     screen := screen st;
     effects := effects st |}.

(** One more sweep over the development set has been made. *)
Definition count_sweep (st : state) : state :=
  {| current_optimizer := current_optimizer st;
     current_step := current_step st;
     best_accuracy := best_accuracy st;
     current_accuracy := current_accuracy st;
     steps_since_best := steps_since_best st;
     global_step := global_step st;
     evaluations := S (evaluations st);
     screen := screen st;
     effects := effects st |}.

(** An assignment to [current_accuracy]. *)
Definition set_accuracy (a : float) (st : state) : state :=
  {| current_optimizer := current_optimizer st;
     current_step := current_step st;
     best_accuracy := best_accuracy st;
     current_accuracy := a;
     steps_since_best := steps_since_best st;
     global_step := global_step st;
     evaluations := evaluations st;
     screen := screen st;
     effects := effects st |}.

(** An assignment to [best_accuracy]. *)
Definition set_best (b : float) (st : state) : state :=
  {| current_optimizer := current_optimizer st;
     current_step := current_step st;
     best_accuracy := b;
     current_accuracy := current_accuracy st;
     steps_since_best := steps_since_best st;
     global_step := global_step st;
     evaluations := evaluations st;
     screen := screen st;
     effects := effects st |}.

(** An assignment to [steps_since_best]. *)
Definition set_since (n : Z) (st : state) : state :=
  {| current_optimizer := current_optimizer st;
     current_step := current_step st;
     best_accuracy := best_accuracy st;
     current_accuracy := current_accuracy st;
     steps_since_best := n;
     global_step := global_step st;
     evaluations := evaluations st;
     screen := screen st;
     effects := effects st |}.

(** Lines 243-263: the six values are written to the screen, which is
    refreshed. *)
Definition show (st : state) : state :=
  {| current_optimizer := current_optimizer st;
     current_step := current_step st;
     best_accuracy := best_accuracy st;
     current_accuracy := current_accuracy st;
     steps_since_best := steps_since_best st;
     global_step := global_step st;
     evaluations := evaluations st;
     screen := screen st ++
       [{| shown_optimizer := current_optimizer st;
           shown_epoch := global_step st;
           shown_step := current_step st;
           shown_accuracy := current_accuracy st;
           shown_best := best_accuracy st;
           shown_steps_since_best := steps_since_best st |}];
     effects := effects st |}.

Section Loop.

Variable cfg : config.
Variable w : world.

(** Ctrl-C arrives in the step that began with [current_step = k], at the
    moment [p] of that step. *)
Definition interrupted (k : Z) (p : phase) : bool :=
  bool_decide (interrupt_at w = Some k /\ interrupt_phase w = p).

(** The moment [p] of step [k] is reached in state [st]. *)
Definition reach (k : Z) (p : phase) (st : state) : result :=
  if interrupted k p then Raise KeyboardInterrupt st else Ok st.

(** Line 216: [steps_since_best > .1*self.max_steps_without_improvement]. *)
#[warnings="-inexact-float"]
Definition past_tenth_of_patience (st : state) : bool :=
  Z_gt_float (steps_since_best st)
             (0.1 * float_of_Z (max_steps_without_improvement cfg))%float.

(** Lines 216-218. *)
Definition switch_check (st : state) : state :=
  if past_tenth_of_patience st && switch_optimizers cfg then
    {| current_optimizer := AMSGrad;
       current_step := current_step st;
       best_accuracy := best_accuracy st;
       current_accuracy := current_accuracy st;
       steps_since_best := steps_since_best st;
       global_step := global_step st;
       evaluations := evaluations st;
       screen := screen st;
       effects := effects st |}
  else st.

(** Lines 231-232: the moving accuracy after a sweep that returned [a]. *)
Definition smooth (s a : float) : float := (s * 0.75 + 0.25 * a)%float.

(** Line 233: [current_accuracy >= best_accuracy]. *)
Definition improves (s best : float) : bool := (best <=? s)%float.

(** Lines 226-263: one evaluation, in the step that began with
    [current_step = k].  When the class has no method [parse_dataset], line
    239 raises AttributeError. *)
Definition evaluate (k : Z) (st : state) : result :=
  let a := dev_accuracy w (evaluations st) in
  let* st := reach k AfterSweep (count_sweep (log DevSweep st)) in
  let* st := reach k MidSmoothing
               (set_accuracy (current_accuracy st * 0.75)%float st) in
  let* st := reach k AfterSmoothing
               (set_accuracy (current_accuracy st + 0.25 * a)%float st) in
  let* st :=
    if improves (current_accuracy st) (best_accuracy st) then
      let* st := reach k AfterReset (set_since 0 st) in
      let* st := reach k AfterBest (set_best (current_accuracy st) st) in
      let* st := if save_model cfg then reach k AfterSave (log SaverSave st)
                 else Ok st in
      if parse_datasets cfg then
        if has_parse_dataset w then
          let* st := reach k AfterParseDev (log (ParseDataset Devset) st) in
          reach k AfterParseTest (log (ParseDataset Testset) st)
        else Raise AttributeError st
      else Ok st
    else
      reach k AfterWait (set_since (steps_since_best st + print_every cfg) st) in
  reach k AfterFrame (show st).

(** Lines 220-224: one update with the active optimizer, when nothing
    interrupts it. *)
Definition update (st : state) : state :=
  count_step (log (RunTrain (current_optimizer st)) st).

(** Line 225: [current_step % self.print_every == 0]; Python's [%] takes the
    sign of the divisor, as [Z.modulo] does, and raises on a zero divisor. *)
Definition is_tick (st : state) : option bool :=
  if print_every cfg =? 0 then None
  else Some (current_step st mod print_every cfg =? 0).

(** Lines 220-263: the body of the loop over the training batches. *)
Definition train_step (st : state) : result :=
  let k := current_step st in
  let* st := reach k BeforeUpdate st in
  let* st := reach k AfterUpdate (log (RunTrain (current_optimizer st)) st) in
  let* st := reach k AfterCount (count_step st) in
  match is_tick st with
  | None => Raise ZeroDivisionError st
  | Some true => evaluate k st
  | Some false => Ok st
  end.

(** Line 219: [for batch in trainset.shuffled_batch_iterator()], over [n]
    batches. *)
Fixpoint train_pass (n : nat) (st : state) : result :=
  match n with
  | O => Ok st
  | S n' => let* st := train_step st in train_pass n' st
  end.

(** Line 264: [sess.run(update_step)]. *)
Definition update_step (st : state) : state :=
  {| current_optimizer := current_optimizer st;
     current_step := current_step st;
     best_accuracy := best_accuracy st;
     current_accuracy := current_accuracy st;
     steps_since_best := steps_since_best st;
     global_step := S (global_step st);
     evaluations := evaluations st;
     screen := screen st;
     effects := effects st ++ [UpdateStep] |}.

(** Line 215: the condition of the [while]. *)
Definition continues (st : state) : bool :=
  (current_step st <? max_steps cfg)
  && (steps_since_best st <? max_steps_without_improvement cfg).

(** Lines 216-264: one turn of the [while]. *)
Definition train_epoch (st : state) : result :=
  let* st := train_pass (train_batches w (global_step st)) (switch_check st) in
  Ok (update_step st).

(** Lines 215-264.  [None] when [fuel] turns of the loop were not enough. *)
Fixpoint train_loop (fuel : nat) (st : state) : option result :=
  if continues st then
    match fuel with
    | O => None
    | S fuel' =>
        match train_epoch st with
        | Ok st' => train_loop fuel' st'
        | Raise e st' => Some (Raise e st')
        end
    end
  else Some (Ok st).

(** Lines 211-268: the [try] of [run].  After the loop the file SUCCESS is
    opened; [except KeyboardInterrupt: pass] lets every other exception
    through. *)
Definition run (fuel : nat) : option result :=
  match train_loop fuel initial with
  | None => None
  | Some (Ok st) => Some (Ok (log WriteSuccess st))
  | Some (Raise KeyboardInterrupt st) => Some (Ok st)
  | Some (Raise e st) => Some (Raise e st)
  end.

(** Lines 279-285: [curses.wrapper(run)], then the transcript.  The file
    scores.txt is opened in mode ['wb'] (line 281) and a [str] is written to
    it (line 282): [f.write] raises TypeError, and the file stays empty. *)
Definition train (fuel : nat) : option result :=
  match run fuel with
  | None => None
  | Some (Ok st) => Some (Raise TypeError (log WriteScores st))
  | Some (Raise e st) => Some (Raise e st)
  end.

End Loop.

Arguments smooth : simpl never.
Arguments improves : simpl never.
Arguments past_tenth_of_patience : simpl never.

(** *** Reading a run *)

(** What was done between two states of one run. *)
Definition done_since (st st' : state) : list effect :=
  drop (length (effects st)) (effects st').

(** The optimizers of the updates, in the order in which they were run. *)
Definition updates (es : list effect) : list optimizer :=
  omap (fun e => match e with RunTrain o => Some o | _ => None end) es.

(** The moving accuracy, the best one and the steps since the best one as
    they stand when evaluation [t] begins: the values of the frame before
    it, and the initial values of lines 212-214 before the first one. *)
Definition accuracy_before (frames : list frame) (t : nat) : float :=
  match t with
  | O => 0%float
  | S t' => from_option shown_accuracy 0%float (frames !! t')
  end.

Definition best_before (frames : list frame) (t : nat) : float :=
  match t with
  | O => 0%float
  | S t' => from_option shown_best 0%float (frames !! t')
  end.

Definition steps_before (frames : list frame) (t : nat) : Z :=
  match t with
  | O => 0
  | S t' => from_option shown_steps_since_best 0 (frames !! t')
  end.

(** The states in which the turns of the [while] begin: [epoch_start k] is
    the state at the top of turn [k], if the loop gets there. *)
Fixpoint epoch_start (cfg : config) (w : world) (k : nat) : option state :=
  match k with
  | O => Some initial
  | S k' =>
      match epoch_start cfg w k' with
      | Some st =>
          if continues cfg st then
            match train_epoch cfg w st with
            | Ok st' => Some st'
            | Raise _ _ => None
            end
          else None
      | None => None
      end
  end.

(** How many of the effects are of the kind [p]. *)
Definition how_many (p : effect -> bool) (es : list effect) : nat :=
  length (List.filter p es).

Definition is_sweep (e : effect) : bool :=
  match e with DevSweep => true | _ => false end.

Definition is_save (e : effect) : bool :=
  match e with SaverSave => true | _ => false end.

Definition is_update_step (e : effect) : bool :=
  match e with UpdateStep => true | _ => false end.

(** A frame that shows an improvement: no step since the best. *)
Definition shows_improvement (f : frame) : bool :=
  shown_steps_since_best f =? 0.

End Train.


(* ===================================================================== *)
(** ** The vocabularies of a model: [BaseNetwork.__init__] *)
(* ===================================================================== *)

Module Registry.

(** A vocabulary object: its identity (Python's [is] compares identities) and
    the name of its class, [vocab.classname]. *)
Record vocab := { vocab_id : nat; classname : string }.

#[global] Instance vocab_eq_dec : EqDecision vocab.
Proof. solve_decision. Defined.

#[global] Instance vocab_countable : Countable vocab.
Proof.
  refine (inj_countable' (fun v => (vocab_id v, classname v))
            (fun p => {| vocab_id := p.1; classname := p.2 |}) _).
  by intros [].
Defined.

(** A frozen input network, as far as [__init__] looks at it. *)
Record network := { net_classname : string; net_vocabs : list vocab }.

(** The lists [__init__] reads from the configuration (lines 432-442). *)
Record config := {
  input_network_classes : list string;
  input_vocab_classes : list string;
  output_vocab_classes : list string;
  throughput_vocab_classes : list string
}.

(** What surrounds the constructor: the classes that [parser.structs.vocabs]
    defines, and the classes for which [vocab.load()] finds saved data. *)
Record world := {
  defined : string -> bool;
  saved : string -> bool
}.

Inductive effect :=
| PrintClass (s : string) (* print(vocab.classname), line 60 *)
| Construct (v : vocab)  (* VocabClass(config=config) *)
| LoadVocab (v : vocab)  (* vocab.load() *)
| CountVocab (v : vocab) (* vocab.count(self.train_conllus) *)
| GlobalStep.            (* tf.Variable(0., name='Global_step'), line 106 *)

(** The failed assertion of line 55 is the specification's
    ConfigurationError, the one of line 62 its ConsistencyError; [getattr]
    raises on a class that the module does not define. *)
Inductive error :=
| ConfigurationError
| ConsistencyError (c : string)
| AttributeError (c : string).

(** The dictionary [extant_vocabs], the next free object identity, and what
    has been done so far. *)
Record registry := {
  extant_vocabs : gmap string vocab;
  next_id : nat;
  done : list effect
}.

(** A step of the constructor either fails or returns a value; the registry
    it leaves is kept in both cases. *)
Definition M (A : Type) : Type := registry -> (error + A) * registry.

Definition ret {A} (a : A) : M A := fun r => (inr a, r).
Definition raise {A} (e : error) : M A := fun r => (inl e, r).
Definition bind {A B} (m : M A) (k : A -> M B) : M B :=
  fun r => match m r with
           | (inr a, r') => k a r'
           | (inl e, r') => (inl e, r')
           end.

Notation "'let*' x ':=' m 'in' k" := (bind m (fun x => k))
  (at level 10, x name, m at level 100, k at level 200).

Definition get_extant : M (gmap string vocab) := fun r => (inr (extant_vocabs r), r).

Definition set_extant (c : string) (v : vocab) : M unit := fun r =>
  (inr tt, {| extant_vocabs := <[c := v]> (extant_vocabs r);
              next_id := next_id r; done := done r |}).

Definition perform (es : list effect) : M unit := fun r =>
  (inr tt, {| extant_vocabs := extant_vocabs r;
              next_id := next_id r; done := done r ++ es |}).

(** A new object of class [c]: its identity is the next free one. *)
Definition new_vocab (c : string) : M vocab := fun r =>
  let v := {| vocab_id := next_id r; classname := c |} in
  (inr v, {| extant_vocabs := extant_vocabs r;
             next_id := S (next_id r); done := done r ++ [Construct v] |}).

Section Init.

Variable cfg : config.
Variable w : world.

(** Lines 59-64, over the vocabularies of one input network. *)
Fixpoint scan_vocabs (vs : list vocab) : M unit :=
  match vs with
  | [] => ret tt
  | v :: vs' =>
      let* _ := perform [PrintClass (classname v)] in
      let* extant := get_extant in
      let* _ := match extant !! classname v with
              | Some v' =>
                  if decide (v = v') then ret tt
                  else raise (ConsistencyError (classname v))
              | None => set_extant (classname v) v
              end in
      scan_vocabs vs'
  end.

(** Lines 58-64. *)
Fixpoint scan_networks (nets : list network) : M unit :=
  match nets with
  | [] => ret tt
  | n :: nets' => let* _ := scan_vocabs (net_vocabs n) in scan_networks nets'
  end.

(** Lines 66-70. *)
Definition resolve_id_vocab : M vocab :=
  let* extant := get_extant in
  match extant !! "IDIndexVocab" with
  | Some v => ret v
  | None =>
      let* v := new_vocab "IDIndexVocab" in
      let* _ := set_extant "IDIndexVocab" v in
      ret v
  end.

(** Lines 77-81 (and 88-92, 99-103): a vocabulary of a class that is not in
    [extant_vocabs] yet; [vocab.load() or vocab.count(self.train_conllus)]. *)
Definition create (c : string) : M vocab :=
  if defined w c then
    let* v := new_vocab c in
    let* _ := perform (LoadVocab v :: if saved w c then [] else [CountVocab v]) in
    let* _ := set_extant c v in
    ret v
  else raise (AttributeError c).

(** Lines 73-81 (and 84-92, 95-103): the loop over a list of class names,
    adding to the set [acc]. *)
Fixpoint resolve (cs : list string) (acc : gset vocab) : M (gset vocab) :=
  match cs with
  | [] => ret acc
  | c :: cs' =>
      let* extant := get_extant in
      let* v := match extant !! c with
              | Some v => ret v
              | None => create c
              end in
      resolve cs' (acc ∪ {[ v ]})
  end.

(** The attributes [__init__] sets. *)
Record base_network := {
  input_networks : list network;
  id_vocab : vocab;
  input_vocabs : gset vocab;
  output_vocabs : gset vocab;
  throughput_vocabs : gset vocab;
  vocabs : gset vocab
}.

(** Lines 53-108.  The loop of line 95 runs over [output_vocab_classes]. *)
Definition construct (nets : list network) : M base_network :=
  if decide ((list_to_set (net_classname <$> nets) : gset string)
             = list_to_set (input_network_classes cfg)) then
    let* _ := scan_networks nets in
    let* idv := resolve_id_vocab in
    let* ins := resolve (input_vocab_classes cfg) ∅ in
    let* outs := resolve (output_vocab_classes cfg) ∅ in
    let* thrus := resolve (output_vocab_classes cfg) ∅ in
    let* _ := perform [GlobalStep] in
    let* extant := get_extant in
    ret {| input_networks := nets;
           id_vocab := idv;
           input_vocabs := ins;
           output_vocabs := outs;
           throughput_vocabs := thrus;
           vocabs := map_img extant |}
  else raise ConfigurationError.

(** [BaseNetwork(input_networks, config)], when [heap] is the first object
    identity that is free. *)
Definition init (heap : nat) (nets : list network) : (error + base_network) * registry :=
  construct nets {| extant_vocabs := ∅; next_id := heap; done := [] |}.

End Init.

(** The vocabularies of a composition: those of the model, in any of its
    attributes, and those of its input networks. *)
Definition in_composition (m : base_network) (v : vocab) : Prop :=
  v ∈ vocabs m \/ v ∈ input_vocabs m \/ v ∈ output_vocabs m
  \/ v ∈ throughput_vocabs m \/ v = id_vocab m
  \/ exists n, n ∈ input_networks m /\ v ∈ net_vocabs n.

(** Two input networks hold different objects of one class. *)
Definition conflicting (nets : list network) : Prop :=
  exists n n' v v', n ∈ nets /\ n' ∈ nets /\ v ∈ net_vocabs n /\ v' ∈ net_vocabs n'
                    /\ classname v = classname v' /\ v <> v'.

(** The declared classes and the classes of the networks passed in differ. *)
Definition mismatched (cfg : config) (nets : list network) : Prop :=
  (exists c, c ∈ input_network_classes cfg
             /\ forall n, n ∈ nets -> net_classname n <> c)
  \/ (exists n, n ∈ nets /\ net_classname n ∉ input_network_classes cfg).

End Registry.

(* ===================================================================== *)
(** ** Batched inference: [parse], [parse_file], [parse_files] *)
(* ===================================================================== *)

Module Inference.

Local Open Scope string_scope.

Definition is_slash (c : ascii) : bool := Ascii.eqb c "/".

(** [s.rstrip('/')]. *)
Fixpoint rstrip_slashes (s : string) : string :=
  match s with
  | EmptyString => EmptyString
  | String c s' =>
      match rstrip_slashes s' with
      | EmptyString => if is_slash c then EmptyString else String c EmptyString
      | r => String c r
      end
  end.

(** [s == '/'*len(s)]. *)
Fixpoint only_slashes (s : string) : bool :=
  match s with
  | EmptyString => true
  | String c s' => is_slash c && only_slashes s'
  end.

(** [(p[:i], p[i:])] for [i = p.rfind('/') + 1], when [p] has a slash. *)
Fixpoint cut_at_last_slash (p : string) : option (string * string) :=
  match p with
  | EmptyString => None
  | String c p' =>
      match cut_at_last_slash p' with
      | Some (h, t) => Some (String c h, t)
      | None => if is_slash c then Some (String c EmptyString, p') else None
      end
  end.

(** [os.path.split] of [posixpath]. *)
Definition path_split (p : string) : string * string :=
  match cut_at_last_slash p with
  | None => (EmptyString, p)
  | Some (h, t) => (if only_slashes h then h else rstrip_slashes h, t)
  end.

Definition starts_with_slash (s : string) : bool :=
  match s with String c _ => is_slash c | EmptyString => false end.

Fixpoint ends_with_slash (s : string) : bool :=
  match s with
  | EmptyString => false
  | String c EmptyString => is_slash c
  | String _ s' => ends_with_slash s'
  end.

(** [os.path.join(a, b)] of [posixpath]; [os.path.join(a, b, c)] is
    [path_join (path_join a b) c]. *)
Definition path_join (a b : string) : string :=
  if starts_with_slash b then b
  else if String.eqb a EmptyString || ends_with_slash a then a ++ b
  else a ++ "/" ++ b.

(** A batch is the list of its row indices. *)
Definition batch := list nat.

(** The dataset provider, as far as inference uses it: [dataset.filenames]
    and [dataset.file_batch_iterator(i)]. *)
Record dataset := {
  filenames : list string;
  file_batch_iterator : nat -> list batch
}.

Inductive effect :=
| BuildDataset (files : list string)  (* CoNLLUDataset(conllu_files, ...), line 348 *)
| BuildGraph                          (* DevOutputs(..., load=True), line 363 *)       
| RestoreCheckpoint                   (* saver.restore(sess, latest_checkpoint), line 375 *)
| Predict (b : batch)                 (* sess.run(probability_tensors), probs_to_preds *)
| CachePredictions (b : batch)        (* graph_outputs.cache_predictions(tokens, indices) *)
| MakeDirs (dir : string)             (* os.makedirs(dir) *)
| Dump (path : string)                (* codecs.open(path, 'w'), dump_current_predictions *)
| PrintTime (files : nat).            (* the line printed last *)

(** What the operating system refuses. *)
Inductive os_error :=
| FileNotFoundError
| IsADirectoryError
| NotADirectoryError
| FileExistsError
| PermissionError.

(** The failed assertion of line 354 is the specification's UsageError.
    [TypeError] is what [os.path.join] raises on [None]; [OSError] is what
    [os.makedirs] and [codecs.open] raise. *)
Inductive error :=
| UsageError
| UnboundLocalError (variable : string)
| IndexError
| TypeError
| OSError (e : os_error).

(** The file system, as the calls of a run find it.  What a call finds
    depends on what was there before the run and on what was done since:
    the answers are given for the calls made so far, [done].
    [path_exists] is [os.path.exists]; [makedirs_raises] and [open_raises]
    say whether [os.makedirs(d)] and [codecs.open(p, 'w')] raise, and
    what. *)
Record world := {
  path_exists : list effect -> string -> bool;
  makedirs_raises : list effect -> string -> option os_error;
  open_raises : list effect -> string -> option os_error
}.

(** What has been done so far. *)
Record state := {
  done : list effect
}.

Definition result : Type := option error * state.

Definition perform (es : list effect) (st : state) : state :=
  {| done := done st ++ es |}.

(** Lines 295-300 (and 326-331): one batch through the graph and into the
    cache of [graph_outputs]. *)
Definition predict_batch (b : batch) (st : state) : state :=
  perform [Predict b; CachePredictions b] st.

Section Parse.

Variable save_dir : string.
Variable w : world.

(** [if not os.path.exists(d): os.makedirs(d)]. *)
Definition ensure_dir (d : string) (st : state) : result :=
  if path_exists w (done st) d then (None, st)
  else
    match makedirs_raises w (done st) d with
    | Some e => (Some (OSError e), st)
    | None => (None, perform [MakeDirs d] st)
    end.

(** [with codecs.open(p, 'w', encoding='utf-8') as f:
    graph_outputs.dump_current_predictions(f, ...)]. *)
Definition dump (p : string) (st : state) : result :=
  match open_raises w (done st) p with
  | Some e => (Some (OSError e), st)
  | None => (None, perform [Dump p] st)
  end.

(** The local variables of [parse_file] that its loop assigns. *)
Record file_locals := {
  input_filename : string;
  output_dir : option string;
  output_filename : option string
}.

(** Lines 295-312: the body of the loop of [parse_file]. *)
Definition parse_file_batch (b : batch) (l : file_locals) (st : state)
  : option error * file_locals * state :=
  let st := predict_batch b st in
  let '(input_dir, input_filename) := path_split (input_filename l) in
  let '(output_dir, output_filename) :=
    match output_dir l with
    | None => (path_join (path_join save_dir "parsed") input_dir, output_filename l)
    | Some d =>
        (d, match output_filename l with
            | None => Some input_filename
            | Some f => Some f
            end)
    end in
  let l := {| input_filename := input_filename; output_dir := Some output_dir;
              output_filename := output_filename |} in
  match ensure_dir output_dir st with
  | (Some e, st) => (Some e, l, st)
  | (None, st) =>
      match output_filename with
      | None => (Some TypeError, l, st)
      | Some f =>
          let output_filename := path_join output_dir f in
          let l := {| input_filename := input_filename;
                      output_dir := Some output_dir;
                      output_filename := Some output_filename |} in
          match dump output_filename st with
          | (Some e, st) => (Some e, l, st)
          | (None, st) => (None, l, st)
          end
      end
  end.

(** Line 294: [for indices in dataset.file_batch_iterator(0)]. *)
Fixpoint parse_file_loop (bs : list batch) (l : file_locals) (st : state) : result :=
  match bs with
  | [] => (None, st)
  | b :: bs' =>
      match parse_file_batch b l st with
      | (None, l', st') => parse_file_loop bs' l' st'
      | (Some e, _, st') => (Some e, st')
      end
  end.

(** Lines 288-314. *)
Definition parse_file (ds : dataset) (output_dir output_filename : option string)
    (st : state) : result :=
  match filenames ds with
  | [] => (Some IndexError, st)
  | input_filename :: _ =>
      match parse_file_loop (file_batch_iterator ds 0)
              {| input_filename := input_filename; output_dir := output_dir;
                 output_filename := output_filename |} st with
      | (None, st') => (None, perform [PrintTime 1] st')
      | r => r
      end
  end.

(** Lines 325-340: the body of the loop of [parse_files].  [file_output_dir]
    is the local variable of that name, [None] while it is unbound. *)
Definition parse_files_file (ds : dataset) (output_dir : option string)
    (file_index : nat) (input_filename : string)
    (file_output_dir : option string) (st : state)
  : option error * option string * state :=
  let st := foldl (fun st b => predict_batch b st) st (file_batch_iterator ds file_index) in
  let '(input_dir, input_filename) := path_split input_filename in
  let file_output_dir :=
    match output_dir with
    | None => Some (path_join (path_join save_dir "parsed") input_dir)
    | Some _ => file_output_dir
    end in
  match file_output_dir with
  | None => (Some (UnboundLocalError "file_output_dir"), None, st)
  | Some d =>
      match ensure_dir d st with
      | (Some e, st) => (Some e, Some d, st)
      | (None, st) =>
          match dump (path_join d input_filename) st with
          | (Some e, st) => (Some e, Some d, st)
          | (None, st) => (None, Some d, st)
          end
      end
  end.

(** Line 324: [for file_index, input_filename in enumerate(filenames)]. *)
Fixpoint parse_files_loop (ds : dataset) (output_dir : option string)
    (file_index : nat) (files : list string)
    (file_output_dir : option string) (st : state) : result :=
  match files with
  | [] => (None, st)
  | f :: files' =>
      match parse_files_file ds output_dir file_index f file_output_dir st with
      | (None, d, st') => parse_files_loop ds output_dir (S file_index) files' d st'
      | (Some e, _, st') => (Some e, st')
      end
  end.

(** Lines 318-342.  The line printed last reads [file_index], which no turn
    of an empty loop has bound. *)
Definition parse_files (ds : dataset) (output_dir : option string) (st : state) : result :=
  match parse_files_loop ds output_dir 0 (filenames ds) None st with
  | (None, st') =>
      match filenames ds with
      | [] => (Some (UnboundLocalError "file_index"), st')
      | _ => (None, perform [PrintTime (length (filenames ds))] st')
      end
  | r => r
  end.

(** [if output_filename:] on an optional string: [None] and [''] are false. *)
Definition truthy (s : option string) : bool :=
  match s with
  | None => false
  | Some s => negb (String.eqb s EmptyString)
  end.

(** Lines 345-380.  [open_dataset] is the constructor [CoNLLUDataset]. *)
Definition parse (open_dataset : list string -> dataset)
    (conllu_files : list string) (output_dir output_filename : option string)
    (st : state) : result :=
  let parseset := open_dataset conllu_files in
  let st := perform [BuildDataset conllu_files] st in
  if truthy output_filename && negb (length conllu_files =? 1)%nat then
    (Some UsageError, st)
  else
    let st := perform [BuildGraph; RestoreCheckpoint] st in
    if (length conllu_files =? 1)%nat || bool_decide (output_filename <> None) then
      parse_file parseset output_dir output_filename st
    else
      parse_files parseset output_dir st.

End Parse.

(** *** Reading what was done *)

(** The files written, in the order in which they were written. *)
Definition dumps (es : list effect) : list string :=
  omap (fun e => match e with Dump p => Some p | _ => None end) es.

(** The directories made. *)
Definition made (es : list effect) : list string :=
  omap (fun e => match e with MakeDirs d => Some d | _ => None end) es.

(** What the batches [bs] leave in the list of effects. *)
Definition predictions (bs : list batch) : list effect :=
  bs ≫= fun b => [Predict b; CachePredictions b].

(** [<save_dir>/parsed/<relative-input-path>/<filename>]. *)
Definition default_output (save_dir input_filename : string) : string :=
  path_join (path_join (path_join save_dir "parsed") (fst (path_split input_filename)))
            (snd (path_split input_filename)).

End Inference.

(* ===================================================================== *)
(** ** Some runs *)
(* ===================================================================== *)

Module Runs.

Import Train.

(** One pass of four batches, an evaluation after every step. *)
Definition saving : config := {|
  max_steps := 4;
  max_steps_without_improvement := 10;
  print_every := 1;
  switch_optimizers := true;
  save_model := true;
  parse_datasets := false
|}.

Definition not_saving : config := {|
  max_steps := 4;
  max_steps_without_improvement := 10;
  print_every := 1;
  switch_optimizers := true;
  save_model := false;
  parse_datasets := false
|}.

(** The same, with a budget of two steps. *)
Definition brief : config := {|
  max_steps := 2;
  max_steps_without_improvement := 10;
  print_every := 1;
  switch_optimizers := true;
  save_model := true;
  parse_datasets := false
|}.

(** The development accuracy is 1 at the first sweep and 0 afterwards. *)
Definition falling : world := {|
  train_batches := fun _ => 4%nat;
  dev_accuracy := fun t => match t with O => 1%float | S _ => 0%float end;
  interrupt_at := None;
  interrupt_phase := BeforeUpdate;
  has_parse_dataset := false
|}.

(** A training set without a batch. *)
Definition no_batches : world := {|
  train_batches := fun _ => 0%nat;
  dev_accuracy := fun _ => 0%float;
  interrupt_at := None;
  interrupt_phase := BeforeUpdate;
  has_parse_dataset := false
|}.

(** An evaluation after every second step. *)
Definition every_second : config := {|
  max_steps := 4;
  max_steps_without_improvement := 10;
  print_every := 2;
  switch_optimizers := false;
  save_model := true;
  parse_datasets := false
|}.

(** No evaluation at all: the division by [print_every] fails. *)
Definition never_printing : config := {|
  max_steps := 4;
  max_steps_without_improvement := 10;
  print_every := 0;
  switch_optimizers := false;
  save_model := true;
  parse_datasets := false
|}.

(** The same, with Ctrl-C during the third step. *)
Definition interrupted : world := {|
  train_batches := fun _ => 4%nat;
  dev_accuracy := fun t => match t with O => 1%float | S _ => 0%float end;
  interrupt_at := Some 2;
  interrupt_phase := BeforeUpdate;
  has_parse_dataset := false
|}.

Definition final (r : option result) : state :=
  match r with Some r => state_of r | None => initial end.

(** A tagger and a parser that were built apart: each has a vocabulary of
    word forms of its own. *)
Definition forms_of_tagger : Registry.vocab :=
  {| Registry.vocab_id := 1; Registry.classname := "FormVocab" |}.
Definition forms_of_parser : Registry.vocab :=
  {| Registry.vocab_id := 3; Registry.classname := "FormVocab" |}.
Definition ids : Registry.vocab :=
  {| Registry.vocab_id := 2; Registry.classname := "IDIndexVocab" |}.

Definition tagger : Registry.network :=
  {| Registry.net_classname := "TaggerNetwork";
     Registry.net_vocabs := [forms_of_tagger; ids] |}.
Definition parser : Registry.network :=
  {| Registry.net_classname := "ParserNetwork";
     Registry.net_vocabs := [ids; forms_of_parser] |}.

(** A model over both. *)
Definition over_both : Registry.config :=
  {| Registry.input_network_classes := ["TaggerNetwork"; "ParserNetwork"];
     Registry.input_vocab_classes := ["FormVocab"];
     Registry.output_vocab_classes := ["DeprelVocab"];
     Registry.throughput_vocab_classes := ["XPOSVocab"] |}.

(** A model without input networks. *)
Definition alone : Registry.config :=
  {| Registry.input_network_classes := [];
     Registry.input_vocab_classes := ["FormVocab"];
     Registry.output_vocab_classes := ["DeprelVocab"];
     Registry.throughput_vocab_classes := ["XPOSVocab"] |}.

(** A development file of two batches and a test file of one. *)
Definition two_files : Inference.dataset :=
  {| Inference.filenames := ["data/dev.conllu"; "data/test.conllu"];
     Inference.file_batch_iterator := fun i =>
       match i with
       | O => [[0; 1]; [2]]
       | S _ => [[0]]
       end%nat |}.

(** The development file alone. *)
Definition one_file : Inference.dataset :=
  {| Inference.filenames := ["data/dev.conllu"];
     Inference.file_batch_iterator := fun i =>
       match i with
       | O => [[0; 1]; [2]]
       | S _ => []
       end%nat |}.

(** A file of one batch. *)
Definition short_file : Inference.dataset :=
  {| Inference.filenames := ["data/dev.conllu"];
     Inference.file_batch_iterator := fun _ => [[0; 1]]%nat |}.

(** A file in a directory and a file in the directory above it, of one
    batch each. *)
Definition nested_files : Inference.dataset :=
  {| Inference.filenames := ["a/b/x.conllu"; "a/y.conllu"];
     Inference.file_batch_iterator := fun i =>
       match i with
       | O => [[0]]
       | S _ => [[1]]
       end%nat |}.

(** Nothing was done yet. *)
Definition nothing : Inference.state :=
  {| Inference.done := [] |}.

(** The directories above [s]: its prefixes that end before a slash. *)
Fixpoint above (seen s : string) : list string :=
  match s with
  | EmptyString => []
  | String c s' =>
      (if Inference.is_slash c then [seen] else [])
      ++ above (String.append seen (String c EmptyString)) s'
  end.

(** The directories that the calls of [os.makedirs] made so far have left:
    those asked for and the ones above them. *)
Definition left_by (h : list Inference.effect) : list string :=
  Inference.made h ≫= fun d => Inference.rstrip_slashes d :: above EmptyString d.

(** The directory in which [p] lies. *)
Definition parent (p : string) : string :=
  (Inference.path_split (Inference.rstrip_slashes p)).1.

Section Disk.

(** What was done so far on a disk on which there was nothing. *)
Variable h : list Inference.effect.

Definition is_dir (p : string) : bool :=
  bool_decide (Inference.rstrip_slashes p ∈ left_by h).

Definition is_file (p : string) : bool :=
  bool_decide (p ∈ Inference.dumps h).

(** A file lies on the way to [p]. *)
Definition below_file (p : string) : bool :=
  existsb is_file (above EmptyString p).

End Disk.

(** A disk (of Linux) on which there is nothing but the working directory
    when the run begins, and on which nothing is refused that can be done.
    Paths are compared as strings: the answers are those for relative paths
    without empty components and without [.] and [..]. *)
Definition empty_disk : Inference.world :=
  {| Inference.path_exists := fun h p =>
       negb (below_file h p) && (is_dir h p || is_file h p);
     Inference.makedirs_raises := fun h p =>
       if String.eqb p EmptyString then Some Inference.FileNotFoundError
       else if below_file h (Inference.rstrip_slashes p)
       then Some Inference.NotADirectoryError
       else if is_dir h p || is_file h (Inference.rstrip_slashes p)
       then Some Inference.FileExistsError
       else None;
     Inference.open_raises := fun h p =>
       if String.eqb p EmptyString then Some Inference.FileNotFoundError
       else if below_file h (Inference.rstrip_slashes p)
       then Some Inference.NotADirectoryError
       else if negb (String.eqb (parent p) EmptyString || is_dir h (parent p))
       then Some Inference.FileNotFoundError
       else if Inference.ends_with_slash p || is_dir h p
       then Some Inference.IsADirectoryError
       else None |}.

(** Every class is defined, none has saved data. *)
Definition fresh : Registry.world :=
  {| Registry.defined := fun _ => true; Registry.saved := fun _ => false |}.

(** The model that [__init__] builds over [nets] when every class is
    defined, and the registry it leaves. *)
Definition built (cfg : Registry.config) (nets : list Registry.network)
  : Registry.base_network :=
  match Registry.init cfg fresh 0 nets with
  | (inr m, _) => m
  | (inl _, _) =>
      {| Registry.input_networks := []; Registry.id_vocab := ids;
         Registry.input_vocabs := ∅; Registry.output_vocabs := ∅;
         Registry.throughput_vocabs := ∅; Registry.vocabs := ∅ |}
  end.

Definition registry_of (cfg : Registry.config) (nets : list Registry.network)
  : Registry.registry :=
  snd (Registry.init cfg fresh 0 nets).

(** Every class is defined but that of the dependency relations. *)
Definition no_deprels : Registry.world :=
  {| Registry.defined := fun c => negb (String.eqb c "DeprelVocab");
     Registry.saved := fun _ => false |}.

End Runs.

(* ===================================================================== *)
(** ** Facts about the training loop *)
(* ===================================================================== *)

Module TrainFacts.

Import Train.

(** *** Binary64 arithmetic *)

Lemma Prim2SF_inj (x y : float) : Prim2SF x = Prim2SF y -> x = y.
Proof.
  intros H. rewrite <- (SF2Prim_Prim2SF x), <- (SF2Prim_Prim2SF y). by rewrite H.
Qed.

Lemma float_mul_comm (x y : float) : (x * y)%float = (y * x)%float.
Proof.
  apply Prim2SF_inj. rewrite !mul_spec.
  destruct (Prim2SF x) as [sx|sx| |sx mx ex], (Prim2SF y) as [sy|sy| |sy my ey];
    cbn; try reflexivity; try (by rewrite xorb_comm).
  by rewrite xorb_comm, Pos.mul_comm, Z.add_comm.
Qed.

(** Two floats that are the same number: identical, or the two zeros. *)
Definition same_number (x y : float) : Prop :=
  x = y \/ (x =? y)%float = true.

Lemma float_add_zero_l (y : float) : same_number (0 + y)%float y.
Proof.
  pose proof (add_spec 0 y) as Hadd.
  pose proof (FloatAxioms.eqb_spec (0 + y) y) as Heqb.
  change (Prim2SF 0) with (S754_zero false) in Hadd.
  destruct (Prim2SF y) as [s|s| |s m e] eqn:Hy.
  - right. rewrite Heqb, Hadd. by destruct s.
  - left. apply Prim2SF_inj. rewrite Hadd, Hy. reflexivity.
  - left. apply Prim2SF_inj. rewrite Hadd, Hy. reflexivity.
  - left. apply Prim2SF_inj. rewrite Hadd, Hy. reflexivity.
Qed.

(** A patience of 10 steps is passed by a tenth with the second step
    without improvement, one of 30 steps with the fourth. *)
#[warnings="-inexact-float"]
Example tenth_of_patience :
  Z_gt_float 1 (0.1 * float_of_Z 10) = false
  /\ Z_gt_float 2 (0.1 * float_of_Z 10) = true
  /\ Z_gt_float 3 (0.1 * float_of_Z 30) = false
  /\ Z_gt_float 4 (0.1 * float_of_Z 30) = true.
Proof. vm_compute. repeat split. Qed.

(** *** The statements of a step *)

(** An evaluation that nothing interrupts, from the sweep to the frame. *)
Definition evaluated (cfg : config) (w : world) (st : state) : state :=
  let a := dev_accuracy w (evaluations st) in
  let s := smooth (current_accuracy st) a in
  let improved := improves s (best_accuracy st) in
  let best := if improved then s else best_accuracy st in
  let since := if improved then 0 else steps_since_best st + print_every cfg in
  let done :=
    if improved then
      (if save_model cfg then [SaverSave] else []) ++
      (if parse_datasets cfg then [ParseDataset Devset; ParseDataset Testset] else [])
    else [] in
  {| current_optimizer := current_optimizer st;
     current_step := current_step st;
     best_accuracy := best;
     current_accuracy := s;
     steps_since_best := since;
     global_step := global_step st;
     evaluations := S (evaluations st);
     screen := screen st ++
       [{| shown_optimizer := current_optimizer st;
           shown_epoch := global_step st;
           shown_step := current_step st;
           shown_accuracy := s;
           shown_best := best;
           shown_steps_since_best := since |}];
     effects := effects st ++ DevSweep :: done |}.

(** Two states with the same components are the same state. *)
Lemma state_eq (st st' : state) :
  current_optimizer st = current_optimizer st' ->
  current_step st = current_step st' ->
  best_accuracy st = best_accuracy st' ->
  current_accuracy st = current_accuracy st' ->
  steps_since_best st = steps_since_best st' ->
  global_step st = global_step st' ->
  evaluations st = evaluations st' ->
  screen st = screen st' ->
  effects st = effects st' ->
  st = st'.
Proof. destruct st, st'; cbn. by intros -> -> -> -> -> -> -> -> ->. Qed.

(** Carrying out the statements of a step, component by component. *)
Ltac statements :=
  apply state_eq; cbn; rewrite <- ?app_assoc; try reflexivity.

(** Taking the moments of a computation one by one. *)
Ltac moments :=
  cbn [and_then];
  repeat match goal with
         | |- context [reach ?w ?k ?p ?st] =>
             unfold reach at 1; destruct (interrupted w k p); cbn [and_then]
         end.

(** An evaluation that ends normally is the whole evaluation; with
    [parse_datasets] on, it ends normally on an improvement only when the
    class has a method [parse_dataset]. *)
Lemma evaluate_Ok cfg w k st st' :
  evaluate cfg w k st = Ok st' ->
  st' = evaluated cfg w st
  /\ (parse_datasets cfg = true ->
      improves (smooth (current_accuracy st) (dev_accuracy w (evaluations st)))
               (best_accuracy st) = true ->
      has_parse_dataset w = true).
Proof.
  unfold evaluate, evaluated.
  change (current_accuracy st * 0.75 + 0.25 * dev_accuracy w (evaluations st))%float
    with (smooth (current_accuracy st) (dev_accuracy w (evaluations st))).
  set (s := smooth _ _).
  unfold reach at 1. destruct (interrupted w k AfterSweep); [done|]. cbn [and_then].
  unfold reach at 1. destruct (interrupted w k MidSmoothing); [done|]. cbn [and_then].
  unfold reach at 1. destruct (interrupted w k AfterSmoothing); [done|].
  cbn [and_then]. cbn [current_accuracy best_accuracy set_accuracy count_sweep log].
  change (current_accuracy st * 0.75 + 0.25 * dev_accuracy w (evaluations st))%float
    with s.
  destruct (improves s (best_accuracy st)).
  - unfold reach at 1. destruct (interrupted w k AfterReset); [done|]. cbn [and_then].
    unfold reach at 1. destruct (interrupted w k AfterBest); [done|]. cbn [and_then].
    destruct (save_model cfg), (parse_datasets cfg), (has_parse_dataset w);
      moments; try done;
      (intros [= <-]; split; [|done]; statements).
  - moments; try done. intros [= <-]. split; [|done]. statements.
Qed.

Lemma interrupted_true w k p :
  interrupted w k p = true -> interrupt_at w = Some k /\ interrupt_phase w = p.
Proof. unfold interrupted. by intros ?%bool_decide_eq_true. Qed.

(** Taking the next moment, keeping what is known of it. *)
Ltac moment_known :=
  cbn [and_then];
  match goal with
  | |- context [reach ?w ?k ?p ?st] =>
      let H := fresh "Hmoment" in
      unfold reach at 1; destruct (interrupted w k p) eqn:H;
      [apply interrupted_true in H as [H _]|clear H]; cbn [and_then]
  end.

Ltac moments_known := cbn [and_then]; repeat moment_known.

(** An evaluation that raises was interrupted, or found no method
    [parse_dataset] for an improvement; the frame is not shown, unless
    Ctrl-C came after it. *)
Lemma evaluate_Raise cfg w k st e st' :
  evaluate cfg w k st = Raise e st' ->
  (screen st' = screen st
   \/ st' = evaluated cfg w st /\ e = KeyboardInterrupt)
  /\ (e = KeyboardInterrupt /\ interrupt_at w = Some k
      \/ e = AttributeError /\ parse_datasets cfg = true
         /\ has_parse_dataset w = false).
Proof.
  unfold evaluate, evaluated.
  change (current_accuracy st * 0.75 + 0.25 * dev_accuracy w (evaluations st))%float
    with (smooth (current_accuracy st) (dev_accuracy w (evaluations st))).
  set (s := smooth _ _).
  do 3 (moment_known; [intros [= <- <-]; split; [by left|by left]|]).
  cbn [current_accuracy best_accuracy set_accuracy count_sweep log].
  change (current_accuracy st * 0.75 + 0.25 * dev_accuracy w (evaluations st))%float
    with s.
  destruct (improves s (best_accuracy st)).
  - do 2 (moment_known; [intros [= <- <-]; split; [by left|by left]|]).
    destruct (save_model cfg), (parse_datasets cfg) eqn:Hparse,
             (has_parse_dataset w) eqn:Hhas;
      moments_known; try done;
      try (intros [= <- <-]; split; [by left|by left]);
      try (intros [= <- <-]; split; [by left|right; done]);
      (intros [= <- <-]; split; [right; split; [statements|done]|by left]).
  - moments_known; try done;
      try (intros [= <- <-]; split; [by left|by left]).
    intros [= <- <-]. split; [right; split; [statements|done]|by left].
Qed.

(** A step that ends normally is an update, followed by an evaluation when
    the step count is a multiple of [print_every]. *)
Lemma train_step_Ok cfg w st st' :
  train_step cfg w st = Ok st' ->
  is_tick cfg (update st) = Some false /\ st' = update st
  \/ is_tick cfg (update st) = Some true /\ st' = evaluated cfg w (update st)
     /\ (parse_datasets cfg = true ->
         improves (smooth (current_accuracy st)
                     (dev_accuracy w (evaluations st)))
                  (best_accuracy st) = true ->
         has_parse_dataset w = true).
Proof.
  unfold train_step. moments; try done. fold (update st).
  destruct (is_tick cfg (update st)) as [[]|]; [| |done].
  - intros Heval. right. split; [done|]. by apply evaluate_Ok in Heval.
  - intros [= <-]. by left.
Qed.

(** A step that raises: Ctrl-C during the step, a zero [print_every], or no
    method [parse_dataset]. *)
Lemma train_step_Raise cfg w st e st' :
  train_step cfg w st = Raise e st' ->
  (screen st' = screen st
   \/ st' = evaluated cfg w (update st) /\ e = KeyboardInterrupt)
  /\ (e = KeyboardInterrupt /\ interrupt_at w = Some (current_step st)
      \/ e = ZeroDivisionError /\ print_every cfg = 0
      \/ e = AttributeError /\ parse_datasets cfg = true
         /\ has_parse_dataset w = false).
Proof.
  unfold train_step. moments_known;
    try (intros [= <- <-]; split; [by left|by left]).
  fold (update st). unfold is_tick at 1.
  destruct (print_every cfg =? 0) eqn:Hzero.
  - intros [= <- <-]. split; [by left|]. right. left. split; [done|lia].
  - destruct (_ mod _ =? 0); [|done]. intros Heval.
    destruct (evaluate_Raise _ _ _ _ _ _ Heval) as (Hscreen & Hwhy).
    split; [exact Hscreen|]. destruct Hwhy as [?|?]; [by left|right; by right].
Qed.

(** Membership in a list that is written out. *)
Ltac in_list :=
  cbn; rewrite ?elem_of_app, ?elem_of_cons, ?elem_of_nil;
  intuition (discriminate || congruence).

(** *** Invariants of the loop *)

(** A property that every statement of the loop keeps holds in every state
    that a run reaches, between two steps or within one. *)
Section Invariant.

Variable cfg : config.
Variable w : world.
Variable P : state -> Prop.

Hypothesis P_switch_check : forall st, P st -> P (switch_check cfg st).
Hypothesis P_run_train :
  forall st, P st -> P (log (RunTrain (current_optimizer st)) st).
Hypothesis P_count_step : forall st, P st -> P (count_step st).
Hypothesis P_count_sweep : forall st, P st -> P (count_sweep st).
Hypothesis P_set_accuracy : forall a st, P st -> P (set_accuracy a st).
Hypothesis P_set_best : forall b st, P st -> P (set_best b st).
Hypothesis P_set_since : forall n st, P st -> P (set_since n st).
Hypothesis P_show : forall st, P st -> P (show st).
Hypothesis P_log :
  forall e st,
    e ∈ [DevSweep; SaverSave; ParseDataset Devset; ParseDataset Testset] ->
    P st -> P (log e st).
Hypothesis P_update_step : forall st, P st -> P (update_step st).

Ltac kept :=
  cbn [state_of];
  repeat first [ assumption
               | apply P_show | apply P_set_since | apply P_set_best
               | apply P_set_accuracy | apply P_count_sweep | apply P_count_step
               | apply P_run_train
               | apply P_log; [in_list|] ].

Lemma evaluate_invariant k st : P st -> P (state_of (evaluate cfg w k st)).
Proof.
  intros H. unfold evaluate.
  do 3 (cbn [and_then]; unfold reach at 1; destruct (interrupted w k _);
        cbn [and_then]; [kept|]).
  destruct (improves _ _), (save_model cfg), (parse_datasets cfg),
           (has_parse_dataset w); moments; kept.
Qed.

Lemma train_step_invariant st : P st -> P (state_of (train_step cfg w st)).
Proof.
  intros H. unfold train_step.
  do 3 (cbn [and_then]; unfold reach at 1; destruct (interrupted w _ _);
        cbn [and_then]; [kept|]).
  destruct (is_tick cfg _) as [[]|]; [|kept..].
  apply evaluate_invariant. kept.
Qed.

Lemma train_pass_invariant n st : P st -> P (state_of (train_pass cfg w n st)).
Proof.
  revert st. induction n as [|n IH]; intros st H; cbn; [done|].
  pose proof (train_step_invariant st H) as Hs.
  destruct (train_step cfg w st); cbn in *; auto.
Qed.

Lemma train_epoch_invariant st : P st -> P (state_of (train_epoch cfg w st)).
Proof.
  intros H. unfold train_epoch.
  pose proof (train_pass_invariant (train_batches w (global_step st)) _
                (P_switch_check st H)) as Hp.
  destruct (train_pass _ _ _ _); cbn in *; auto.
Qed.

Lemma train_loop_invariant fuel st r :
  P st -> train_loop cfg w fuel st = Some r -> P (state_of r).
Proof.
  revert st. induction fuel as [|fuel IH]; intros st H; cbn.
  - destruct (continues cfg st); [done|]. by intros [= <-].
  - destruct (continues cfg st); [|by intros [= <-]].
    pose proof (train_epoch_invariant st H) as He.
    destruct (train_epoch cfg w st); cbn in *; [by apply IH|by intros [= <-]].
Qed.

Hypothesis P_success : forall st, P st -> P (log WriteSuccess st).

Lemma run_invariant fuel r :
  P initial -> run cfg w fuel = Some r -> P (state_of r).
Proof.
  intros H. unfold run.
  destruct (train_loop cfg w fuel initial) as [r0|] eqn:Hloop; [|done].
  pose proof (train_loop_invariant _ _ _ H Hloop) as H0.
  destruct r0 as [st|[] st]; cbn in *; intros [= <-]; cbn; auto.
Qed.

Hypothesis P_scores : forall st, P st -> P (log WriteScores st).

Lemma train_invariant fuel r :
  P initial -> train cfg w fuel = Some r -> P (state_of r).
Proof.
  intros H. unfold train.
  destruct (run cfg w fuel) as [r0|] eqn:Hrun; [|done].
  pose proof (run_invariant _ _ H Hrun) as H0.
  destruct r0 as [st|e st]; cbn in *; intros [= <-]; cbn; auto.
Qed.

End Invariant.

(** *** Invariants of whole steps *)

(** A property [P] that holds between two steps, and what is left of it,
    [Q], in a step that raises. *)
Section StepInvariant.

Variable cfg : config.
Variable w : world.
Variable P Q : state -> Prop.

Hypothesis P_switch_check : forall st, P st -> P (switch_check cfg st).
Hypothesis P_train_step :
  forall st, P st ->
    match train_step cfg w st with
    | Ok st' => P st'
    | Raise _ st' => Q st'
    end.
Hypothesis P_update_step : forall st, P st -> P (update_step st).

Lemma train_pass_steps n st :
  P st ->
  match train_pass cfg w n st with
  | Ok st' => P st'
  | Raise _ st' => Q st'
  end.
Proof.
  revert st. induction n as [|n IH]; intros st H; cbn; [done|].
  pose proof (P_train_step st H) as Hs.
  destruct (train_step cfg w st); cbn in *; [by apply IH|done].
Qed.

Lemma train_epoch_steps st :
  P st ->
  match train_epoch cfg w st with
  | Ok st' => P st'
  | Raise _ st' => Q st'
  end.
Proof.
  intros H. unfold train_epoch.
  pose proof (train_pass_steps (train_batches w (global_step st)) _
                (P_switch_check st H)) as Hp.
  destruct (train_pass _ _ _ _); cbn in *; [by apply P_update_step|done].
Qed.

Lemma train_loop_steps fuel st r :
  P st -> train_loop cfg w fuel st = Some r ->
  match r with
  | Ok st' => P st'
  | Raise _ st' => Q st'
  end.
Proof.
  revert st. induction fuel as [|fuel IH]; intros st H; cbn.
  - destruct (continues cfg st); [done|]. by intros [= <-].
  - destruct (continues cfg st); [|by intros [= <-]].
    pose proof (train_epoch_steps st H) as He.
    destruct (train_epoch cfg w st); cbn in *; [by apply IH|by intros [= <-]].
Qed.

Hypothesis P_Q : forall st, P st -> Q st.
Hypothesis Q_success : forall st, Q st -> Q (log WriteSuccess st).
Hypothesis Q_scores : forall st, Q st -> Q (log WriteScores st).

Lemma train_steps fuel r :
  P initial -> train cfg w fuel = Some r -> Q (state_of r).
Proof.
  intros H. unfold train, run.
  destruct (train_loop cfg w fuel initial) as [r0|] eqn:Hloop; [|done].
  pose proof (train_loop_steps _ _ _ H Hloop) as H0.
  destruct r0 as [st|[] st]; cbn in *; intros [= <-]; cbn; auto.
Qed.

End StepInvariant.

(** *** Evaluations and checkpoints *)

(** C1, as the code has it.  At every evaluation of the training loop (a
    step after which [current_step % print_every == 0]) the moving accuracy
    is compared with the best one so far, ties counting as improvement.  On
    improvement the steps since the best are reset to 0 and the best becomes
    the moving accuracy; on every other evaluation the steps grow by exactly
    [print_every] and the best is kept.  A checkpoint is saved at the
    evaluation if and only if the moving accuracy improved and [save_model]
    is set. *)
Theorem checkpoint_on_improvement cfg w st st' :
  train_step cfg w st = Ok st' ->
  is_tick cfg (update st) = Some true ->
  let s := smooth (current_accuracy st) (dev_accuracy w (evaluations st)) in
  current_accuracy st' = s
  /\ (SaverSave ∈ done_since st st'
      <-> improves s (best_accuracy st) = true /\ save_model cfg = true)
  /\ (improves s (best_accuracy st) = true ->
      steps_since_best st' = 0 /\ best_accuracy st' = s)
  /\ (improves s (best_accuracy st) = false ->
      steps_since_best st' = steps_since_best st + print_every cfg
      /\ best_accuracy st' = best_accuracy st).
Proof.
  intros Hstep Htick s.
  destruct (train_step_Ok _ _ _ _ Hstep) as [[Hno _]|(_ & -> & _)];
    [congruence|].
  unfold done_since, evaluated; cbn. fold s.
  rewrite <- app_assoc, drop_app_length.
  split; [done|]. split; [|split].
  - destruct (improves s (best_accuracy st)), (save_model cfg),
      (parse_datasets cfg); in_list.
  - by intros ->.
  - by intros ->.
Qed.

(** The first evaluation of a run that saves its model: a checkpoint. *)
Lemma checkpoint_on_improvement_witness :
  let st' := state_of (train_step Runs.saving Runs.falling initial) in
  train_step Runs.saving Runs.falling initial = Ok st'
  /\ SaverSave ∈ done_since initial st'
  /\ steps_since_best st' = 0
  /\ best_accuracy st' = 0.25%float.
Proof.
  intros st'.
  assert (train_step Runs.saving Runs.falling initial = Ok st') as Hstep
    by (vm_compute; reflexivity).
  assert (is_tick Runs.saving (update initial) = Some true) as Htick
    by (vm_compute; reflexivity).
  destruct (checkpoint_on_improvement _ _ _ _ Hstep Htick)
    as (_ & Hsave & Hbetter & _).
  assert (improves (smooth (current_accuracy initial)
                      (dev_accuracy Runs.falling (evaluations initial)))
                   (best_accuracy initial) = true) as Himp
    by (vm_compute; reflexivity).
  split; [exact Hstep|]. split; [by apply Hsave|].
  destruct (Hbetter Himp) as [Hsteps Hbest]. split; [exact Hsteps|].
  rewrite Hbest. vm_compute. reflexivity.
Defined.

(** C1 as stated fails: with [save_model] off, the first evaluation
    improves on the best accuracy and no checkpoint is saved. *)
Lemma improvement_without_checkpoint :
  let st' := state_of (train_step Runs.not_saving Runs.falling initial) in
  train_step Runs.not_saving Runs.falling initial = Ok st'
  /\ is_tick Runs.not_saving (update initial) = Some true
  /\ improves (current_accuracy st') (best_accuracy initial) = true
  /\ done_since initial st' = [RunTrain Adam; DevSweep].
Proof. vm_compute. repeat split. Qed.

(** *** The moving accuracy *)

(** Frame [t] follows from the values before it and from the accuracy of
    sweep [t]. *)
Definition frame_follows (cfg : config) (w : world) (frames : list frame)
    (t : nat) (f : frame) : Prop :=
  let s := smooth (accuracy_before frames t) (dev_accuracy w t) in
  shown_accuracy f = s
  /\ shown_best f = (if improves s (best_before frames t) then s else best_before frames t)
  /\ shown_steps_since_best f =
      (if improves s (best_before frames t) then 0
       else steps_before frames t + print_every cfg).

(** Every frame follows from the one before it. *)
Definition frames_follow (cfg : config) (w : world) (st : state) : Prop :=
  forall t f, screen st !! t = Some f -> frame_follows cfg w (screen st) t f.

(** Between two steps, the variables of the loop are the values of the last
    frame, and every frame follows from the one before it. *)
Definition screen_follows (cfg : config) (w : world) (st : state) : Prop :=
  length (screen st) = evaluations st
  /\ current_accuracy st = accuracy_before (screen st) (length (screen st))
  /\ best_accuracy st = best_before (screen st) (length (screen st))
  /\ steps_since_best st = steps_before (screen st) (length (screen st))
  /\ frames_follow cfg w st.

Lemma before_app (frames more : list frame) (t : nat) :
  (t <= length frames)%nat ->
  accuracy_before (frames ++ more) t = accuracy_before frames t
  /\ best_before (frames ++ more) t = best_before frames t
  /\ steps_before (frames ++ more) t = steps_before frames t.
Proof.
  destruct t as [|t]; cbn; [done|]. intros Ht.
  by rewrite lookup_app_l by lia.
Qed.

Lemma frame_follows_app cfg w (frames more : list frame) t f :
  (t <= length frames)%nat ->
  frame_follows cfg w frames t f -> frame_follows cfg w (frames ++ more) t f.
Proof.
  intros Ht. unfold frame_follows.
  destruct (before_app frames more t Ht) as (-> & -> & ->). done.
Qed.

Lemma screen_follows_evaluated cfg w st :
  screen_follows cfg w st -> screen_follows cfg w (evaluated cfg w st).
Proof.
  intros (Hlen & Hacc & Hbest & Hsteps & Hframes).
  unfold screen_follows, frames_follow, evaluated; cbn.
  set (f := Build_frame _ _ _ _ _ _).
  rewrite length_app, Nat.add_1_r; cbn.
  rewrite !lookup_app_r, Nat.sub_diag by lia; cbn.
  split; [by rewrite Hlen|]. do 3 (split; [done|]).
  intros t f' Hf'.
  destruct (decide (t < length (screen st))%nat) as [Hlt|Hge].
  - rewrite lookup_app_l in Hf' by done.
    apply frame_follows_app; [lia|]. by apply Hframes.
  - assert (t = length (screen st)) as ->.
    { apply lookup_lt_Some in Hf'. rewrite length_app in Hf'. cbn in Hf'. lia. }
    rewrite lookup_app_r, Nat.sub_diag in Hf' by lia. injection Hf' as <-.
    apply frame_follows_app; [lia|].
    unfold frame_follows. rewrite <- Hacc, <- Hbest, <- Hsteps, Hlen. done.
Qed.

Lemma screen_follows_train_step cfg w st :
  screen_follows cfg w st ->
  match train_step cfg w st with
  | Ok st' => screen_follows cfg w st'
  | Raise _ st' => frames_follow cfg w st'
  end.
Proof.
  intros H. destruct (train_step cfg w st) as [st'|e st'] eqn:Hstep.
  - destruct (train_step_Ok _ _ _ _ Hstep) as [[_ ->]|(_ & -> & _)].
    + exact H.
    + by apply screen_follows_evaluated.
  - destruct (train_step_Raise _ _ _ _ _ Hstep) as [[Hscreen|[-> _]] _].
    + unfold frames_follow. rewrite Hscreen. by destruct H as (_ & _ & _ & _ & ?).
    + by destruct (screen_follows_evaluated cfg w (update st) H) as (_ & _ & _ & _ & ?).
Qed.

Lemma frames_follow_run cfg w fuel r :
  train cfg w fuel = Some r -> frames_follow cfg w (state_of r).
Proof.
  intros Hrun.
  refine (train_steps cfg w (screen_follows cfg w) (frames_follow cfg w)
            _ _ _ _ _ _ fuel r _ Hrun).
  - intros st H. unfold switch_check. by destruct (_ && _).
  - apply screen_follows_train_step.
  - by intros st H.
  - by intros st (_ & _ & _ & _ & ?).
  - by intros st H.
  - by intros st H.
  - do 4 (split; [done|]). intros t f Hf. cbn in Hf. by rewrite lookup_nil in Hf.
Qed.

(** C3.  In every run, at every evaluation [t] the moving accuracy shown is
    [0.75 * s + 0.25 * a], for [s] the moving accuracy before the evaluation
    and [a] the accuracy of sweep [t]; it starts at 0, so that the first one
    shown is the number [0.25 * a]; and it is the moving accuracy that is
    compared with the best one, to decide between a new best and a longer
    wait. *)
Theorem moving_accuracy_recurrence cfg w fuel r :
  train cfg w fuel = Some r ->
  forall t f, screen (state_of r) !! t = Some f ->
    let frames := screen (state_of r) in
    shown_accuracy f
      = (0.75 * accuracy_before frames t + 0.25 * dev_accuracy w t)%float
    /\ (t = 0%nat -> same_number (shown_accuracy f) (0.25 * dev_accuracy w 0)%float)
    /\ (improves (shown_accuracy f) (best_before frames t) = true ->
        shown_best f = shown_accuracy f /\ shown_steps_since_best f = 0)
    /\ (improves (shown_accuracy f) (best_before frames t) = false ->
        shown_best f = best_before frames t
        /\ shown_steps_since_best f = steps_before frames t + print_every cfg).
Proof.
  intros Hrun t f Hf frames.
  pose proof (frames_follow_run _ _ _ _ Hrun) as Hframes.
  destruct (Hframes t f Hf) as (Hacc & Hbest & Hsteps). fold frames in Hacc, Hbest, Hsteps.
  rewrite <- Hacc in Hbest, Hsteps.
  split; [|split; [|split]].
  - rewrite Hacc. unfold smooth. by rewrite float_mul_comm.
  - intros ->. rewrite Hacc. unfold smooth; cbn.
    change (0 * 0.75)%float with 0%float. apply float_add_zero_l.
  - intros Himp. by rewrite Himp in Hbest, Hsteps.
  - intros Himp. by rewrite Himp in Hbest, Hsteps.
Qed.

(** The second frame of a run in which the accuracy falls from 1 to 0. *)
Lemma moving_accuracy_recurrence_witness :
  let r := Raise TypeError (Runs.final (train Runs.saving Runs.falling 1)) in
  let f := {| shown_optimizer := Adam; shown_epoch := 0; shown_step := 2;
              shown_accuracy := 0.1875; shown_best := 0.25;
              shown_steps_since_best := 1 |} in
  train Runs.saving Runs.falling 1 = Some r
  /\ screen (state_of r) !! 1%nat = Some f
  /\ shown_accuracy f = (0.75 * 0.25 + 0.25 * 0)%float
  /\ shown_best f = 0.25%float
  /\ shown_steps_since_best f = 1.
Proof.
  intros r f.
  assert (train Runs.saving Runs.falling 1 = Some r) as Hrun by (vm_compute; reflexivity).
  assert (screen (state_of r) !! 1%nat = Some f) as Hf by (vm_compute; reflexivity).
  destruct (moving_accuracy_recurrence _ _ _ _ Hrun _ _ Hf) as (Hacc & _ & _ & Hkeep).
  split; [exact Hrun|]. split; [exact Hf|]. split; [exact Hacc|].
  apply Hkeep. vm_compute. reflexivity.
Defined.

(** *** The optimizer *)

Lemma updates_app es es' : updates (es ++ es') = updates es ++ updates es'.
Proof. apply omap_app. Qed.

Lemma updates_quiet (e : effect) :
  e ∈ [DevSweep; SaverSave; ParseDataset Devset; ParseDataset Testset] ->
  updates [e] = [].
Proof. intros He. repeat (apply elem_of_cons in He as [->|He]; [done|]). by apply elem_of_nil in He. Qed.

(** Since state [st0], [m] updates were run, all with optimizer [o], which is
    still the active one. *)
Definition updated_with (st0 : state) (o : optimizer) (st : state) : Prop :=
  current_optimizer st = o
  /\ exists m es, effects st = effects st0 ++ es /\ updates es = replicate m o.

Lemma updated_with_train_pass cfg w n st :
  updated_with st (current_optimizer st) (state_of (train_pass cfg w n st)).
Proof.
  apply (train_pass_invariant cfg w (updated_with st (current_optimizer st)));
    try (by intros st' H); try (by intros ? st' H).
  - intros st' (Ho & m & es & Hes & Hup). split; [done|].
    exists (S m), (es ++ [RunTrain (current_optimizer st)]). split.
    + cbn. by rewrite Hes, Ho, app_assoc.
    + by rewrite updates_app, Hup, replicate_S_end.
  - intros e st' He (Ho & m & es & Hes & Hup). split; [done|].
    exists m, (es ++ [e]). split.
    + cbn. by rewrite Hes, app_assoc.
    + by rewrite updates_app, Hup, (updates_quiet e He), app_nil_r.
  - split; [done|]. exists 0%nat, []. by rewrite app_nil_r.
Qed.

Lemma updated_with_train_epoch cfg w st :
  updated_with st (current_optimizer (switch_check cfg st))
               (state_of (train_epoch cfg w st)).
Proof.
  unfold train_epoch.
  pose proof (updated_with_train_pass cfg w (train_batches w (global_step st))
                (switch_check cfg st)) as (Ho & m & es & Hes & Hup).
  assert (effects (switch_check cfg st) = effects st) as Heq.
  { unfold switch_check. by destruct (_ && _). }
  rewrite Heq in Hes.
  destruct (train_pass _ _ _ _) as [st'|e st']; cbn in *.
  - split; [done|]. exists m, (es ++ [UpdateStep]). split.
    + cbn. by rewrite Hes, app_assoc.
    + by rewrite updates_app, Hup, app_nil_r.
  - split; [done|]. by exists m, es.
Qed.

(** The updates of a run so far: first with Adam, then with AMSGrad. *)
Definition adam_then_amsgrad (cfg : config) (st : state) : Prop :=
  (switch_optimizers cfg = false -> current_optimizer st = Adam)
  /\ exists i j, updates (effects st) = replicate i Adam ++ replicate j AMSGrad
            /\ (current_optimizer st = Adam -> j = 0%nat).

Lemma adam_then_amsgrad_run cfg w fuel r :
  train cfg w fuel = Some r -> adam_then_amsgrad cfg (state_of r).
Proof.
  intros Hrun.
  apply (train_invariant cfg w (adam_then_amsgrad cfg)) with (fuel := fuel);
    try done; try (by intros st H); try (by intros ? st H).
  - intros st H. unfold switch_check.
    destruct (past_tenth_of_patience cfg st); cbn; [|exact H].
    destruct (switch_optimizers cfg) eqn:Hon; cbn; [|exact H].
    destruct H as (Hoff & i & j & Hup & Hadam).
    split; [cbn; congruence|]. by exists i, j.
  - intros st (Hoff & i & j & Hup & Hadam). split; [done|]. cbn.
    rewrite updates_app, Hup. cbn.
    destruct (current_optimizer st) eqn:Ho.
    + rewrite (Hadam eq_refl), app_nil_r. exists (S i), 0%nat.
      by rewrite replicate_S_end, app_nil_r.
    + exists i, (S j). by rewrite replicate_S_end, app_assoc.
  - intros e st He (Hoff & i & j & Hup & Hadam). split; [done|]. cbn.
    exists i, j. by rewrite updates_app, (updates_quiet e He), app_nil_r.
  - intros st (Hoff & i & j & Hup & Hadam). split; [done|]. cbn.
    exists i, j. by rewrite updates_app, app_nil_r.
  - intros st (Hoff & i & j & Hup & Hadam). split; [done|]. cbn.
    exists i, j. by rewrite updates_app, app_nil_r.
  - intros st (Hoff & i & j & Hup & Hadam). split; [done|]. cbn.
    exists i, j. by rewrite updates_app, app_nil_r.
  - split; [done|]. by exists 0%nat, 0%nat.
Qed.

Lemma switch_check_optimizer cfg st :
  current_optimizer (switch_check cfg st)
  = if past_tenth_of_patience cfg st && switch_optimizers cfg then AMSGrad
    else current_optimizer st.
Proof. unfold switch_check. by destruct (_ && _). Qed.

Lemma switch_check_keeps cfg st :
  current_step (switch_check cfg st) = current_step st
  /\ global_step (switch_check cfg st) = global_step st
  /\ best_accuracy (switch_check cfg st) = best_accuracy st
  /\ current_accuracy (switch_check cfg st) = current_accuracy st
  /\ steps_since_best (switch_check cfg st) = steps_since_best st.
Proof. unfold switch_check. by destruct (_ && _). Qed.

Lemma epoch_start_S cfg w k st' :
  epoch_start cfg w (S k) = Some st' ->
  exists st, epoch_start cfg w k = Some st /\ continues cfg st = true
             /\ train_epoch cfg w st = Ok st'.
Proof.
  cbn. destruct (epoch_start cfg w k) as [st|]; [|done].
  destruct (continues cfg st) eqn:Hc; [|done].
  destruct (train_epoch cfg w st) as [st1|] eqn:He; [|done].
  intros [= <-]. by exists st.
Qed.

Lemma epoch_start_earlier cfg w k st j :
  epoch_start cfg w k = Some st -> (j < k)%nat ->
  exists sj, epoch_start cfg w j = Some sj /\ continues cfg sj = true.
Proof.
  revert st. induction k as [|k IH]; intros st Hk Hj; [lia|].
  destruct (epoch_start_S _ _ _ _ Hk) as (sk & Hsk & Hcont & _).
  destruct (decide (j = k)) as [->|Hne]; [by exists sk|].
  apply (IH sk Hsk). lia.
Qed.

(** The optimizer at the top of turn [k] is AMSGrad exactly when the switch
    is enabled and the test of line 216 held at the top of an earlier turn. *)
Lemma optimizer_at_epoch_start cfg w k st :
  epoch_start cfg w k = Some st ->
  current_optimizer st = AMSGrad
  <-> switch_optimizers cfg = true
      /\ exists j sj, (j < k)%nat /\ epoch_start cfg w j = Some sj
                      /\ past_tenth_of_patience cfg sj = true.
Proof.
  revert st. induction k as [|k IH]; intros st Hk.
  - injection Hk as <-. cbn. split; [done|]. intros (_ & j & _ & Hj & _). lia.
  - destruct (epoch_start_S _ _ _ _ Hk) as (sk & Hsk & _ & He).
    pose proof (updated_with_train_epoch cfg w sk) as (Ho & _).
    rewrite He in Ho. cbn in Ho. rewrite Ho, switch_check_optimizer.
    specialize (IH sk Hsk).
    destruct (past_tenth_of_patience cfg sk) eqn:Hpast,
             (switch_optimizers cfg) eqn:Hon; cbn.
    + split; [|by intros ?]. intros _. split; [done|]. exists k, sk. split; [lia|done].
    + rewrite IH. split; intros [? _]; congruence.
    + rewrite IH. split.
      * intros (_ & j & sj & Hj & Hsj & Hp). split; [done|].
        exists j, sj. split; [lia|done].
      * intros (_ & j & sj & Hj & Hsj & Hp). split; [done|].
        exists j, sj. split; [|done].
        destruct (decide (j = k)) as [->|]; [congruence|lia].
    + rewrite IH. split; intros [? _]; congruence.
Qed.

(** C4, as the code has it.  The test [steps_since_best > .1 *
    max_steps_without_improvement and switch_optimizers] is made at the top
    of every turn of the [while], that is before every pass over the
    training set, and nowhere else.  It changes the optimizer only, not the
    step, the epoch or the accuracies; all the updates of a pass are run
    with the optimizer chosen at its top; in turn [k] that optimizer is
    AMSGrad exactly when the switch is enabled and the test held at the top
    of turn [k] or of an earlier turn; so in every run the updates with Adam
    come first and those with AMSGrad after them, and there are none with
    AMSGrad when the switch is disabled. *)
Theorem optimizer_switches_between_passes cfg w :
  (forall st,
     current_optimizer (switch_check cfg st)
     = (if past_tenth_of_patience cfg st && switch_optimizers cfg then AMSGrad
        else current_optimizer st)
     /\ current_step (switch_check cfg st) = current_step st
     /\ global_step (switch_check cfg st) = global_step st
     /\ best_accuracy (switch_check cfg st) = best_accuracy st)
  /\ (forall st, exists m,
       updates (done_since st (state_of (train_epoch cfg w st)))
       = replicate m (current_optimizer (switch_check cfg st)))
  /\ (forall k st, epoch_start cfg w k = Some st ->
       current_optimizer (switch_check cfg st) = AMSGrad
       <-> switch_optimizers cfg = true
           /\ exists j sj, (j <= k)%nat /\ epoch_start cfg w j = Some sj
                           /\ past_tenth_of_patience cfg sj = true)
  /\ (forall fuel r, train cfg w fuel = Some r ->
       exists i j,
         updates (effects (state_of r)) = replicate i Adam ++ replicate j AMSGrad
         /\ (switch_optimizers cfg = false -> j = 0%nat)).
Proof.
  split; [|split; [|split]].
  - intros st. split; [apply switch_check_optimizer|].
    pose proof (switch_check_keeps cfg st). tauto.
  - intros st.
    destruct (updated_with_train_epoch cfg w st) as (_ & m & es & Hes & Hup).
    exists m. unfold done_since. by rewrite Hes, drop_app_length.
  - intros k st Hk. rewrite switch_check_optimizer.
    pose proof (optimizer_at_epoch_start _ _ _ _ Hk) as Hat.
    destruct (past_tenth_of_patience cfg st) eqn:Hpast,
             (switch_optimizers cfg) eqn:Hon; cbn.
    + split; [|by intros ?]. intros _. split; [done|]. exists k, st. split; [lia|done].
    + rewrite Hat. split; intros [? _]; congruence.
    + rewrite Hat. split.
      * intros (_ & j & sj & Hj & Hsj & Hp). split; [done|].
        exists j, sj. split; [lia|done].
      * intros (_ & j & sj & Hj & Hsj & Hp). split; [done|].
        exists j, sj. split; [|done].
        destruct (decide (j = k)) as [->|]; [congruence|lia].
    + rewrite Hat. split; intros [? _]; congruence.
  - intros fuel r Hrun.
    destruct (adam_then_amsgrad_run _ _ _ _ Hrun) as (Hoff & i & j & Hup & Hadam).
    exists i, j. split; [done|]. intros Hsw. auto.
Qed.

(** C4 as stated fails: the switch is enabled and after the third
    evaluation the steps since the best exceed a tenth of the patience, yet
    the fourth update is run with Adam, as is every update of the run. *)
Lemma no_switch_at_evaluation :
  let st3 := state_of (train_pass Runs.saving Runs.falling 3 initial) in
  let st := Runs.final (train Runs.saving Runs.falling 1) in
  switch_optimizers Runs.saving = true
  /\ evaluations st3 = 3%nat
  /\ past_tenth_of_patience Runs.saving st3 = true
  /\ train Runs.saving Runs.falling 1 = Some (Raise TypeError st)
  /\ updates (effects st) = [Adam; Adam; Adam; Adam].
Proof. vm_compute. repeat split. Qed.


(** *** The end of training *)

Lemma train_step_counts cfg w st st' :
  train_step cfg w st = Ok st' -> current_step st' = current_step st + 1.
Proof.
  intros Hstep.
  by destruct (train_step_Ok _ _ _ _ Hstep) as [[_ ->]|(_ & -> & _)].
Qed.

Lemma train_pass_counts cfg w n st st' :
  train_pass cfg w n st = Ok st' -> current_step st' = current_step st + Z.of_nat n.
Proof.
  revert st. induction n as [|n IH]; intros st; cbn -[Z.of_nat].
  - intros [= <-]. lia.
  - destruct (train_step cfg w st) as [st1|] eqn:Hstep; [|done].
    cbn -[Z.of_nat]. intros Hpass.
    rewrite (IH _ Hpass), (train_step_counts _ _ _ _ Hstep). lia.
Qed.

Lemma train_epoch_counts cfg w st st' :
  train_epoch cfg w st = Ok st' ->
  current_step st' = current_step st + Z.of_nat (train_batches w (global_step st)).
Proof.
  unfold train_epoch.
  destruct (train_pass _ _ _ _) as [st1|] eqn:Hpass; [|done].
  intros [= <-]. cbn. rewrite (train_pass_counts _ _ _ _ _ Hpass).
  by destruct (switch_check_keeps cfg st) as (-> & _).
Qed.

(** With a batch in every pass, the loop ends within as many turns as there
    are steps left. *)
Lemma train_loop_ends cfg w fuel st :
  (forall p, (1 <= train_batches w p)%nat) ->
  max_steps cfg - current_step st <= Z.of_nat fuel ->
  exists r, train_loop cfg w fuel st = Some r.
Proof.
  intros Hbatches. revert st. induction fuel as [|fuel IH]; intros st Hleft; cbn.
  - destruct (continues cfg st) eqn:Hc; [|by eexists].
    unfold continues in Hc. lia.
  - destruct (continues cfg st) eqn:Hc; [|by eexists].
    destruct (train_epoch cfg w st) as [st'|e st'] eqn:He; [|by eexists].
    apply IH. rewrite (train_epoch_counts _ _ _ _ He).
    specialize (Hbatches (global_step st)). lia.
Qed.

Lemma train_loop_exit cfg w fuel st st' :
  train_loop cfg w fuel st = Some (Ok st') -> continues cfg st' = false.
Proof.
  revert st. induction fuel as [|fuel IH]; intros st; cbn.
  - destruct (continues cfg st) eqn:Hc; [done|]. by intros [= <-].
  - destruct (continues cfg st) eqn:Hc; [|by intros [= <-]].
    destruct (train_epoch cfg w st); [apply IH|done].
Qed.

Lemma train_loop_epochs cfg w fuel k st st' :
  epoch_start cfg w k = Some st ->
  train_loop cfg w fuel st = Some (Ok st') ->
  exists k', epoch_start cfg w k' = Some st'.
Proof.
  revert k st. induction fuel as [|fuel IH]; intros k st Hk; cbn.
  - destruct (continues cfg st) eqn:Hc; [done|]. intros [= <-]. by exists k.
  - destruct (continues cfg st) eqn:Hc; [|intros [= <-]; by exists k].
    destruct (train_epoch cfg w st) as [st1|] eqn:He; [|done].
    apply (IH (S k)). cbn. by rewrite Hk, Hc, He.
Qed.

(** What makes the loop raise: Ctrl-C, a zero [print_every], or an
    improvement to be parsed by a class without [parse_dataset]. *)
Definition raised_by (cfg : config) (w : world) (e : exn) : Prop :=
  e = KeyboardInterrupt /\ interrupt_at w <> None
  \/ e = ZeroDivisionError /\ print_every cfg = 0
  \/ e = AttributeError /\ parse_datasets cfg = true
     /\ has_parse_dataset w = false.

Lemma train_step_raises cfg w st e st' :
  train_step cfg w st = Raise e st' -> raised_by cfg w e.
Proof.
  intros Hstep.
  destruct (train_step_Raise _ _ _ _ _ Hstep) as [_ [[-> Hat]|[?|?]]].
  - left. split; [done|]. by rewrite Hat.
  - right. by left.
  - right. by right.
Qed.

Lemma train_loop_raises cfg w fuel st e st' :
  train_loop cfg w fuel st = Some (Raise e st') -> raised_by cfg w e.
Proof.
  revert st. induction fuel as [|fuel IH]; intros st; cbn.
  - by destruct (continues cfg st).
  - destruct (continues cfg st); [|done].
    destruct (train_epoch cfg w st) as [st1|e1 st1] eqn:He; [apply IH|].
    intros [= -> ->]. clear IH. unfold train_epoch in He.
    destruct (train_pass _ _ _ _) as [|e1 st2] eqn:Hpass; [done|].
    injection He as -> ->. revert Hpass.
    generalize (switch_check cfg st), (train_batches w (global_step st)).
    intros s n. revert s. induction n as [|n IHn]; intros s; cbn; [done|].
    destruct (train_step cfg w s) as [s1|e1 s1] eqn:Hstep; cbn; [apply IHn|].
    intros [= -> ->]. by apply (train_step_raises _ _ _ _ _ Hstep).
Qed.

(** The loop itself writes neither of the two files. *)
Definition nothing_written (st : state) : Prop :=
  (WriteSuccess ∉ effects st) /\ (WriteScores ∉ effects st).

Lemma nothing_written_in_loop cfg w fuel r :
  train_loop cfg w fuel initial = Some r -> nothing_written (state_of r).
Proof.
  apply train_loop_invariant; try (by intros st H); try (by intros ? st H).
  - intros st H. unfold switch_check. by destruct (_ && _).
  - intros st [H1 H2]. split; in_list.
  - intros e st He [H1 H2].
    assert (e <> WriteSuccess /\ e <> WriteScores) as [? ?].
    { repeat (apply elem_of_cons in He as [->|He]; [done|]).
      by apply elem_of_nil in He. }
    split; in_list.
  - intros st [H1 H2]. split; in_list.
  - split; cbn; apply not_elem_of_nil.
Qed.

(** C5, as the code has it.  With a batch in every pass, the [try] of [run]
    ends.  The condition of the [while] is tested at the top of every turn,
    that is between two passes over the training set, and the loop ends by
    itself at the first top at which [current_step >= max_steps] or
    [steps_since_best >= max_steps_without_improvement]; then the file
    SUCCESS is written.  When Ctrl-C is pressed during a step of the loop,
    the KeyboardInterrupt is caught and [run] returns normally, and SUCCESS
    is not written.  The other ways out of the loop are the division by a
    zero [print_every] and the call of a method [parse_dataset] that the
    class does not have; [run] catches neither, and SUCCESS is not
    written. *)
Theorem training_ends cfg w :
  (forall p, (1 <= train_batches w p)%nat) ->
  (exists fuel r, run cfg w fuel = Some r)
  /\ forall fuel r, run cfg w fuel = Some r ->
     match train_loop cfg w fuel initial with
     | Some (Ok st) =>
         (max_steps cfg <= current_step st
          \/ max_steps_without_improvement cfg <= steps_since_best st)
         /\ (exists k, epoch_start cfg w k = Some st
                       /\ forall j, (j < k)%nat ->
                            exists sj, epoch_start cfg w j = Some sj
                                       /\ continues cfg sj = true)
         /\ r = Ok (log WriteSuccess st)
         /\ effects (state_of r) = effects st ++ [WriteSuccess]
         /\ (WriteSuccess ∉ effects st)
     | Some (Raise KeyboardInterrupt st) =>
         r = Ok st
         /\ interrupt_at w <> None
         /\ (WriteSuccess ∉ effects st)
     | Some (Raise e st) =>
         r = Raise e st
         /\ (e = ZeroDivisionError /\ print_every cfg = 0
             \/ e = AttributeError /\ parse_datasets cfg = true
                /\ has_parse_dataset w = false)
         /\ (WriteSuccess ∉ effects st)
     | None => False
     end.
Proof.
  intros Hbatches. split.
  - destruct (train_loop_ends cfg w (Z.to_nat (max_steps cfg)) initial Hbatches)
      as [r Hr]; [cbn; lia|].
    exists (Z.to_nat (max_steps cfg)). unfold run. rewrite Hr.
    destruct r as [st|[] st]; by eexists.
  - intros fuel r. unfold run.
    destruct (train_loop cfg w fuel initial) as [[st|e st]|] eqn:Hloop; [| |done].
    + intros [= <-].
      pose proof (train_loop_exit _ _ _ _ _ Hloop) as Hexit.
      destruct (train_loop_epochs cfg w fuel 0 initial st eq_refl Hloop) as [k Hk].
      destruct (nothing_written_in_loop _ _ _ _ Hloop) as [Hno _].
      split; [unfold continues in Hexit; lia|].
      split; [exists k; split; [done|]; intros j Hj;
              by apply (epoch_start_earlier cfg w k st)|].
      done.
    + destruct (nothing_written_in_loop _ _ _ _ Hloop) as [Hno _].
      destruct (train_loop_raises _ _ _ _ _ _ Hloop) as [[-> Hat]|[[-> Hz]|[-> Hp]]];
        intros [= <-]; cbn [state_of]; split; try done; split; try done.
      * by left.
      * by right.
Qed.

(** A run that is interrupted during its third step. *)
Lemma training_ends_witness :
  let st := Runs.final (train_loop Runs.saving Runs.interrupted 1 initial) in
  train_loop Runs.saving Runs.interrupted 1 initial
    = Some (Raise KeyboardInterrupt st)
  /\ run Runs.saving Runs.interrupted 1 = Some (Ok st)
  /\ (WriteSuccess ∉ effects st).
Proof.
  intros st.
  assert (forall p, (1 <= train_batches Runs.interrupted p)%nat) as Hbatches
    by (intros p; cbn; lia).
  assert (run Runs.saving Runs.interrupted 1 = Some (Ok st))
    as Hrun by (vm_compute; reflexivity).
  destruct (training_ends Runs.saving Runs.interrupted Hbatches) as [_ Hend].
  specialize (Hend 1%nat _ Hrun).
  assert (train_loop Runs.saving Runs.interrupted 1 initial
          = Some (Raise KeyboardInterrupt st)) as Hloop by (vm_compute; reflexivity).
  rewrite Hloop in Hend. destruct Hend as (_ & _ & Hno).
  split; [exact Hloop|]. split; [exact Hrun|]. exact Hno.
Defined.

(** C5 as stated fails: Ctrl-C during the third step ends the loop without
    the file SUCCESS; and with a budget of two steps and four batches in a
    pass, training goes on to the fourth step. *)
Lemma interrupt_leaves_no_success :
  run Runs.saving Runs.interrupted 1
  = Some (Ok (Runs.final (run Runs.saving Runs.interrupted 1)))
  /\ effects (Runs.final (run Runs.saving Runs.interrupted 1))
     = [RunTrain Adam; DevSweep; SaverSave; RunTrain Adam; DevSweep]
  /\ max_steps Runs.brief = 2
  /\ current_step (Runs.final (run Runs.brief Runs.falling 1)) = 4
  /\ updates (effects (Runs.final (run Runs.brief Runs.falling 1)))
     = [Adam; Adam; Adam; Adam].
Proof. vm_compute. repeat split. Qed.

(** *** The transcript *)

Lemma transcript_raises cfg w fuel st :
  run cfg w fuel = Some (Ok st) ->
  train cfg w fuel = Some (Raise TypeError (log WriteScores st)).
Proof. unfold train. by intros ->. Qed.

(** X16.  [train] never returns normally.  When [run] returns, because the
    loop ended by itself or because Ctrl-C was caught, scores.txt is opened
    in mode ['wb'] and the [write] of a [str] to it (line 282) raises
    TypeError.  Otherwise the error that left the loop leaves [train], and
    scores.txt is not opened: the division by a zero [print_every], or the
    call of a method [parse_dataset] that the class does not have. *)
Theorem train_never_returns cfg w fuel r :
  train cfg w fuel = Some r ->
  exists e st,
    r = Raise e st
    /\ (e = TypeError
        /\ (exists st0, run cfg w fuel = Some (Ok st0) /\ st = log WriteScores st0)
        \/ e = ZeroDivisionError /\ print_every cfg = 0
           /\ (WriteScores ∉ effects st)
        \/ e = AttributeError /\ parse_datasets cfg = true
           /\ has_parse_dataset w = false /\ (WriteScores ∉ effects st)).
Proof.
  unfold train, run.
  destruct (train_loop cfg w fuel initial) as [[st|e st]|] eqn:Hloop; [| |done].
  - intros [= <-]. eexists _, _. split; [done|]. left. split; [done|].
    by eexists.
  - destruct (nothing_written_in_loop _ _ _ _ Hloop) as [_ Hno].
    destruct (train_loop_raises _ _ _ _ _ _ Hloop) as [[-> Hat]|[[-> Hz]|[-> Hp]]];
      intros [= <-]; eexists _, _; (split; [done|]).
    + left. split; [done|]. by eexists.
    + right. by left.
    + right. right. by destruct Hp.
Qed.

(** The run in which the accuracy falls: the loop ends by itself, SUCCESS
    is written, and the transcript is not. *)
Lemma train_never_returns_witness :
  let r := Raise TypeError (Runs.final (train Runs.saving Runs.falling 1)) in
  exists e st,
    r = Raise e st
    /\ (e = TypeError
        /\ (exists st0, run Runs.saving Runs.falling 1 = Some (Ok st0)
                        /\ st = log WriteScores st0)
        \/ e = ZeroDivisionError /\ print_every Runs.saving = 0
           /\ (WriteScores ∉ effects st)
        \/ e = AttributeError /\ parse_datasets Runs.saving = true
           /\ has_parse_dataset Runs.falling = false
           /\ (WriteScores ∉ effects st)).
Proof.
  intros r.
  assert (train Runs.saving Runs.falling 1 = Some r) as Hrun
    by (vm_compute; reflexivity).
  exact (train_never_returns _ _ _ _ Hrun).
Defined.


(** *** Counting *)

Lemma how_many_app p es es' :
  how_many p (es ++ es') = (how_many p es + how_many p es')%nat.
Proof. unfold how_many. by rewrite List.filter_app, length_app. Qed.

(** What an evaluation that nothing interrupts does. *)
Lemma evaluated_effects cfg w st :
  exists es,
    effects (evaluated cfg w st) = effects st ++ es
    /\ updates es = []
    /\ how_many is_sweep es = 1%nat
    /\ how_many is_update_step es = 0%nat
    /\ how_many is_save es
       = (if improves (smooth (current_accuracy st)
                         (dev_accuracy w (evaluations st)))
                      (best_accuracy st) && save_model cfg
          then 1 else 0)%nat.
Proof.
  eexists. split; [reflexivity|]. cbn.
  by destruct (improves _ _), (save_model cfg), (parse_datasets cfg).
Qed.

(** Between two steps, the counters are the numbers of things done. *)
Definition accounted (st : state) : Prop :=
  current_step st = Z.of_nat (length (updates (effects st)))
  /\ global_step st = how_many is_update_step (effects st)
  /\ evaluations st = how_many is_sweep (effects st)
  /\ length (screen st) = evaluations st.

Lemma accounted_update st : accounted st -> accounted (update st).
Proof.
  intros (Hc & Hg & He & Hs). unfold accounted; cbn -[how_many updates].
  rewrite updates_app, length_app, !how_many_app; cbn.
  split; [lia|]. split; [lia|]. split; [lia|done].
Qed.

Lemma accounted_evaluated cfg w st : accounted st -> accounted (evaluated cfg w st).
Proof.
  intros (Hc & Hg & He & Hs).
  destruct (evaluated_effects cfg w st) as (es & Hes & Hno & Hsw & Hup & _).
  unfold accounted. rewrite Hes, updates_app, !how_many_app, Hno, Hsw, Hup.
  cbn -[how_many updates]. rewrite app_nil_r, length_app. cbn.
  split; [done|]. split; [lia|]. split; lia.
Qed.

Lemma accounted_update_step st : accounted st -> accounted (update_step st).
Proof.
  intros (Hc & Hg & He & Hs). unfold accounted; cbn -[how_many updates].
  rewrite updates_app, !how_many_app; cbn. rewrite app_nil_r.
  split; [done|]. split; [lia|]. split; [lia|done].
Qed.

Lemma accounted_loop cfg w fuel st :
  train_loop cfg w fuel initial = Some (Ok st) -> accounted st.
Proof.
  intros Hloop.
  refine (train_loop_steps cfg w accounted (fun _ => True) _ _ _
            fuel initial (Ok st) _ Hloop).
  - intros s H. unfold switch_check. by destruct (_ && _).
  - intros s H. destruct (train_step cfg w s) as [s'|] eqn:Hstep; [|done].
    destruct (train_step_Ok _ _ _ _ Hstep) as [[_ ->]|(_ & -> & _)].
    + by apply accounted_update.
    + by apply accounted_evaluated, accounted_update.
  - apply accounted_update_step.
  - by repeat split.
Qed.

(** X1.  When the loop ends by itself, [current_step] is the number of
    updates that were run, the global step is the number of times
    [update_step] was run, and the number of frames shown is the number of
    sweeps over the development set. *)
Theorem counters_count cfg w fuel st :
  train_loop cfg w fuel initial = Some (Ok st) ->
  current_step st = Z.of_nat (length (updates (effects st)))
  /\ global_step st = how_many is_update_step (effects st)
  /\ length (screen st) = how_many is_sweep (effects st).
Proof.
  intros Hloop. destruct (accounted_loop _ _ _ _ Hloop) as (Hc & Hg & He & Hs).
  split; [done|]. split; [done|]. by rewrite Hs.
Qed.

(** The run in which the accuracy falls: four updates, one pass, four
    frames. *)
Lemma counters_count_witness :
  let st := Runs.final (train_loop Runs.saving Runs.falling 1 initial) in
  current_step st = Z.of_nat (length (updates (effects st)))
  /\ global_step st = how_many is_update_step (effects st)
  /\ length (screen st) = how_many is_sweep (effects st).
Proof.
  intros st.
  assert (train_loop Runs.saving Runs.falling 1 initial = Some (Ok st)) as Hloop
    by (vm_compute; reflexivity).
  exact (counters_count _ _ _ _ Hloop).
Defined.

(** *** The cadence of the evaluations *)

(** Between two steps, when [print_every] is positive: the evaluations made
    are those of the multiples of [print_every] up to [current_step]. *)
Definition in_cadence (cfg : config) (st : state) : Prop :=
  Z.of_nat (evaluations st) * print_every cfg <= current_step st
  /\ current_step st < (Z.of_nat (evaluations st) + 1) * print_every cfg
  /\ length (screen st) = evaluations st
  /\ (forall t f, screen st !! t = Some f ->
        shown_step f = (Z.of_nat t + 1) * print_every cfg)
  /\ 0 <= steps_since_best st
  /\ steps_since_best st <= Z.of_nat (evaluations st) * print_every cfg.

Lemma in_cadence_train_step cfg w st st' :
  0 < print_every cfg ->
  in_cadence cfg st -> train_step cfg w st = Ok st' -> in_cadence cfg st'.
Proof.
  intros Hpos (Hlo & Hhi & Hlen & Hframes & Hs0 & Hs1) Hstep.
  destruct (train_step_Ok _ _ _ _ Hstep) as [[Htick ->]|(Htick & -> & _)];
    revert Htick; unfold is_tick;
    destruct (print_every cfg =? 0) eqn:Hz; try lia;
    change (current_step (update st)) with (current_step st + 1);
    intros [= Hmod].
  - apply Z.eqb_neq in Hmod.
    assert (current_step st + 1 <> (Z.of_nat (evaluations st) + 1) * print_every cfg)
      as Hne by (intros Heq; apply Hmod; rewrite Heq; by apply Z.mod_mul; lia).
    unfold in_cadence; cbn -[Z.of_nat Z.mul].
    split; [lia|]. split; [lia|]. done.
  - apply Z.eqb_eq in Hmod.
    pose proof (Z.div_mod (current_step st + 1) (print_every cfg)) as Hdiv.
    rewrite Hmod in Hdiv.
    assert ((current_step st + 1) / print_every cfg
            = Z.of_nat (evaluations st) + 1) as Hq by nia.
    assert (current_step st + 1 = (Z.of_nat (evaluations st) + 1) * print_every cfg)
      as Hstep' by (rewrite <- Hq; lia).
    unfold in_cadence, evaluated; cbn -[Z.of_nat Z.mul].
    rewrite Nat2Z.inj_succ, length_app, Nat.add_1_r.
    split; [lia|]. split; [lia|]. split; [by rewrite Hlen|]. split.
    + intros t f Hf.
      destruct (decide (t < length (screen st))%nat) as [Hlt|Hge].
      * rewrite lookup_app_l in Hf by done. by apply Hframes.
      * assert (t = length (screen st)) as ->.
        { apply lookup_lt_Some in Hf. rewrite length_app in Hf. cbn in Hf. lia. }
        rewrite lookup_app_r, Nat.sub_diag in Hf by lia. injection Hf as <-.
        cbn. rewrite Hlen. lia.
    + destruct (improves _ _); lia.
Qed.

Lemma in_cadence_initial cfg : 0 < print_every cfg -> in_cadence cfg initial.
Proof.
  intros Hpos. unfold in_cadence; cbn. split; [done|]. split; [lia|].
  split; [done|]. split; [|done]. intros t f Hf. by rewrite lookup_nil in Hf.
Qed.

Lemma in_cadence_loop cfg w fuel st :
  0 < print_every cfg ->
  train_loop cfg w fuel initial = Some (Ok st) -> in_cadence cfg st.
Proof.
  intros Hpos Hloop.
  refine (train_loop_steps cfg w (in_cadence cfg) (fun _ => True) _ _ _
            fuel initial (Ok st) _ Hloop).
  - intros s H. unfold switch_check. by destruct (_ && _).
  - intros s H. destruct (train_step cfg w s) as [s'|] eqn:Hstep; [|done].
    by apply (in_cadence_train_step cfg w s).
  - by intros s H.
  - by apply in_cadence_initial.
Qed.

(** X2.  With a positive [print_every], the development set has been swept
    once for every [print_every] updates when the loop ends by itself: the
    number of frames shown is [current_step / print_every], and frame [t]
    shows step [(t + 1) * print_every]. *)
Theorem evaluation_every_print_every cfg w fuel st :
  0 < print_every cfg ->
  train_loop cfg w fuel initial = Some (Ok st) ->
  Z.of_nat (length (screen st)) = current_step st / print_every cfg
  /\ forall t f, screen st !! t = Some f ->
       shown_step f = (Z.of_nat t + 1) * print_every cfg.
Proof.
  intros Hpos Hloop.
  destruct (in_cadence_loop _ _ _ _ Hpos Hloop) as (Hlo & Hhi & Hlen & Hframes & _).
  split; [|done]. rewrite Hlen.
  apply (Z.div_unique _ _ _
           (current_step st - Z.of_nat (evaluations st) * print_every cfg)); lia.
Qed.

(** Four steps with an evaluation after every second one. *)
Lemma evaluation_every_print_every_witness :
  let st := Runs.final (train_loop Runs.every_second Runs.falling 1 initial) in
  Z.of_nat (length (screen st)) = current_step st / print_every Runs.every_second
  /\ forall t f, screen st !! t = Some f ->
       shown_step f = (Z.of_nat t + 1) * print_every Runs.every_second.
Proof.
  intros st.
  assert (0 < print_every Runs.every_second) as Hpos by (cbn; lia).
  assert (train_loop Runs.every_second Runs.falling 1 initial = Some (Ok st))
    as Hloop by (vm_compute; reflexivity).
  exact (evaluation_every_print_every _ _ _ _ Hpos Hloop).
Defined.

(** X3.  With a positive [print_every], when the loop ends by itself before
    the budget of steps is used up, it has run at least
    [max_steps_without_improvement] steps: the steps since the best are
    never more than the steps run. *)
Theorem patience_needs_steps cfg w fuel st :
  0 < print_every cfg ->
  train_loop cfg w fuel initial = Some (Ok st) ->
  0 <= steps_since_best st <= current_step st
  /\ (current_step st < max_steps cfg ->
      max_steps_without_improvement cfg <= steps_since_best st).
Proof.
  intros Hpos Hloop.
  destruct (in_cadence_loop _ _ _ _ Hpos Hloop) as (Hlo & _ & _ & _ & Hs0 & Hs1).
  split; [lia|].
  pose proof (train_loop_exit _ _ _ _ _ Hloop) as Hexit.
  unfold continues in Hexit. lia.
Qed.

(** The run in which the accuracy falls ends with the budget of steps. *)
Lemma patience_needs_steps_witness :
  let st := Runs.final (train_loop Runs.saving Runs.falling 1 initial) in
  0 <= steps_since_best st <= current_step st
  /\ (current_step st < max_steps Runs.saving ->
      max_steps_without_improvement Runs.saving <= steps_since_best st).
Proof.
  intros st.
  assert (0 < print_every Runs.saving) as Hpos by (cbn; lia).
  assert (train_loop Runs.saving Runs.falling 1 initial = Some (Ok st)) as Hloop
    by (vm_compute; reflexivity).
  exact (patience_needs_steps _ _ _ _ Hpos Hloop).
Defined.

(** *** Passes without a batch *)

Lemma idle_loop cfg w fuel st :
  (forall p, train_batches w p = 0%nat) ->
  continues cfg st = true ->
  train_loop cfg w fuel st = None.
Proof.
  intros Hnone. revert st. induction fuel as [|fuel IH]; intros st Hc; cbn.
  - by rewrite Hc.
  - rewrite Hc. unfold train_epoch. rewrite Hnone. cbn [train_pass and_then].
    apply IH. unfold continues in *. cbn.
    destruct (switch_check_keeps cfg st) as (-> & _ & _ & _ & ->). done.
Qed.

(** X4.  When the training set yields no batch, the loop never ends: a turn
    of the [while] changes neither [current_step] nor [steps_since_best], so
    that no number of turns is enough, whatever the budget of steps and the
    patience (both positive, or the loop is not entered). *)
Theorem empty_training_set_never_ends cfg w fuel :
  (forall p, train_batches w p = 0%nat) ->
  0 < max_steps cfg ->
  0 < max_steps_without_improvement cfg ->
  train cfg w fuel = None.
Proof.
  intros Hnone Hsteps Hpatience. unfold train, run.
  rewrite (idle_loop cfg w fuel initial Hnone); [done|].
  unfold continues; cbn. apply andb_true_iff. split; by apply Z.ltb_lt.
Qed.

Lemma empty_training_set_never_ends_witness :
  train Runs.saving Runs.no_batches 1000 = None.
Proof.
  apply empty_training_set_never_ends; [done|cbn; lia|cbn; lia].
Defined.

(** *** A zero [print_every] *)

Lemma not_interrupted w k p :
  interrupt_at w <> Some k -> interrupted w k p = false.
Proof. intros Hno. unfold interrupted. apply bool_decide_eq_false. by intros [? _]. Qed.

(** X5.  With [print_every = 0] the test of line 225 divides by zero at the
    first step: the first update is run, nothing is evaluated, shown, saved
    or written, and the error leaves [train], which catches only
    KeyboardInterrupt. *)
Theorem zero_print_every_raises cfg w fuel :
  print_every cfg = 0 ->
  0 < max_steps cfg ->
  0 < max_steps_without_improvement cfg ->
  (1 <= train_batches w 0)%nat ->
  interrupt_at w <> Some 0 ->
  exists st o,
    train cfg w (S fuel) = Some (Raise ZeroDivisionError st)
    /\ effects st = [RunTrain o]
    /\ current_step st = 1
    /\ screen st = [].
Proof.
  intros Hz Hsteps Hpatience Hbatch Hint.
  exists (update (switch_check cfg initial)),
         (current_optimizer (switch_check cfg initial)).
  assert (continues cfg initial = true) as Hc.
  { unfold continues; cbn. apply andb_true_iff. split; by apply Z.ltb_lt. }
  destruct (switch_check_keeps cfg initial) as (Hstep & Hglobal & _).
  assert (effects (switch_check cfg initial) = []
          /\ screen (switch_check cfg initial) = []) as [Heffects Hscreen].
  { unfold switch_check. by destruct (_ && _). }
  split; [|split; [|split]].
  - unfold train, run. cbn [train_loop]. rewrite Hc. unfold train_epoch.
    cbn [initial global_step].
    destruct (train_batches w 0) as [|n]; [lia|]. cbn [train_pass].
    unfold train_step. rewrite Hstep. cbn [initial current_step].
    unfold reach. rewrite !(not_interrupted w 0) by done. cbn [and_then].
    fold (update (switch_check cfg initial)).
    unfold is_tick. by rewrite Hz.
  - cbn. by rewrite Heffects.
  - cbn. by rewrite Hstep.
  - cbn. by rewrite Hscreen.
Qed.

Lemma zero_print_every_raises_witness :
  exists st o,
    train Runs.never_printing Runs.falling 1 = Some (Raise ZeroDivisionError st)
    /\ effects st = [RunTrain o]
    /\ current_step st = 1
    /\ screen st = [].
Proof.
  apply zero_print_every_raises;
    [done|cbn; lia|cbn; lia|cbn; lia|discriminate].
Defined.

(** *** Checkpoints and improvements *)

(** Between two steps, the checkpoints saved are as many as the frames that
    show an improvement, when the model is saved at all. *)
Definition saves_counted (cfg : config) (st : state) : Prop :=
  0 <= steps_since_best st
  /\ how_many is_save (effects st)
     = if save_model cfg
       then length (List.filter shows_improvement (screen st))
       else 0%nat.

Lemma saves_counted_train_step cfg w st st' :
  0 < print_every cfg ->
  saves_counted cfg st -> train_step cfg w st = Ok st' -> saves_counted cfg st'.
Proof.
  intros Hpos (Hs0 & Hsaves) Hstep.
  destruct (train_step_Ok _ _ _ _ Hstep) as [[_ ->]|(_ & -> & _)].
  - unfold saves_counted. cbn -[how_many List.filter].
    rewrite how_many_app, Hsaves. split; [done|].
    unfold how_many. cbn. lia.
  - unfold saves_counted, evaluated.
    cbn -[how_many List.filter smooth improves].
    rewrite !how_many_app, List.filter_app, length_app, Hsaves.
    destruct (improves _ _).
    + split; [done|]. unfold how_many, shows_improvement.
      destruct (save_model cfg), (parse_datasets cfg); cbn; lia.
    + split; [lia|].
      assert ((steps_since_best st + print_every cfg =? 0) = false) as Hnz
        by (apply Z.eqb_neq; lia).
      unfold how_many, shows_improvement. cbn -[Z.eqb Z.add]. rewrite Hnz.
      destruct (save_model cfg); cbn; lia.
Qed.

Lemma saves_counted_update_step cfg st :
  saves_counted cfg st -> saves_counted cfg (update_step st).
Proof.
  intros (Hs0 & Hsaves). unfold saves_counted. cbn -[how_many List.filter].
  rewrite how_many_app, Hsaves. split; [done|].
  unfold how_many. cbn. lia.
Qed.

(** X6.  With a positive [print_every], when the loop ends by itself the
    checkpoints saved are as many as the frames that show zero steps since
    the best accuracy, when [save_model] is on, and none when it is off. *)
Theorem checkpoints_are_improvements cfg w fuel st :
  0 < print_every cfg ->
  train_loop cfg w fuel initial = Some (Ok st) ->
  how_many is_save (effects st)
  = if save_model cfg
    then length (List.filter shows_improvement (screen st))
    else 0%nat.
Proof.
  intros Hpos Hloop.
  refine (proj2 (train_loop_steps cfg w (saves_counted cfg) (fun _ => True) _ _ _
                   fuel initial (Ok st) _ Hloop)).
  - intros s H. unfold switch_check. by destruct (_ && _).
  - intros s H. destruct (train_step cfg w s) as [s'|] eqn:Hstep; [|done].
    by apply (saves_counted_train_step cfg w s).
  - apply saves_counted_update_step.
  - split; [done|]. cbn. by destruct (save_model cfg).
Qed.

(** The run in which the accuracy falls. *)
Lemma checkpoints_are_improvements_witness :
  let st := Runs.final (train_loop Runs.saving Runs.falling 1 initial) in
  how_many is_save (effects st)
  = if save_model Runs.saving
    then length (List.filter shows_improvement (screen st))
    else 0%nat.
Proof.
  intros st.
  assert (0 < print_every Runs.saving) as Hpos by (cbn; lia).
  assert (train_loop Runs.saving Runs.falling 1 initial = Some (Ok st)) as Hloop
    by (vm_compute; reflexivity).
  exact (checkpoints_are_improvements _ _ _ _ Hpos Hloop).
Defined.

(** *** How far past the budget *)

Lemma train_pass_global_step cfg w n st st' :
  train_pass cfg w n st = Ok st' -> global_step st' = global_step st.
Proof.
  revert st. induction n as [|n IH]; intros st; cbn.
  - by intros [= <-].
  - destruct (train_step cfg w st) as [st1|] eqn:Hstep; [|done].
    cbn. intros Hpass. rewrite (IH _ Hpass).
    by destruct (train_step_Ok _ _ _ _ Hstep) as [[_ ->]|(_ & -> & _)].
Qed.

Lemma train_epoch_global_step cfg w st st' :
  train_epoch cfg w st = Ok st' -> global_step st' = S (global_step st).
Proof.
  unfold train_epoch.
  destruct (train_pass _ _ _ _) as [st1|] eqn:Hpass; [|done].
  intros [= <-]. cbn. rewrite (train_pass_global_step _ _ _ _ _ Hpass).
  by destruct (switch_check_keeps cfg st) as (_ & -> & _).
Qed.

(** X7.  The loop runs past [max_steps] by less than one pass over the
    training set: when it ends by itself after [p + 1] passes, [current_step]
    is below [max_steps] plus the number of batches of the last pass; when it
    is not entered, nothing was done. *)
Theorem budget_missed_by_less_than_a_pass cfg w fuel st :
  train_loop cfg w fuel initial = Some (Ok st) ->
  st = initial
  \/ exists p, global_step st = S p
               /\ current_step st < max_steps cfg + Z.of_nat (train_batches w p).
Proof.
  generalize initial. induction fuel as [|fuel IH]; intros st0; cbn.
  - destruct (continues cfg st0); [done|]. intros [= <-]. by left.
  - destruct (continues cfg st0) eqn:Hc; [|intros [= <-]; by left].
    destruct (train_epoch cfg w st0) as [st1|] eqn:He; [|done].
    intros Hloop. right. destruct (IH _ Hloop) as [->|Hlater]; [|done].
    exists (global_step st0). split; [by apply (train_epoch_global_step cfg w)|].
    rewrite (train_epoch_counts _ _ _ _ He). unfold continues in Hc. lia.
Qed.

(** A budget of two steps and four batches in a pass. *)
Lemma budget_missed_by_less_than_a_pass_witness :
  let st := Runs.final (train_loop Runs.brief Runs.falling 1 initial) in
  st = initial
  \/ exists p, global_step st = S p
               /\ current_step st
                  < max_steps Runs.brief + Z.of_nat (train_batches Runs.falling p).
Proof.
  intros st.
  assert (train_loop Runs.brief Runs.falling 1 initial = Some (Ok st)) as Hloop
    by (vm_compute; reflexivity).
  exact (budget_missed_by_less_than_a_pass _ _ _ _ Hloop).
Defined.

End TrainFacts.

(* ===================================================================== *)
(** ** Facts about the vocabularies of a model *)
(* ===================================================================== *)

Module RegistryFacts.

Import Registry.

Lemma bind_inr {A B} (m : M A) (k : A -> M B) r b r' :
  bind m k r = (inr b, r') ->
  exists a r1, m r = (inr a, r1) /\ k a r1 = (inr b, r').
Proof.
  unfold bind. destruct (m r) as [[e|a] r1]; [done|]. intros Hk. by exists a, r1.
Qed.

Lemma bind_inl {A B} (m : M A) (k : A -> M B) r e r' :
  bind m k r = (inl e, r') ->
  m r = (inl e, r') \/ exists a r1, m r = (inr a, r1) /\ k a r1 = (inl e, r').
Proof.
  unfold bind. destruct (m r) as [[e1|a] r1]; [intros [= -> ->]; by left|].
  intros Hk. right. by exists a, r1.
Qed.

(** Every key of [extant_vocabs] is the class name of its value. *)
Definition keyed (r : registry) : Prop :=
  forall c v, extant_vocabs r !! c = Some v -> classname v = c.

(** [v] is the object that [extant_vocabs] holds for its class. *)
Definition shared (r : registry) (v : vocab) : Prop :=
  extant_vocabs r !! classname v = Some v.

(** [extant_vocabs] only gains entries. *)
Definition grows (r r' : registry) : Prop :=
  extant_vocabs r ⊆ extant_vocabs r'.

Lemma shared_grows r r' v : shared r v -> grows r r' -> shared r' v.
Proof. unfold shared, grows. intros Hv Hsub. by eapply lookup_weaken. Qed.

Lemma shared_unique r v v' :
  shared r v -> shared r v' -> classname v = classname v' -> v = v'.
Proof. unfold shared. intros Hv Hv' Heq. rewrite Heq in Hv. congruence. Qed.

Lemma grows_trans r1 r2 r3 : grows r1 r2 -> grows r2 r3 -> grows r1 r3.
Proof. unfold grows. intros. by etrans. Qed.

Lemma set_extant_fresh r c v r' :
  set_extant c v r = (inr tt, r') ->
  extant_vocabs r !! c = None -> classname v = c -> keyed r ->
  keyed r' /\ grows r r' /\ shared r' v.
Proof.
  intros [= <-] Hnone Hc Hkeyed. unfold keyed, grows, shared; cbn.
  split; [|split].
  - intros c' v'. rewrite lookup_insert. case_decide; [|by apply Hkeyed].
    intros [= <-]. congruence.
  - by apply insert_subseteq.
  - rewrite Hc. by rewrite lookup_insert_eq.
Qed.

Lemma grows_refl r : grows r r.
Proof. by unfold grows. Qed.

Lemma perform_inr es r a r1 :
  perform es r = (inr a, r1) ->
  r1 = {| extant_vocabs := extant_vocabs r; next_id := next_id r;
          done := done r ++ es |}.
Proof. by intros [= <-]. Qed.

Lemma get_extant_inr r m r1 :
  get_extant r = (inr m, r1) -> m = extant_vocabs r /\ r1 = r.
Proof. by intros [= <- <-]. Qed.

(** *** The scan of the input networks *)

Lemma scan_vocabs_shares vs r r' :
  scan_vocabs vs r = (inr tt, r') -> keyed r ->
  keyed r' /\ grows r r' /\ forall v, v ∈ vs -> shared r' v.
Proof.
  revert r. induction vs as [|v vs IH]; intros r; cbn [scan_vocabs].
  - intros [= <-] Hkeyed. split; [done|]. split; [apply grows_refl|].
    intros v Hv. by apply elem_of_nil in Hv.
  - intros Hscan Hkeyed.
    apply bind_inr in Hscan as ([] & r1 & ->%perform_inr & Hscan).
    apply bind_inr in Hscan as (extant & r2 & [-> ->]%get_extant_inr & Hscan).
    apply bind_inr in Hscan as ([] & r3 & Hstep & Hscan).
    set (r1 := Build_registry _ _ _) in *.
    assert (keyed r1) as Hk1 by done.
    assert (grows r r1) as Hg1 by (by unfold grows).
    assert (keyed r3 /\ grows r1 r3 /\ shared r3 v) as (Hk3 & Hg3 & Hs3).
    { destruct (extant_vocabs r1 !! classname v) as [v'|] eqn:Hv.
      - case_decide as Heq; [|done]. injection Hstep as <-. subst v'.
        split; [done|]. split; [apply grows_refl|done].
      - by eapply (set_extant_fresh _ (classname v) v) in Hstep. }
    assert (grows r r3) as Hg by exact (grows_trans _ _ _ Hg1 Hg3).
    destruct (IH _ Hscan Hk3) as (Hk' & Hg' & Hs').
    split; [done|]. split; [exact (grows_trans _ _ _ Hg Hg')|].
    intros v0 [->|Hv0]%elem_of_cons;
      [exact (shared_grows _ _ _ Hs3 Hg')|by apply Hs'].
Qed.

Lemma scan_vocabs_fails vs r e r' :
  scan_vocabs vs r = (inl e, r') -> exists c, e = ConsistencyError c.
Proof.
  revert r. induction vs as [|v vs IH]; intros r; cbn [scan_vocabs]; [done|].
  intros Hscan.
  apply bind_inl in Hscan as [[=]|([] & r1 & _ & Hscan)].
  apply bind_inl in Hscan as [[=]|(extant & r2 & _ & Hscan)].
  apply bind_inl in Hscan as [Hstep|([] & r3 & Hstep & Hscan)]; [|by eapply IH].
  destruct (extant !! classname v); [|done].
  case_decide; [done|]. injection Hstep as <- _. by eexists.
Qed.

Lemma scan_networks_shares nets r r' :
  scan_networks nets r = (inr tt, r') -> keyed r ->
  keyed r' /\ grows r r'
  /\ forall n v, n ∈ nets -> v ∈ net_vocabs n -> shared r' v.
Proof.
  revert r. induction nets as [|n nets IH]; intros r; cbn [scan_networks].
  - intros [= <-] Hkeyed. split; [done|]. split; [apply grows_refl|].
    intros n v Hn. by apply elem_of_nil in Hn.
  - intros Hscan Hkeyed.
    apply bind_inr in Hscan as ([] & r1 & Hfirst & Hscan).
    destruct (scan_vocabs_shares _ _ _ Hfirst Hkeyed) as (Hk1 & Hg1 & Hs1).
    destruct (IH _ Hscan Hk1) as (Hk' & Hg' & Hs').
    split; [done|]. split; [exact (grows_trans _ _ _ Hg1 Hg')|].
    intros n0 v [->|Hn0]%elem_of_cons Hv; [|by eapply Hs'].
    exact (shared_grows _ _ _ (Hs1 _ Hv) Hg').
Qed.

Lemma scan_networks_fails nets r e r' :
  scan_networks nets r = (inl e, r') -> exists c, e = ConsistencyError c.
Proof.
  revert r. induction nets as [|n nets IH]; intros r; cbn [scan_networks]; [done|].
  intros Hscan.
  apply bind_inl in Hscan as [Hfirst|([] & r1 & _ & Hscan)];
    [by eapply scan_vocabs_fails|by eapply IH].
Qed.

(** *** The vocabularies of the model *)

Lemma new_vocab_inr c r v r1 :
  new_vocab c r = (inr v, r1) ->
  classname v = c /\ extant_vocabs r1 = extant_vocabs r.
Proof. by intros [= <- <-]. Qed.

Lemma resolve_id_vocab_shares r v r' :
  resolve_id_vocab r = (inr v, r') -> keyed r ->
  keyed r' /\ grows r r' /\ shared r' v /\ classname v = "IDIndexVocab".
Proof.
  unfold resolve_id_vocab. intros Hid Hkeyed.
  apply bind_inr in Hid as (extant & r1 & [-> ->]%get_extant_inr & Hid).
  destruct (extant_vocabs r !! "IDIndexVocab") as [v0|] eqn:Hv0.
  - injection Hid as <- <-. pose proof (Hkeyed _ _ Hv0) as Hc.
    split; [done|]. split; [apply grows_refl|]. split; [|done].
    unfold shared. by rewrite Hc.
  - apply bind_inr in Hid as (v1 & r1 & [Hc Hsame]%new_vocab_inr & Hid).
    apply bind_inr in Hid as ([] & r2 & Hset & [= <- <-]).
    assert (keyed r1) as Hk1 by (unfold keyed; by rewrite Hsame).
    assert (grows r r1) as Hg1 by (unfold grows; by rewrite Hsame).
    rewrite <- Hsame in Hv0.
    destruct (set_extant_fresh _ _ _ _ Hset Hv0 Hc Hk1) as (Hk2 & Hg2 & Hs2).
    split; [done|]. split; [exact (grows_trans _ _ _ Hg1 Hg2)|done].
Qed.

Lemma create_shares w c r v r' :
  create w c r = (inr v, r') -> extant_vocabs r !! c = None -> keyed r ->
  keyed r' /\ grows r r' /\ shared r' v /\ classname v = c.
Proof.
  unfold create. intros Hcreate Hnone Hkeyed.
  destruct (defined w c); [|done].
  apply bind_inr in Hcreate as (v1 & r1 & [Hc Hsame]%new_vocab_inr & Hcreate).
  apply bind_inr in Hcreate as ([] & r2 & ->%perform_inr & Hcreate).
  apply bind_inr in Hcreate as ([] & r3 & Hset & [= <- <-]).
  set (r2 := Build_registry _ _ _) in *.
  assert (keyed r2) as Hk2 by (unfold keyed; cbn; by rewrite Hsame).
  assert (grows r r2) as Hg2 by (unfold grows; cbn; by rewrite Hsame).
  assert (extant_vocabs r2 !! c = None) as Hnone2 by (cbn; by rewrite Hsame).
  destruct (set_extant_fresh _ _ _ _ Hset Hnone2 Hc Hk2) as (Hk3 & Hg3 & Hs3).
  split; [done|]. split; [exact (grows_trans _ _ _ Hg2 Hg3)|done].
Qed.

Lemma resolve_shares w cs acc r acc' r' :
  resolve w cs acc r = (inr acc', r') -> keyed r ->
  (forall v, v ∈ acc -> shared r v) ->
  keyed r' /\ grows r r' /\ forall v, v ∈ acc' -> shared r' v.
Proof.
  revert acc r. induction cs as [|c cs IH]; intros acc r; cbn [resolve].
  - intros [= <- <-] Hkeyed Hacc. split; [done|]. split; [apply grows_refl|done].
  - intros Hres Hkeyed Hacc.
    apply bind_inr in Hres as (extant & r0 & [-> ->]%get_extant_inr & Hres).
    apply bind_inr in Hres as (v & r1 & Hv & Hres).
    assert (keyed r1 /\ grows r r1 /\ shared r1 v) as (Hk1 & Hg1 & Hs1).
    { destruct (extant_vocabs r !! c) as [v0|] eqn:Hv0.
      - injection Hv as <- <-. pose proof (Hkeyed _ _ Hv0) as Hc.
        split; [done|]. split; [apply grows_refl|]. unfold shared. by rewrite Hc.
      - destruct (create_shares _ _ _ _ _ Hv Hv0 Hkeyed) as (? & ? & ? & _). done. }
    destruct (IH _ _ Hres Hk1) as (Hk' & Hg' & Hs').
    { intros v0 [Hv0| ->%elem_of_singleton]%elem_of_union; [|done].
      exact (shared_grows _ _ _ (Hacc _ Hv0) Hg1). }
    split; [done|]. split; [exact (grows_trans _ _ _ Hg1 Hg')|done].
Qed.

(** After a construction that succeeds, every vocabulary of the composition
    is the one that the final [extant_vocabs] holds for its class. *)
Lemma construct_shares cfg w nets r m r' :
  construct cfg w nets r = (inr m, r') -> keyed r ->
  (forall v, in_composition m v -> shared r' v)
  /\ classname (id_vocab m) = "IDIndexVocab"
  /\ id_vocab m ∈ vocabs m
  /\ input_vocabs m ⊆ vocabs m
  /\ output_vocabs m ⊆ vocabs m
  /\ throughput_vocabs m ⊆ vocabs m.
Proof.
  unfold construct. case_decide as Hclasses; [|done]. intros Hc Hkeyed.
  apply bind_inr in Hc as ([] & r1 & Hscan & Hc).
  apply bind_inr in Hc as (idv & r2 & Hid & Hc).
  apply bind_inr in Hc as (ins & r3 & Hins & Hc).
  apply bind_inr in Hc as (outs & r4 & Houts & Hc).
  apply bind_inr in Hc as (thrus & r5 & Hthrus & Hc).
  apply bind_inr in Hc as ([] & r6 & ->%perform_inr & Hc).
  apply bind_inr in Hc as (extant & r7 & [-> ->]%get_extant_inr & [= <- <-]).
  destruct (scan_networks_shares _ _ _ Hscan Hkeyed) as (Hk1 & Hg1 & Hs1).
  destruct (resolve_id_vocab_shares _ _ _ Hid Hk1) as (Hk2 & Hg2 & Hs2 & Hidc).
  destruct (resolve_shares _ _ _ _ _ _ Hins Hk2) as (Hk3 & Hg3 & Hs3);
    [intros v Hv; by apply elem_of_empty in Hv|].
  destruct (resolve_shares _ _ _ _ _ _ Houts Hk3) as (Hk4 & Hg4 & Hs4);
    [intros v Hv; by apply elem_of_empty in Hv|].
  destruct (resolve_shares _ _ _ _ _ _ Hthrus Hk4) as (Hk5 & Hg5 & Hs5);
    [intros v Hv; by apply elem_of_empty in Hv|].
  set (r6 := Build_registry _ _ _).
  assert (grows r5 r6) as Hg6 by (by unfold grows).
  assert (forall v, shared r6 v -> v ∈ (map_img (extant_vocabs r5) : gset vocab))
    as Himg.
  { intros v Hv. apply elem_of_map_img. by exists (classname v). }
  assert (forall v, shared r5 v -> shared r6 v) as H56
    by (intros v Hv; exact (shared_grows _ _ _ Hv Hg6)).
  assert (forall v, shared r4 v -> shared r6 v) as H46
    by (intros v Hv; apply H56; exact (shared_grows _ _ _ Hv Hg5)).
  assert (forall v, shared r3 v -> shared r6 v) as H36
    by (intros v Hv; apply H46; exact (shared_grows _ _ _ Hv Hg4)).
  assert (forall v, shared r2 v -> shared r6 v) as H26
    by (intros v Hv; apply H36; exact (shared_grows _ _ _ Hv Hg3)).
  assert (forall v, shared r1 v -> shared r6 v) as H16
    by (intros v Hv; apply H26; exact (shared_grows _ _ _ Hv Hg2)).
  cbn. split; [|split; [done|]; split; [|split; [|split]]].
  - intros v [Hv|[Hv|[Hv|[Hv|[->|(n & Hn & Hv)]]]]]; cbn in *.
    + apply elem_of_map_img in Hv as [c Hv]. unfold shared; cbn.
      by rewrite (Hk5 _ _ Hv).
    + by apply H36, Hs3.
    + by apply H46, Hs4.
    + by apply H56, Hs5.
    + by apply H26.
    + by eapply H16, Hs1.
  - by apply Himg, H26.
  - intros v Hv. by apply Himg, H36, Hs3.
  - intros v Hv. by apply Himg, H46, Hs4.
  - intros v Hv. by apply Himg, H56, Hs5.
Qed.

(** C2.  After a construction that succeeds, over any input networks, two
    vocabularies of the composition (in the model's [vocabs],
    [input_vocabs], [output_vocabs], [throughput_vocabs], its [id_vocab], or
    among the vocabularies of an input network) that have the same class
    name are the same object; the identifier vocabulary is of class
    IDIndexVocab, it is in [vocabs], and it is the one of an input network
    when one has it.  When two input networks hold different objects of one
    class, construction fails: with the ConsistencyError of line 62 when the
    networks passed in are the declared ones, and with the
    ConfigurationError of line 55, which is tested first, otherwise. *)
Theorem one_instance_per_class cfg w heap nets :
  (forall m r, init cfg w heap nets = (inr m, r) ->
     input_networks m = nets
     /\ (forall v v', in_composition m v -> in_composition m v' ->
                      classname v = classname v' -> v = v')
     /\ classname (id_vocab m) = "IDIndexVocab"
     /\ id_vocab m ∈ vocabs m
     /\ (forall n v, n ∈ nets -> v ∈ net_vocabs n ->
                     classname v = "IDIndexVocab" -> id_vocab m = v)
     /\ input_vocabs m ⊆ vocabs m
     /\ output_vocabs m ⊆ vocabs m
     /\ throughput_vocabs m ⊆ vocabs m)
  /\ (conflicting nets ->
      exists e r, init cfg w heap nets = (inl e, r)
        /\ if decide ((list_to_set (net_classname <$> nets) : gset string)
                      = list_to_set (input_network_classes cfg))
           then exists c, e = ConsistencyError c
           else e = ConfigurationError).
Proof.
  assert (keyed {| extant_vocabs := ∅; next_id := heap; done := [] |}) as Hk0.
  { intros c v Hv. cbn in Hv. by rewrite lookup_empty in Hv. }
  split.
  - intros m r Hinit. unfold init in Hinit.
    destruct (construct_shares _ _ _ _ _ _ Hinit Hk0)
      as (Hshared & Hidc & Hid & Hins & Houts & Hthrus).
    assert (input_networks m = nets) as Hnets.
    { unfold construct in Hinit. case_decide; [|done].
      repeat (apply bind_inr in Hinit as (? & ? & _ & Hinit)).
      by injection Hinit as <- _. }
    split; [done|]. split; [|split; [done|]; split; [done|]; split; [|done]].
    + intros v v' Hv Hv'. apply (shared_unique r); by apply Hshared.
    + intros n v Hn Hv Hc. apply (shared_unique r); apply Hshared || congruence.
      * by do 4 right; left.
      * do 5 right. exists n. by rewrite Hnets.
  - intros (n & n' & v & v' & Hn & Hn' & Hv & Hv' & Hc & Hne).
    unfold init, construct. case_decide as Hclasses; [|by eexists _, _].
    set (r0 := Build_registry _ _ _) in *.
    destruct (scan_networks nets r0) as [[e|[]] r1] eqn:Hscan.
    + destruct (scan_networks_fails _ _ _ _ Hscan) as [c ->].
      exists (ConsistencyError c), r1. split; [|by exists c].
      unfold bind. by rewrite Hscan.
    + destruct (scan_networks_shares _ _ _ Hscan Hk0) as (_ & _ & Hs1).
      destruct Hne.
      exact (shared_unique r1 _ _ (Hs1 _ _ Hn Hv) (Hs1 _ _ Hn' Hv') Hc).
Qed.

(** A tagger and a parser with a vocabulary of word forms each. *)
Lemma one_instance_per_class_witness :
  exists r, init Runs.over_both Runs.fresh 4 [Runs.tagger; Runs.parser]
            = (inl (ConsistencyError "FormVocab"), r).
Proof.
  assert (conflicting [Runs.tagger; Runs.parser]) as Hconflict.
  { exists Runs.tagger, Runs.parser, Runs.forms_of_tagger, Runs.forms_of_parser.
    repeat split; try (apply list_elem_of_In; cbn; tauto). discriminate. }
  destruct (one_instance_per_class Runs.over_both Runs.fresh 4
              [Runs.tagger; Runs.parser]) as [_ Hfails].
  destruct (Hfails Hconflict) as (e & r & Hinit & He).
  exists r. rewrite Hinit. f_equal.
  assert (fst (init Runs.over_both Runs.fresh 4 [Runs.tagger; Runs.parser])
          = inl (ConsistencyError "FormVocab")) as Hfst by (vm_compute; reflexivity).
  rewrite Hinit in Hfst. exact Hfst.
Defined.

(** *** The check of the input networks *)

Lemma mismatched_differ cfg nets :
  mismatched cfg nets ->
  (list_to_set (net_classname <$> nets) : gset string)
  <> list_to_set (input_network_classes cfg).
Proof.
  intros [(c & Hc & Hnone)|(n & Hn & Hnot)] Heq.
  - assert (c ∈ (list_to_set (net_classname <$> nets) : gset string)) as Hin
      by (rewrite Heq; by apply elem_of_list_to_set).
    apply elem_of_list_to_set, list_elem_of_fmap in Hin as (n & -> & Hn).
    by apply (Hnone n).
  - apply Hnot. apply (elem_of_list_to_set (C := gset string)). rewrite <- Heq.
    apply elem_of_list_to_set, list_elem_of_fmap. by exists n.
Qed.

(** C7.  When the class names of the input networks passed in are not the
    declared [input_network_classes], as sets (a declared class of which no
    network was passed in, or a network of a class that was not declared),
    construction fails with the ConfigurationError of line 55, before
    anything else is done: no vocabulary is looked at, created, loaded or
    counted, and no variable of the graph is made. *)
Theorem mismatched_networks_rejected cfg w heap nets :
  (list_to_set (net_classname <$> nets) : gset string)
    <> list_to_set (input_network_classes cfg)
  \/ mismatched cfg nets ->
  init cfg w heap nets
  = (inl ConfigurationError, {| extant_vocabs := ∅; next_id := heap; done := [] |}).
Proof.
  intros Hdiffer.
  assert ((list_to_set (net_classname <$> nets) : gset string)
          <> list_to_set (input_network_classes cfg)) as Hne.
  { destruct Hdiffer as [H|H]; [done|by apply mismatched_differ]. }
  unfold init, construct. by case_decide.
Qed.

(** A model over a tagger and a parser that is given the tagger only. *)
Lemma mismatched_networks_rejected_witness :
  init Runs.over_both Runs.fresh 4 [Runs.tagger]
  = (inl ConfigurationError, {| extant_vocabs := ∅; next_id := 4; done := [] |}).
Proof.
  apply mismatched_networks_rejected. right. left.
  exists "ParserNetwork". split.
  - apply list_elem_of_In. cbn. tauto.
  - intros n Hn. apply list_elem_of_singleton in Hn as ->. discriminate.
Defined.

(** *** The throughput vocabularies *)

(** The vocabularies that [extant_vocabs] holds for the classes [cs]. *)
Definition held (r : registry) (cs : list string) : gset vocab :=
  list_to_set (omap (fun c => extant_vocabs r !! c) cs).

Lemma held_grows r r' cs :
  grows r r' -> (forall c, c ∈ cs -> is_Some (extant_vocabs r !! c)) ->
  held r' cs = held r cs.
Proof.
  intros Hg Hcs. unfold held. f_equal. induction cs as [|c cs IH]; [done|].
  cbn. destruct (Hcs c) as [v Hv]; [by left|].
  rewrite Hv, (lookup_weaken _ _ _ _ Hv Hg). cbn. f_equal.
  apply IH. intros c' Hc'. apply Hcs. by right.
Qed.

Lemma resolve_grows w cs acc r acc' r' :
  resolve w cs acc r = (inr acc', r') -> keyed r -> keyed r' /\ grows r r'.
Proof.
  revert acc r. induction cs as [|c cs IH]; intros acc r; cbn [resolve].
  - intros [= <- <-] Hkeyed. split; [done|apply grows_refl].
  - intros Hres Hkeyed.
    apply bind_inr in Hres as (extant & r0 & [-> ->]%get_extant_inr & Hres).
    apply bind_inr in Hres as (v & r1 & Hv & Hres).
    assert (keyed r1 /\ grows r r1) as (Hk1 & Hg1).
    { destruct (extant_vocabs r !! c) as [v0|] eqn:Hv0.
      - injection Hv as <- <-. split; [done|apply grows_refl].
      - by destruct (create_shares _ _ _ _ _ Hv Hv0 Hkeyed) as (? & ? & _). }
    destruct (IH _ _ Hres Hk1) as (Hk' & Hg').
    split; [done|exact (grows_trans _ _ _ Hg1 Hg')].
Qed.

Lemma resolve_held w cs acc r acc' r' :
  resolve w cs acc r = (inr acc', r') -> keyed r ->
  acc' = acc ∪ held r' cs
  /\ forall c, c ∈ cs -> is_Some (extant_vocabs r' !! c).
Proof.
  revert acc r. induction cs as [|c cs IH]; intros acc r; cbn [resolve].
  - intros [= <- <-] _. split; [unfold held; cbn; set_solver|].
    intros c Hc. by apply elem_of_nil in Hc.
  - intros Hres Hkeyed.
    apply bind_inr in Hres as (extant & r0 & [-> ->]%get_extant_inr & Hres).
    apply bind_inr in Hres as (v & r1 & Hv & Hres).
    assert (keyed r1 /\ extant_vocabs r1 !! c = Some v) as (Hk1 & Hv1).
    { destruct (extant_vocabs r !! c) as [v0|] eqn:Hv0.
      - by injection Hv as <- <-.
      - destruct (create_shares _ _ _ _ _ Hv Hv0 Hkeyed) as (? & _ & Hs & Hc).
        unfold shared in Hs. by rewrite Hc in Hs. }
    destruct (IH _ _ Hres Hk1) as (-> & Hcs).
    destruct (resolve_grows _ _ _ _ _ _ Hres Hk1) as (_ & Hg).
    pose proof (lookup_weaken _ _ _ _ Hv1 Hg) as Hv'.
    split.
    + unfold held. cbn. rewrite Hv'. cbn. set_solver.
    + intros c0 [->|Hc0]%elem_of_cons; [by eexists|by apply Hcs].
Qed.

Lemma resolve_again w cs acc r :
  (forall c, c ∈ cs -> is_Some (extant_vocabs r !! c)) ->
  resolve w cs acc r = (inr (acc ∪ held r cs), r).
Proof.
  revert acc. induction cs as [|c cs IH]; intros acc Hcs; cbn [resolve].
  - unfold ret, held. cbn. do 2 f_equal. set_solver.
  - destruct (Hcs c) as [v Hv]; [by left|].
    unfold bind at 1, get_extant. rewrite Hv. unfold bind at 1, ret.
    rewrite IH by (intros c' Hc'; apply Hcs; by right).
    unfold held. cbn. rewrite Hv. cbn. do 2 f_equal. set_solver.
Qed.

(** The loop of lines 95-103 runs over [output_vocab_classes]: in every
    model that is constructed the throughput vocabularies are the output
    vocabularies, whatever [throughput_vocab_classes] declares. *)
Lemma throughput_is_output cfg w heap nets m r :
  init cfg w heap nets = (inr m, r) -> throughput_vocabs m = output_vocabs m.
Proof.
  unfold init, construct. case_decide; [|done]. intros Hc.
  assert (keyed {| extant_vocabs := ∅; next_id := heap; done := [] |}) as Hk0.
  { intros c v Hv. cbn in Hv. by rewrite lookup_empty in Hv. }
  apply bind_inr in Hc as ([] & r1 & Hscan & Hc).
  apply bind_inr in Hc as (idv & r2 & Hid & Hc).
  apply bind_inr in Hc as (ins & r3 & Hins & Hc).
  apply bind_inr in Hc as (outs & r4 & Houts & Hc).
  apply bind_inr in Hc as (thrus & r5 & Hthrus & Hc).
  apply bind_inr in Hc as ([] & r6 & _ & Hc).
  apply bind_inr in Hc as (extant & r7 & _ & [= <- _]). cbn.
  destruct (scan_networks_shares _ _ _ Hscan Hk0) as (Hk1 & _).
  destruct (resolve_id_vocab_shares _ _ _ Hid Hk1) as (Hk2 & _).
  destruct (resolve_grows _ _ _ _ _ _ Hins Hk2) as (Hk3 & _).
  destruct (resolve_held _ _ _ _ _ _ Houts Hk3) as (-> & Hall).
  rewrite (resolve_again w _ ∅ r4 Hall) in Hthrus. by injection Hthrus as <- _.
Qed.

(** C9 fails on the code: a model that declares XPOSVocab as its only
    throughput vocabulary is constructed with the vocabulary of its output
    class, DeprelVocab, as its throughput vocabulary, and no XPOSVocab is
    resolved at all. *)
Lemma throughput_classes_not_resolved :
  match init Runs.alone Runs.fresh 0 [] with
  | (inr m, r) =>
      throughput_vocab_classes Runs.alone = ["XPOSVocab"]
      /\ classname <$> elements (throughput_vocabs m) = ["DeprelVocab"]
      /\ extant_vocabs r !! "XPOSVocab" = None
      /\ (forall v, v ∈ vocabs m -> classname v <> "XPOSVocab")
  | (inl _, _) => False
  end.
Proof.
  destruct (init Runs.alone Runs.fresh 0 []) as [[e|m] r] eqn:Hinit;
    [by vm_compute in Hinit|].
  assert (classname <$> elements (throughput_vocabs m) = ["DeprelVocab"]) as Hthru.
  { revert Hinit. vm_compute. by intros [= <- _]. }
  assert (extant_vocabs r !! "XPOSVocab" = None) as Hnone.
  { revert Hinit. vm_compute. by intros [= _ <-]. }
  split; [done|]. split; [done|]. split; [done|].
  intros v Hv Hc.
  assert (keyed {| extant_vocabs := ∅; next_id := 0; done := [] |}) as Hk0.
  { intros c v0 Hv0. cbn in Hv0. by rewrite lookup_empty in Hv0. }
  destruct (construct_shares _ _ _ _ _ _ Hinit Hk0) as (Hshared & _).
  specialize (Hshared v (or_introl Hv)). unfold shared in Hshared.
  rewrite Hc in Hshared. congruence.
Qed.

(** *** Where the vocabularies come from *)

(** Every vocabulary that [extant_vocabs] holds is one of [pool]. *)
Definition drawn_from (r : registry) (pool : vocab -> Prop) : Prop :=
  forall c v, extant_vocabs r !! c = Some v -> pool v.

Lemma keyed_empty heap :
  keyed {| extant_vocabs := ∅; next_id := heap; done := [] |}.
Proof. intros c v Hv. cbn in Hv. by rewrite lookup_empty in Hv. Qed.

(** One turn of the loop of lines 59-64 on [v]. *)
Lemma scan_vocabs_cons v vs r :
  scan_vocabs (v :: vs) r
  = let r1 := {| extant_vocabs := extant_vocabs r; next_id := next_id r;
                 done := done r ++ [PrintClass (classname v)] |} in
    match extant_vocabs r !! classname v with
    | Some v' =>
        if decide (v = v') then scan_vocabs vs r1
        else (inl (ConsistencyError (classname v)), r1)
    | None =>
        scan_vocabs vs {| extant_vocabs := <[classname v := v]> (extant_vocabs r);
                          next_id := next_id r;
                          done := done r ++ [PrintClass (classname v)] |}
    end.
Proof.
  cbn [scan_vocabs]. unfold bind, perform, get_extant; cbn.
  destruct (extant_vocabs r !! classname v) as [v'|]; [|done].
  by case_decide.
Qed.

Lemma scan_vocabs_drawn vs r pool :
  keyed r -> drawn_from r pool -> (forall v, v ∈ vs -> pool v) ->
  match scan_vocabs vs r with
  | (inr _, r') => drawn_from r' pool
  | (inl e, _) =>
      exists v v', e = ConsistencyError (classname v) /\ pool v /\ pool v'
                   /\ classname v = classname v' /\ v <> v'
  end.
Proof.
  revert r. induction vs as [|v vs IH]; intros r Hkeyed Hdrawn Hpool; [done|].
  rewrite scan_vocabs_cons. cbn zeta.
  assert (pool v) as Hv by (apply Hpool; by left).
  assert (forall v0, v0 ∈ vs -> pool v0) as Hrest by (intros v0 H0; apply Hpool; by right).
  destruct (extant_vocabs r !! classname v) as [v'|] eqn:Hlook.
  - case_decide as Heq.
    + by apply IH.
    + exists v, v'. split; [done|]. split; [done|]. split; [by eapply Hdrawn|].
      split; [|done]. symmetry. by apply Hkeyed.
  - apply IH; [| |done].
    + intros c v0. cbn. rewrite lookup_insert. case_decide; [|by apply Hkeyed].
      intros [= <-]. congruence.
    + intros c v0. cbn. rewrite lookup_insert. case_decide; [|by apply Hdrawn].
      by intros [= <-].
Qed.

Lemma scan_networks_drawn nets r pool :
  keyed r -> drawn_from r pool ->
  (forall n v, n ∈ nets -> v ∈ net_vocabs n -> pool v) ->
  match scan_networks nets r with
  | (inr _, r') => drawn_from r' pool
  | (inl e, _) =>
      exists v v', e = ConsistencyError (classname v) /\ pool v /\ pool v'
                   /\ classname v = classname v' /\ v <> v'
  end.
Proof.
  revert r. induction nets as [|n nets IH]; intros r Hkeyed Hdrawn Hpool; [done|].
  cbn [scan_networks]. unfold bind.
  pose proof (scan_vocabs_drawn (net_vocabs n) r pool Hkeyed Hdrawn) as Hfirst.
  destruct (scan_vocabs (net_vocabs n) r) as [[e|[]] r1] eqn:Hscan.
  - apply Hfirst. intros v Hv. apply (Hpool n); [by left|done].
  - apply IH.
    + by destruct (scan_vocabs_shares _ _ _ Hscan Hkeyed).
    + apply Hfirst. intros v Hv. apply (Hpool n); [by left|done].
    + intros n0 v Hn0. apply Hpool. by right.
Qed.

(** The vocabularies of the input networks. *)
Definition supplied (nets : list network) (v : vocab) : Prop :=
  exists n, n ∈ nets /\ v ∈ net_vocabs n.

Lemma scan_networks_from_empty nets heap :
  match scan_networks nets {| extant_vocabs := ∅; next_id := heap; done := [] |} with
  | (inr _, r') => drawn_from r' (supplied nets)
  | (inl e, _) =>
      exists v v', e = ConsistencyError (classname v)
                   /\ supplied nets v /\ supplied nets v'
                   /\ classname v = classname v' /\ v <> v'
  end.
Proof.
  apply scan_networks_drawn.
  - apply keyed_empty.
  - intros c v Hv. cbn in Hv. by rewrite lookup_empty in Hv.
  - intros n v Hn Hv. by exists n.
Qed.

Lemma resolve_id_vocab_adds r v r' :
  resolve_id_vocab r = (inr v, r') ->
  forall c v0, extant_vocabs r' !! c = Some v0 ->
    extant_vocabs r !! c = Some v0 \/ v0 = v.
Proof.
  unfold resolve_id_vocab, bind, get_extant.
  destruct (extant_vocabs r !! "IDIndexVocab") as [v1|] eqn:Hlook.
  - intros [= <- <-] c v0 Hv0. by left.
  - cbn. intros [= <- <-] c v0. cbn. rewrite lookup_insert.
    case_decide; [intros [= <-]; by right|by left].
Qed.

Lemma create_inr w c r v r' :
  create w c r = (inr v, r') ->
  defined w c = true
  /\ extant_vocabs r' = <[c := v]> (extant_vocabs r)
  /\ vocab_id v = next_id r
  /\ next_id r' = S (next_id r)
  /\ done r' = done r ++ Construct v :: LoadVocab v
                 :: (if saved w c then [] else [CountVocab v]).
Proof.
  unfold create. destruct (defined w c); [|done].
  unfold bind, new_vocab, perform, set_extant, ret. cbn.
  intros [= <- <-]. cbn. by rewrite <- app_assoc.
Qed.

Lemma create_inl w c r e r' :
  create w c r = (inl e, r') ->
  e = AttributeError c /\ defined w c = false /\ r' = r.
Proof.
  unfold create. destruct (defined w c); [|by intros [= <- <-]].
  unfold bind, new_vocab, perform, set_extant, ret. by cbn.
Qed.

(** One turn of the loop of lines 73-81. *)
Lemma resolve_cons w c cs acc r :
  resolve w (c :: cs) acc r
  = match extant_vocabs r !! c with
    | Some v => resolve w cs (acc ∪ {[ v ]}) r
    | None =>
        match create w c r with
        | (inr v, r1) => resolve w cs (acc ∪ {[ v ]}) r1
        | (inl e, r1) => (inl e, r1)
        end
    end.
Proof.
  cbn [resolve]. unfold bind at 1, get_extant. unfold bind at 1.
  by destruct (extant_vocabs r !! c).
Qed.

Lemma resolve_adds w cs acc r acc' r' :
  resolve w cs acc r = (inr acc', r') ->
  acc ⊆ acc'
  /\ forall c v, extant_vocabs r' !! c = Some v ->
       extant_vocabs r !! c = Some v \/ v ∈ acc'.
Proof.
  revert acc r. induction cs as [|c cs IH]; intros acc r.
  - intros [= <- <-]. split; [done|]. intros c v Hv. by left.
  - rewrite resolve_cons.
    destruct (extant_vocabs r !! c) as [v|] eqn:Hlook.
    + intros Hres. destruct (IH _ _ Hres) as (Hsub & Hvals).
      split; [set_solver|done].
    + destruct (create w c r) as [[e|v] r1] eqn:Hcreate; [done|].
      intros Hres. destruct (IH _ _ Hres) as (Hsub & Hvals).
      destruct (create_inr _ _ _ _ _ Hcreate) as (_ & Hext & _).
      split; [set_solver|].
      intros c0 v0 Hv0. destruct (Hvals _ _ Hv0) as [Hin|Hin]; [|by right].
      rewrite Hext, lookup_insert in Hin. case_decide; [|by left].
      injection Hin as <-. right. set_solver.
Qed.

Lemma resolve_fails w cs acc r e r' :
  resolve w cs acc r = (inl e, r') -> keyed r ->
  exists c, e = AttributeError c /\ c ∈ cs /\ defined w c = false
            /\ grows r r' /\ extant_vocabs r' !! c = None.
Proof.
  revert acc r. induction cs as [|c cs IH]; intros acc r; [done|].
  rewrite resolve_cons.
  destruct (extant_vocabs r !! c) as [v|] eqn:Hlook.
  - intros Hres Hkeyed. destruct (IH _ _ Hres Hkeyed) as (c0 & ? & ? & ? & ? & ?).
    exists c0. repeat split; try done. by right.
  - destruct (create w c r) as [[e1|v] r1] eqn:Hcreate.
    + intros [= <- <-] Hkeyed.
      destruct (create_inl _ _ _ _ _ Hcreate) as (-> & Hdef & ->).
      exists c. repeat split; try done; [by left|apply grows_refl].
    + intros Hres Hkeyed.
      destruct (create_shares _ _ _ _ _ Hcreate Hlook Hkeyed) as (Hk1 & Hg1 & _).
      destruct (IH _ _ Hres Hk1) as (c0 & ? & ? & ? & Hg & ?).
      exists c0. repeat split; try done; [by right|exact (grows_trans _ _ _ Hg1 Hg)].
Qed.

Lemma resolve_succeeds w cs acc r :
  (forall c, c ∈ cs -> extant_vocabs r !! c = None -> defined w c = true) ->
  exists acc' r', resolve w cs acc r = (inr acc', r').
Proof.
  revert acc r. induction cs as [|c cs IH]; intros acc r Hdef; [by eexists _, _|].
  rewrite resolve_cons.
  destruct (extant_vocabs r !! c) as [v|] eqn:Hlook.
  - apply IH. intros c0 Hc0. apply Hdef. by right.
  - destruct (create w c r) as [[e1|v] r1] eqn:Hcreate.
    + destruct (create_inl _ _ _ _ _ Hcreate) as (_ & Hno & _).
      rewrite Hdef in Hno; [done|by left|done].
    + apply IH. intros c0 Hc0 Hnone. apply Hdef; [by right|].
      destruct (create_inr _ _ _ _ _ Hcreate) as (_ & Hext & _).
      rewrite Hext, lookup_insert in Hnone. by case_decide.
Qed.

Lemma resolve_id_vocab_succeeds r :
  exists v r', resolve_id_vocab r = (inr v, r').
Proof.
  unfold resolve_id_vocab, bind, get_extant.
  destruct (extant_vocabs r !! "IDIndexVocab"); by eexists _, _.
Qed.

(** The steps of a construction that succeeds, and the registries between
    them. *)
Lemma construct_inr cfg w nets r m r' :
  construct cfg w nets r = (inr m, r') ->
  exists r1 r2 r3 r4 r5,
    scan_networks nets r = (inr tt, r1)
    /\ resolve_id_vocab r1 = (inr (id_vocab m), r2)
    /\ resolve w (input_vocab_classes cfg) ∅ r2 = (inr (input_vocabs m), r3)
    /\ resolve w (output_vocab_classes cfg) ∅ r3 = (inr (output_vocabs m), r4)
    /\ resolve w (output_vocab_classes cfg) ∅ r4 = (inr (throughput_vocabs m), r5)
    /\ extant_vocabs r' = extant_vocabs r5
    /\ done r' = done r5 ++ [GlobalStep]
    /\ input_networks m = nets
    /\ vocabs m = map_img (extant_vocabs r').
Proof.
  unfold construct. case_decide; [|done]. intros Hc.
  apply bind_inr in Hc as ([] & r1 & Hscan & Hc).
  apply bind_inr in Hc as (idv & r2 & Hid & Hc).
  apply bind_inr in Hc as (ins & r3 & Hins & Hc).
  apply bind_inr in Hc as (outs & r4 & Houts & Hc).
  apply bind_inr in Hc as (thrus & r5 & Hthrus & Hc).
  apply bind_inr in Hc as ([] & r6 & ->%perform_inr & Hc).
  apply bind_inr in Hc as (extant & r7 & [-> ->]%get_extant_inr & [= <- <-]).
  cbn. by exists r1, r2, r3, r4, r5.
Qed.

Lemma elem_of_held r cs v :
  keyed r ->
  v ∈ held r cs <-> classname v ∈ cs /\ extant_vocabs r !! classname v = Some v.
Proof.
  intros Hkeyed. unfold held. rewrite elem_of_list_to_set, list_elem_of_omap.
  split.
  - intros (c & Hc & Hv). by rewrite (Hkeyed _ _ Hv).
  - intros [Hc Hv]. by exists (classname v).
Qed.

Lemma elem_of_vocabs (r : registry) v :
  keyed r ->
  v ∈ (map_img (extant_vocabs r) : gset vocab)
  <-> extant_vocabs r !! classname v = Some v.
Proof.
  intros Hkeyed. rewrite elem_of_map_img. split.
  - intros [c Hv]. by rewrite (Hkeyed _ _ Hv).
  - intros Hv. by exists (classname v).
Qed.

(** A construction that succeeds, step by step: the registries between the
    steps only grow, and every key is the class of its value. *)
Record constructed (cfg : config) (w : world) (heap : nat) (nets : list network)
    (m : base_network) (r r1 r2 r3 r4 r5 : registry) : Prop := {
  scanned :
    scan_networks nets {| extant_vocabs := ∅; next_id := heap; done := [] |}
    = (inr tt, r1);
  id_resolved : resolve_id_vocab r1 = (inr (id_vocab m), r2);
  inputs_resolved :
    resolve w (input_vocab_classes cfg) ∅ r2 = (inr (input_vocabs m), r3);
  outputs_resolved :
    resolve w (output_vocab_classes cfg) ∅ r3 = (inr (output_vocabs m), r4);
  throughputs_resolved :
    resolve w (output_vocab_classes cfg) ∅ r4 = (inr (throughput_vocabs m), r5);
  same_extant : extant_vocabs r = extant_vocabs r5;
  all_vocabs : vocabs m = map_img (extant_vocabs r);
  keyed1 : keyed r1; keyed2 : keyed r2; keyed3 : keyed r3;
  keyed4 : keyed r4; keyed_last : keyed r;
  grows12 : grows r1 r2; grows23 : grows r2 r3; grows34 : grows r3 r4;
  grows4 : grows r4 r
}.

Lemma init_inr cfg w heap nets m r :
  init cfg w heap nets = (inr m, r) ->
  exists r1 r2 r3 r4 r5, constructed cfg w heap nets m r r1 r2 r3 r4 r5.
Proof.
  intros Hinit. unfold init in Hinit.
  destruct (construct_inr _ _ _ _ _ _ Hinit)
    as (r1 & r2 & r3 & r4 & r5 & Hscan & Hid & Hins & Houts & Hthrus
        & Hsame & _ & _ & Hvocabs).
  destruct (scan_networks_shares _ _ _ Hscan (keyed_empty heap)) as (Hk1 & _).
  destruct (resolve_id_vocab_shares _ _ _ Hid Hk1) as (Hk2 & Hg2 & _).
  destruct (resolve_grows _ _ _ _ _ _ Hins Hk2) as (Hk3 & Hg3).
  destruct (resolve_grows _ _ _ _ _ _ Houts Hk3) as (Hk4 & Hg4).
  destruct (resolve_grows _ _ _ _ _ _ Hthrus Hk4) as (Hk5 & Hg5).
  exists r1, r2, r3, r4, r5. split; try done.
  - unfold keyed. by rewrite Hsame.
  - unfold grows. by rewrite Hsame.
Qed.

(** X8.  In a model that is constructed, [input_vocabs] holds, for every
    declared input class, the vocabulary of that class among the model's
    [vocabs], and nothing else; and so does [output_vocabs] for the declared
    output classes. *)
Theorem declared_classes_resolved cfg w heap nets m r :
  init cfg w heap nets = (inr m, r) ->
  (forall v, v ∈ input_vocabs m
             <-> v ∈ vocabs m /\ classname v ∈ input_vocab_classes cfg)
  /\ (forall v, v ∈ output_vocabs m
                <-> v ∈ vocabs m /\ classname v ∈ output_vocab_classes cfg)
  /\ (forall c, c ∈ input_vocab_classes cfg ->
        exists v, v ∈ input_vocabs m /\ classname v = c)
  /\ (forall c, c ∈ output_vocab_classes cfg ->
        exists v, v ∈ output_vocabs m /\ classname v = c).
Proof.
  intros Hinit.
  destruct (init_inr _ _ _ _ _ _ Hinit)
    as (r1 & r2 & r3 & r4 & r5
        & [Hscan Hid Hins Houts Hthrus Hsame Hvocabs Hk1 Hk2 Hk3 Hk4 Hk
             Hg12 Hg23 Hg34 Hg4]).
  destruct (resolve_held _ _ _ _ _ _ Hins Hk2) as (Hins' & Hin_all).
  destruct (resolve_held _ _ _ _ _ _ Houts Hk3) as (Houts' & Hout_all).
  assert (grows r3 r) as Hg3 by exact (grows_trans _ _ _ Hg34 Hg4).
  assert (input_vocabs m = held r (input_vocab_classes cfg)) as ->.
  { rewrite Hins', (held_grows r3 r) by done. set_solver. }
  assert (output_vocabs m = held r (output_vocab_classes cfg)) as ->.
  { rewrite Houts', (held_grows r4 r) by done. set_solver. }
  assert (forall cs v, v ∈ held r cs <-> v ∈ vocabs m /\ classname v ∈ cs) as Hheld.
  { intros cs v. rewrite Hvocabs, elem_of_held, elem_of_vocabs by done. tauto. }
  assert (forall r' cs, grows r' r ->
            (forall c, c ∈ cs -> is_Some (extant_vocabs r' !! c)) ->
            forall c, c ∈ cs -> exists v, v ∈ held r cs /\ classname v = c) as Hsome.
  { intros r' cs Hg Hall c Hc. destruct (Hall c Hc) as [v Hv].
    pose proof (lookup_weaken _ _ _ _ Hv Hg) as Hv'.
    pose proof (Hk _ _ Hv') as Hcv.
    exists v. split; [|done]. apply elem_of_held; [done|]. by rewrite Hcv. }
  split; [apply Hheld|]. split; [apply Hheld|].
  split; [by apply (Hsome r3)|by apply (Hsome r4)].
Qed.

Lemma declared_classes_resolved_witness :
  exists v, v ∈ input_vocabs (Runs.built Runs.alone [])
            /\ classname v = "FormVocab".
Proof.
  destruct (declared_classes_resolved Runs.alone Runs.fresh 0 []
              (Runs.built Runs.alone []) (Runs.registry_of Runs.alone []))
    as (_ & _ & Hins & _); [vm_compute; reflexivity|].
  apply Hins. apply list_elem_of_In. cbn. tauto.
Defined.

(** X9.  The [vocabs] of a model that is constructed are the vocabularies
    of its input networks, its identifier vocabulary, its input vocabularies
    and its output vocabularies, and no other. *)
Theorem vocabs_are_the_composition cfg w heap nets m r :
  init cfg w heap nets = (inr m, r) ->
  forall v, v ∈ vocabs m
            <-> supplied nets v \/ v = id_vocab m
                \/ v ∈ input_vocabs m \/ v ∈ output_vocabs m.
Proof.
  intros Hinit v.
  destruct (init_inr _ _ _ _ _ _ Hinit)
    as (r1 & r2 & r3 & r4 & r5
        & [Hscan Hid Hins Houts Hthrus Hsame Hvocabs Hk1 Hk2 Hk3 Hk4 Hk
             Hg12 Hg23 Hg34 Hg4]).
  pose proof (throughput_is_output _ _ _ _ _ _ Hinit) as Hsameset.
  assert (keyed {| extant_vocabs := ∅; next_id := heap; done := [] |}) as Hk0
    by apply keyed_empty.
  destruct (construct_shares _ _ _ _ _ _ Hinit Hk0)
    as (Hshared & _ & Hidin & Hinsin & Houtsin & _).
  split.
  - rewrite Hvocabs, elem_of_map_img, Hsame. intros [c Hv].
    destruct (resolve_adds _ _ _ _ _ _ Hthrus) as (_ & H5).
    destruct (H5 _ _ Hv) as [Hv4|Hin]; [|rewrite Hsameset in Hin; tauto].
    destruct (resolve_adds _ _ _ _ _ _ Houts) as (_ & H4).
    destruct (H4 _ _ Hv4) as [Hv3|Hin]; [|tauto].
    destruct (resolve_adds _ _ _ _ _ _ Hins) as (_ & H3).
    destruct (H3 _ _ Hv3) as [Hv2|Hin]; [|tauto].
    destruct (resolve_id_vocab_adds _ _ _ Hid _ _ Hv2) as [Hv1|Hin]; [|tauto].
    left. pose proof (scan_networks_from_empty nets heap) as Hdrawn.
    rewrite Hscan in Hdrawn. by apply (Hdrawn c).
  - intros [(n & Hn & Hv)|[->|[Hv|Hv]]]; [|done|by apply Hinsin|by apply Houtsin].
    rewrite Hvocabs. apply elem_of_vocabs; [done|]. apply Hshared.
    do 5 right. exists n. split; [|done].
    unfold init in Hinit.
    destruct (construct_inr _ _ _ _ _ _ Hinit)
      as (? & ? & ? & ? & ? & _ & _ & _ & _ & _ & _ & _ & -> & _). done.
Qed.

(** A model without input networks: its identifier vocabulary is one of
    its [vocabs]. *)
Lemma vocabs_are_the_composition_witness :
  id_vocab (Runs.built Runs.alone []) ∈ vocabs (Runs.built Runs.alone []).
Proof.
  apply (vocabs_are_the_composition Runs.alone Runs.fresh 0 []
           (Runs.built Runs.alone []) (Runs.registry_of Runs.alone []));
    [vm_compute; reflexivity|].
  right. by left.
Defined.

(** *** When construction succeeds, and how it fails *)

Lemma supplied_shared nets r r1 v :
  scan_networks nets r = (inr tt, r1) -> keyed r -> supplied nets v -> shared r1 v.
Proof.
  intros Hscan Hkeyed (n & Hn & Hv).
  destruct (scan_networks_shares _ _ _ Hscan Hkeyed) as (_ & _ & Hs).
  by apply (Hs n).
Qed.

(** A class that the registry does not hold after the scan and the
    identifier vocabulary is not IDIndexVocab, and no input network has a
    vocabulary of it. *)
Lemma absent_class nets heap r1 v r2 r' c :
  scan_networks nets {| extant_vocabs := ∅; next_id := heap; done := [] |}
  = (inr tt, r1) ->
  resolve_id_vocab r1 = (inr v, r2) ->
  grows r2 r' -> extant_vocabs r' !! c = None ->
  c <> "IDIndexVocab" /\ forall v', supplied nets v' -> classname v' <> c.
Proof.
  intros Hscan Hid Hg Hnone.
  destruct (scan_networks_shares _ _ _ Hscan (keyed_empty heap)) as (Hk1 & _).
  destruct (resolve_id_vocab_shares _ _ _ Hid Hk1) as (Hk2 & Hg2 & Hs2 & Hidc).
  split.
  - intros ->. unfold shared in Hs2. rewrite Hidc in Hs2.
    pose proof (lookup_weaken _ _ _ _ Hs2 Hg). congruence.
  - intros v' Hv' Hc. pose proof (supplied_shared _ _ _ _ Hscan (keyed_empty heap) Hv') as Hs.
    unfold shared in Hs. rewrite Hc in Hs.
    pose proof (lookup_weaken _ _ _ _ Hs (grows_trans _ _ _ Hg2 Hg)). congruence.
Qed.

(** X10.  Construction succeeds when the networks passed in are of the
    declared classes, no two of their vocabularies of one class are
    different objects, and the module [vocabs] defines every declared input
    and output class that it has to create: those that are not IDIndexVocab
    and of which no input network has a vocabulary. *)
Theorem construction_succeeds cfg w heap nets :
  (list_to_set (net_classname <$> nets) : gset string)
  = list_to_set (input_network_classes cfg) ->
  ~ conflicting nets ->
  (forall c, c ∈ input_vocab_classes cfg ++ output_vocab_classes cfg ->
     c <> "IDIndexVocab" ->
     (forall v, supplied nets v -> classname v <> c) ->
     defined w c = true) ->
  exists m r, init cfg w heap nets = (inr m, r).
Proof.
  intros Hclasses Hsound Hdefined. unfold init, construct.
  case_decide; [|done].
  set (r0 := {| extant_vocabs := ∅; next_id := heap; done := [] |}).
  pose proof (scan_networks_from_empty nets heap) as Hdrawn. fold r0 in Hdrawn.
  destruct (scan_networks nets r0) as [[e|[]] r1] eqn:Hscan.
  { destruct Hdrawn as (v & v' & _ & (n & Hn & Hv) & (n' & Hn' & Hv') & Hc & Hne).
    destruct Hsound. by exists n, n', v, v'. }
  destruct (resolve_id_vocab_succeeds r1) as (idv & r2 & Hid).
  destruct (scan_networks_shares _ _ _ Hscan (keyed_empty heap)) as (Hk1 & _).
  destruct (resolve_id_vocab_shares _ _ _ Hid Hk1) as (Hk2 & _).
  destruct (resolve_succeeds w (input_vocab_classes cfg) ∅ r2) as (ins & r3 & Hins).
  { intros c Hc Hnone.
    destruct (absent_class _ _ _ _ _ _ _ Hscan Hid (grows_refl r2) Hnone).
    apply Hdefined; [apply elem_of_app; by left|done|done]. }
  destruct (resolve_grows _ _ _ _ _ _ Hins Hk2) as (Hk3 & Hg3).
  destruct (resolve_succeeds w (output_vocab_classes cfg) ∅ r3) as (outs & r4 & Houts).
  { intros c Hc Hnone.
    destruct (absent_class _ _ _ _ _ _ _ Hscan Hid Hg3 Hnone).
    apply Hdefined; [apply elem_of_app; by right|done|done]. }
  destruct (resolve_grows _ _ _ _ _ _ Houts Hk3) as (Hk4 & Hg4).
  destruct (resolve_succeeds w (output_vocab_classes cfg) ∅ r4) as (thrus & r5 & Hthrus).
  { intros c Hc Hnone.
    destruct (absent_class _ _ _ _ _ _ _ Hscan Hid (grows_trans _ _ _ Hg3 Hg4) Hnone).
    apply Hdefined; [apply elem_of_app; by right|done|done]. }
  unfold bind. rewrite Hscan, Hid, Hins, Houts, Hthrus. cbn. by eexists _, _.
Qed.

(** A model without input networks, when every class is defined. *)
Lemma construction_succeeds_witness :
  exists m r, init Runs.alone Runs.fresh 0 [] = (inr m, r).
Proof.
  apply construction_succeeds.
  - done.
  - intros (n & _ & _ & _ & Hn & _). by apply elem_of_nil in Hn.
  - done.
Defined.

Lemma resolve_id_vocab_inl r e r' : resolve_id_vocab r = (inl e, r') -> False.
Proof.
  destruct (resolve_id_vocab_succeeds r) as (v & r1 & ->). discriminate.
Qed.

(** X11.  The three ways in which construction fails.  A ConfigurationError
    means that the classes of the networks passed in are not the declared
    ones, and nothing was done; a ConsistencyError names a class of which two
    vocabularies of the input networks are different objects; an
    AttributeError names a declared input or output class that the module
    [vocabs] does not define, that is not IDIndexVocab, and of which no input
    network has a vocabulary. *)
Theorem construction_errors cfg w heap nets e r :
  init cfg w heap nets = (inl e, r) ->
  match e with
  | ConfigurationError =>
      (list_to_set (net_classname <$> nets) : gset string)
      <> list_to_set (input_network_classes cfg)
      /\ done r = []
  | ConsistencyError c =>
      exists v v', supplied nets v /\ supplied nets v'
                   /\ classname v = c /\ classname v' = c /\ v <> v'
  | AttributeError c =>
      c ∈ input_vocab_classes cfg ++ output_vocab_classes cfg
      /\ defined w c = false
      /\ c <> "IDIndexVocab"
      /\ forall v, supplied nets v -> classname v <> c
  end.
Proof.
  unfold init, construct. case_decide as Hclasses; [|by intros [= <- <-]].
  set (r0 := {| extant_vocabs := ∅; next_id := heap; done := [] |}).
  pose proof (scan_networks_from_empty nets heap) as Hdrawn. fold r0 in Hdrawn.
  intros Hc.
  apply bind_inl in Hc as [Hscan|([] & r1 & Hscan & Hc)].
  { rewrite Hscan in Hdrawn.
    destruct Hdrawn as (v & v' & -> & Hv & Hv' & Hcv & Hne). by exists v, v'. }
  apply bind_inl in Hc as [Hid|(idv & r2 & Hid & Hc)];
    [by apply resolve_id_vocab_inl in Hid|].
  destruct (scan_networks_shares _ _ _ Hscan (keyed_empty heap)) as (Hk1 & _).
  destruct (resolve_id_vocab_shares _ _ _ Hid Hk1) as (Hk2 & _).
  apply bind_inl in Hc as [Hins|(ins & r3 & Hins & Hc)].
  { destruct (resolve_fails _ _ _ _ _ _ Hins Hk2) as (c & -> & Hin & Hdef & Hg & Hnone).
    destruct (absent_class _ _ _ _ _ _ _ Hscan Hid Hg Hnone).
    split; [apply elem_of_app; by left|done]. }
  destruct (resolve_grows _ _ _ _ _ _ Hins Hk2) as (Hk3 & Hg3).
  apply bind_inl in Hc as [Houts|(outs & r4 & Houts & Hc)].
  { destruct (resolve_fails _ _ _ _ _ _ Houts Hk3) as (c & -> & Hin & Hdef & Hg & Hnone).
    destruct (absent_class _ _ _ _ _ _ _ Hscan Hid (grows_trans _ _ _ Hg3 Hg) Hnone).
    split; [apply elem_of_app; by right|done]. }
  destruct (resolve_grows _ _ _ _ _ _ Houts Hk3) as (Hk4 & Hg4).
  apply bind_inl in Hc as [Hthrus|(thrus & r5 & Hthrus & Hc)].
  { destruct (resolve_fails _ _ _ _ _ _ Hthrus Hk4) as (c & -> & Hin & Hdef & Hg & Hnone).
    destruct (absent_class _ _ _ _ _ _ _ Hscan Hid
                (grows_trans _ _ _ Hg3 (grows_trans _ _ _ Hg4 Hg)) Hnone).
    split; [apply elem_of_app; by right|done]. }
  apply bind_inl in Hc as [[=]|([] & r6 & _ & Hc)].
  apply bind_inl in Hc as [[=]|(extant & r7 & _ & [=])].
Qed.

(** A model of which the module does not define the output class. *)
Lemma construction_errors_witness :
  defined Runs.no_deprels "DeprelVocab" = false
  /\ forall v, supplied [] v -> classname v <> "DeprelVocab".
Proof.
  pose proof (construction_errors Runs.alone Runs.no_deprels 0 []
                (AttributeError "DeprelVocab")
                (snd (init Runs.alone Runs.no_deprels 0 []))) as Herr.
  cbv beta iota in Herr.
  destruct Herr as (_ & Hdef & _ & Hnone); [vm_compute; reflexivity|].
  by split.
Defined.

(** *** What the constructor creates *)

Lemma scan_vocabs_prints vs r :
  forall e, e ∈ done (scan_vocabs vs r).2 ->
    e ∈ done r \/ exists s, e = PrintClass s.
Proof.
  revert r. induction vs as [|v vs IH]; intros r e; [by left|].
  rewrite scan_vocabs_cons. cbn zeta.
  assert (forall r1 : registry,
            done r1 = done r ++ [PrintClass (classname v)] ->
            e ∈ done (scan_vocabs vs r1).2 ->
            e ∈ done r \/ exists s, e = PrintClass s) as Hnext.
  { intros r1 Hr1 He. destruct (IH r1 e He) as [Hin|?]; [|by right].
    rewrite Hr1 in Hin. apply elem_of_app in Hin as [?|Hin]; [by left|].
    apply list_elem_of_singleton in Hin. right. by eexists. }
  destruct (extant_vocabs r !! classname v) as [v'|].
  - case_decide; [by apply Hnext|]. cbn. intros Hin.
    apply elem_of_app in Hin as [?|Hin]; [by left|].
    apply list_elem_of_singleton in Hin. right. by eexists.
  - by apply Hnext.
Qed.

Lemma scan_networks_prints nets r :
  forall e, e ∈ done (scan_networks nets r).2 ->
    e ∈ done r \/ exists s, e = PrintClass s.
Proof.
  revert r. induction nets as [|n nets IH]; intros r e; [by left|].
  cbn [scan_networks]. unfold bind.
  pose proof (scan_vocabs_prints (net_vocabs n) r e) as Hfirst.
  destruct (scan_vocabs (net_vocabs n) r) as [[e1|[]] r1]; [done|].
  intros He. destruct (IH r1 e He) as [Hin|?]; [by apply Hfirst|by right].
Qed.

(** What the log says of the vocabularies, after the scan of the input
    networks: a vocabulary was constructed only for a class of which the
    input networks have none; the ones constructed for a declared class were
    loaded, and counted when nothing was saved; and what the registry holds
    was supplied or constructed. *)
Record logged (w : world) (nets : list network) (r : registry) : Prop := {
  logged_keyed : keyed r;
  logged_supplied : forall v, supplied nets v -> shared r v;
  logged_construct : forall v, Construct v ∈ done r ->
    shared r v /\ forall v', supplied nets v' -> classname v' <> classname v;
  logged_load : forall v, LoadVocab v ∈ done r <->
    Construct v ∈ done r /\ classname v <> "IDIndexVocab";
  logged_count : forall v, CountVocab v ∈ done r <->
    LoadVocab v ∈ done r /\ saved w (classname v) = false;
  logged_extant : forall c v, extant_vocabs r !! c = Some v ->
    supplied nets v \/ Construct v ∈ done r
}.

Lemma logged_scan w nets heap r1 :
  scan_networks nets {| extant_vocabs := ∅; next_id := heap; done := [] |}
  = (inr tt, r1) ->
  logged w nets r1.
Proof.
  intros Hscan.
  pose proof (scan_networks_prints nets
                {| extant_vocabs := ∅; next_id := heap; done := [] |}) as Hprints.
  pose proof (scan_networks_from_empty nets heap) as Hdrawn.
  rewrite Hscan in Hprints, Hdrawn. cbn in Hprints.
  assert (forall e, e ∈ done r1 -> exists s, e = PrintClass s) as Honly.
  { intros e He. destruct (Hprints e He) as [Hin|?]; [|done].
    by apply elem_of_nil in Hin. }
  destruct (scan_networks_shares _ _ _ Hscan (keyed_empty heap)) as (Hk1 & _).
  split.
  - done.
  - intros v. by apply (supplied_shared _ _ _ _ Hscan (keyed_empty heap)).
  - intros v Hv. by destruct (Honly _ Hv).
  - intros v. split; [intros Hv; by destruct (Honly _ Hv)|].
    intros [Hv _]. by destruct (Honly _ Hv).
  - intros v. split; [intros Hv; by destruct (Honly _ Hv)|].
    intros [Hv _]. by destruct (Honly _ Hv).
  - intros c v Hv. left. by apply (Hdrawn c).
Qed.

(** A new vocabulary of a class that the registry does not hold, with what
    is done to it, keeps the log in order. *)
Lemma logged_new w nets r c v es r' :
  logged w nets r ->
  extant_vocabs r !! c = None -> classname v = c ->
  extant_vocabs r' = <[c := v]> (extant_vocabs r) ->
  done r' = done r ++ Construct v :: es ->
  (forall v0, Construct v0 ∉ es) ->
  (forall v0, LoadVocab v0 ∈ es <-> v0 = v /\ c <> "IDIndexVocab") ->
  (forall v0, CountVocab v0 ∈ es <-> LoadVocab v0 ∈ es /\ saved w c = false) ->
  logged w nets r'.
Proof.
  intros [Hkeyed Hsupplied Hconstruct Hload Hcount Hextant]
         Hnone Hc Hext Hdone Hes_construct Hes_load Hes_count.
  assert (forall v0, Construct v0 ∈ done r' <-> Construct v0 ∈ done r \/ v0 = v)
    as Hdone_construct.
  { intros v0. rewrite Hdone, elem_of_app, elem_of_cons.
    specialize (Hes_construct v0). split; [|naive_solver].
    intros [?|[[= ->]|?]]; [by left|by right|done]. }
  assert (forall v0, LoadVocab v0 ∈ done r' <-> LoadVocab v0 ∈ done r \/ LoadVocab v0 ∈ es)
    as Hdone_load.
  { intros v0. rewrite Hdone, elem_of_app, elem_of_cons. naive_solver. }
  assert (forall v0, CountVocab v0 ∈ done r' <-> CountVocab v0 ∈ done r \/ CountVocab v0 ∈ es)
    as Hdone_count.
  { intros v0. rewrite Hdone, elem_of_app, elem_of_cons. naive_solver. }
  assert (forall v0, shared r v0 -> shared r' v0) as Hkeep.
  { intros v0 Hv0. unfold shared in *. rewrite Hext, lookup_insert.
    case_decide as Heq; [|done]. rewrite <- Heq in Hv0. congruence. }
  assert (forall v', supplied nets v' -> classname v' <> classname v) as Habsent.
  { intros v' Hv' Heq. apply Hsupplied in Hv'. unfold shared in Hv'.
    rewrite Heq, Hc in Hv'. congruence. }
  split.
  - intros c0 v0. rewrite Hext, lookup_insert. case_decide; [|by apply Hkeyed].
    intros [= <-]. congruence.
  - intros v0 Hv0. by apply Hkeep, Hsupplied.
  - intros v0 [Hold| ->]%Hdone_construct.
    + destruct (Hconstruct _ Hold). split; [by apply Hkeep|done].
    + split; [|done]. unfold shared. by rewrite Hext, Hc, lookup_insert_eq.
  - intros v0. rewrite Hdone_load, Hdone_construct, Hload, Hes_load.
    split; [|naive_solver].
    intros [?|[-> ?]]; [naive_solver|]. split; [by right|congruence].
  - intros v0. rewrite Hdone_count, Hdone_load, Hcount, Hes_count.
    split; [|naive_solver].
    intros [?|[Hin Hsaved]]; [naive_solver|]. split; [by right|].
    apply Hes_load in Hin as [-> _]. by rewrite Hc.
  - intros c0 v0. rewrite Hext, lookup_insert, Hdone_construct.
    case_decide; [intros [= <-]; right; by right|].
    intros Hv0. destruct (Hextant _ _ Hv0); [by left|right; by left].
Qed.

Lemma logged_id_vocab w nets r1 v r2 :
  resolve_id_vocab r1 = (inr v, r2) -> logged w nets r1 ->
  logged w nets r2 /\ is_Some (extant_vocabs r2 !! "IDIndexVocab").
Proof.
  unfold resolve_id_vocab, bind, get_extant.
  destruct (extant_vocabs r1 !! "IDIndexVocab") as [v1|] eqn:Hlook.
  - intros [= <- <-] Hlogged. split; [done|]. by rewrite Hlook.
  - cbn. intros [= <- <-] Hlogged. split.
    + eapply (logged_new w nets r1 "IDIndexVocab" _ []); try done.
      * cbn. reflexivity.
      * intros v0 Hv0. by apply elem_of_nil in Hv0.
      * intros v0. split; [intros Hv0; by apply elem_of_nil in Hv0|by intros [_ ?]].
      * intros v0. split; [intros Hv0; by apply elem_of_nil in Hv0|].
        intros [Hv0 _]. by apply elem_of_nil in Hv0.
    + cbn. rewrite lookup_insert_eq. by eexists.
Qed.

Lemma logged_resolve w nets cs acc r acc' r' :
  resolve w cs acc r = (inr acc', r') ->
  logged w nets r -> is_Some (extant_vocabs r !! "IDIndexVocab") ->
  logged w nets r' /\ is_Some (extant_vocabs r' !! "IDIndexVocab").
Proof.
  revert acc r. induction cs as [|c cs IH]; intros acc r.
  - by intros [= <- <-].
  - rewrite resolve_cons.
    destruct (extant_vocabs r !! c) as [v|] eqn:Hlook; [apply IH|].
    destruct (create w c r) as [[e|v] r1] eqn:Hcreate; [done|].
    intros Hres Hlogged Hid.
    destruct (create_inr _ _ _ _ _ Hcreate) as (_ & Hext & Hvid & _ & Hdone).
    assert (classname v = c) as Hc.
    { destruct (create_shares _ _ _ _ _ Hcreate Hlook (logged_keyed _ _ _ Hlogged))
        as (_ & _ & _ & ?). done. }
    assert (c <> "IDIndexVocab") as Hne.
    { intros ->. rewrite Hlook in Hid. by destruct Hid. }
    apply (IH _ _ Hres).
    + eapply (logged_new w nets r c v); try done.
      * intros v0. destruct (saved w c);
          rewrite ?elem_of_cons, ?elem_of_nil; naive_solver.
      * intros v0. destruct (saved w c);
          rewrite ?elem_of_cons, ?elem_of_nil; naive_solver.
      * intros v0. destruct (saved w c) eqn:Hsaved;
          rewrite ?elem_of_cons, ?elem_of_nil; naive_solver.
    + rewrite Hext, lookup_insert. case_decide; [by eexists|done].
Qed.

(** X12.  What the constructor creates.  In a model that is constructed,
    every vocabulary of [vocabs] is one of an input network or was
    constructed; a vocabulary is constructed only for a class of which the
    input networks have none; the vocabularies constructed, except the
    identifier vocabulary, are exactly those that are loaded; and a
    vocabulary is counted over the training data exactly when it is loaded
    and nothing was saved for its class. *)
Theorem created_vocabularies_loaded cfg w heap nets m r :
  init cfg w heap nets = (inr m, r) ->
  (forall v, v ∈ vocabs m -> supplied nets v \/ Construct v ∈ done r)
  /\ (forall v, Construct v ∈ done r ->
        v ∈ vocabs m
        /\ forall v', supplied nets v' -> classname v' <> classname v)
  /\ (forall v, LoadVocab v ∈ done r <->
        Construct v ∈ done r /\ classname v <> "IDIndexVocab")
  /\ (forall v, CountVocab v ∈ done r <->
        LoadVocab v ∈ done r /\ saved w (classname v) = false).
Proof.
  intros Hinit. unfold init in Hinit.
  destruct (construct_inr _ _ _ _ _ _ Hinit)
    as (r1 & r2 & r3 & r4 & r5 & Hscan & Hid & Hins & Houts & Hthrus
        & Hsame & Hdone & _ & Hvocabs).
  pose proof (logged_scan w _ _ _ Hscan) as H1.
  destruct (logged_id_vocab _ _ _ _ _ Hid H1) as (H2 & Hid2).
  destruct (logged_resolve _ _ _ _ _ _ _ Hins H2 Hid2) as (H3 & Hid3).
  destruct (logged_resolve _ _ _ _ _ _ _ Houts H3 Hid3) as (H4 & Hid4).
  destruct (logged_resolve _ _ _ _ _ _ _ Hthrus H4 Hid4)
    as ([Hkeyed Hsupplied Hconstruct Hload Hcount Hextant] & _).
  assert (forall v, Construct v ∈ done r <-> Construct v ∈ done r5) as Hc5.
  { intros v. rewrite Hdone, elem_of_app, list_elem_of_singleton. naive_solver. }
  assert (forall v, LoadVocab v ∈ done r <-> LoadVocab v ∈ done r5) as Hl5.
  { intros v. rewrite Hdone, elem_of_app, list_elem_of_singleton. naive_solver. }
  assert (forall v, CountVocab v ∈ done r <-> CountVocab v ∈ done r5) as Hn5.
  { intros v. rewrite Hdone, elem_of_app, list_elem_of_singleton. naive_solver. }
  split; [|split; [|split]].
  - intros v. rewrite Hvocabs, elem_of_map_img, Hsame, Hc5. intros [c Hv].
    by apply (Hextant c).
  - intros v Hv. apply Hc5, Hconstruct in Hv as (Hshared & Habsent).
    split; [|done]. rewrite Hvocabs, elem_of_map_img, Hsame. by eexists.
  - intros v. rewrite Hl5, Hc5. apply Hload.
  - intros v. rewrite Hn5, Hl5. apply Hcount.
Qed.

(** A model without input networks: the vocabulary of the word forms is
    constructed, and so it is loaded. *)
Lemma created_vocabularies_loaded_witness :
  LoadVocab {| vocab_id := 1; classname := "FormVocab" |}
    ∈ done (Runs.registry_of Runs.alone []).
Proof.
  destruct (created_vocabularies_loaded Runs.alone Runs.fresh 0 []
              (Runs.built Runs.alone []) (Runs.registry_of Runs.alone []))
    as (_ & _ & Hload & _); [vm_compute; reflexivity|].
  apply Hload. split; [|discriminate].
  apply list_elem_of_In. vm_compute. tauto.
Defined.

End RegistryFacts.

(* ===================================================================== *)
(** ** Facts about batched inference *)
(* ===================================================================== *)

Module InferenceFacts.

Import Inference.

(** *** Paths *)

Example path_split_examples :
  path_split "data/ud/dev.conllu" = ("data/ud", "dev.conllu")
  /\ path_split "dev.conllu" = (EmptyString, "dev.conllu")
  /\ path_split "/dev.conllu" = ("/", "dev.conllu")
  /\ path_split "data//dev.conllu" = ("data", "dev.conllu")
  /\ path_split "data/" = ("data", EmptyString).
Proof. vm_compute. repeat split. Qed.

Example path_join_examples :
  path_join (path_join "save" "parsed") "data/ud" = "save/parsed/data/ud"
  /\ path_join (path_join "save" "parsed") EmptyString = "save/parsed/"
  /\ path_join "save/" "parsed" = "save/parsed"
  /\ path_join "save" "/data" = "/data".
Proof. vm_compute. repeat split. Qed.

Example default_output_example :
  default_output "save" "data/ud/dev.conllu" = "save/parsed/data/ud/dev.conllu".
Proof. reflexivity. Qed.

(** *** What a step leaves untouched *)

Lemma predict_batches_done bs st :
  foldl (fun st b => predict_batch b st) st bs
  = {| done := done st ++ predictions bs |}.
Proof.
  revert st. induction bs as [|b bs IH]; intros st; cbn.
  - destruct st. cbn. by rewrite app_nil_r.
  - rewrite IH. cbn. by rewrite <- app_assoc.
Qed.

Lemma dumps_app es es' : dumps (es ++ es') = dumps es ++ dumps es'.
Proof. apply omap_app. Qed.

Lemma made_app es es' : made (es ++ es') = made es ++ made es'.
Proof. apply omap_app. Qed.

Lemma dumps_predictions bs : dumps (predictions bs) = [].
Proof. induction bs as [|b bs IH]; [done|]. cbn. exact IH. Qed.

Lemma made_predictions bs : made (predictions bs) = [].
Proof. induction bs as [|b bs IH]; [done|]. cbn. exact IH. Qed.

(** *** What the file system is asked *)

(** [os.makedirs] is called at most once, for the directory asked for, and
    only when [os.path.exists] has said no. *)
Lemma ensure_dir_done w d st r st' :
  ensure_dir w d st = (r, st') ->
  (exists e, r = Some (OSError e) /\ st' = st)
  \/ r = None
     /\ exists mk, done st' = done st ++ mk /\ (mk = [] \/ mk = [MakeDirs d]).
Proof.
  unfold ensure_dir. destruct (path_exists w (done st) d).
  - intros [= <- <-]. right. split; [done|]. exists [].
    rewrite app_nil_r. split; [done|by left].
  - destruct (makedirs_raises w (done st) d) as [e|].
    + intros [= <- <-]. left. by exists e.
    + intros [= <- <-]. right. split; [done|]. exists [MakeDirs d].
      split; [done|by right].
Qed.

Lemma dump_done w p st r st' :
  dump w p st = (r, st') ->
  (exists e, r = Some (OSError e) /\ st' = st)
  \/ r = None /\ done st' = done st ++ [Dump p].
Proof.
  unfold dump. destruct (open_raises w (done st) p) as [e|].
  - intros [= <- <-]. left. by exists e.
  - intros [= <- <-]. by right.
Qed.

Lemma dumps_ensure_dir w d st :
  dumps (done (ensure_dir w d st).2) = dumps (done st).
Proof.
  destruct (ensure_dir w d st) as [r st'] eqn:He.
  apply ensure_dir_done in He as [(e & _ & ->)|(_ & mk & Hdone & [->| ->])];
    [done| |]; cbn [snd]; rewrite Hdone, dumps_app; cbn; by rewrite app_nil_r.
Qed.

Lemma made_ensure_dir w d st x :
  x ∈ made (done (ensure_dir w d st).2) -> x ∈ made (done st) \/ x = d.
Proof.
  destruct (ensure_dir w d st) as [r st'] eqn:He.
  apply ensure_dir_done in He as [(e & _ & ->)|(_ & mk & Hdone & [->| ->])];
    cbn [snd]; [by left| |]; rewrite Hdone, made_app, elem_of_app.
  - intros [?|Hx]; [by left|]. by apply elem_of_nil in Hx.
  - intros [?|Hx]; [by left|]. right.
    change (made [MakeDirs d]) with [d] in Hx. by apply list_elem_of_singleton in Hx.
Qed.

(** *** [parse_files] with an output directory *)

(** C10.  Given an output directory, [parse_files] runs the batches of the
    first file through the graph and then reads [file_output_dir], which is
    assigned only when [output_dir is None]: it fails with an
    UnboundLocalError, having made no directory and written no file,
    whatever is on the disk.  (Over no file at all it fails on [file_index],
    at the line printed last.)  So [parse] with an output directory, no
    output filename and a number of files other than one fails in the same
    way, while over one file the output directory is used: unless the
    operating system refuses the directory or the file, the predictions go
    to the file of the input's name in that directory. *)
Theorem output_dir_unbound_in_parse_files save_dir w d :
  (forall ds st f fs, filenames ds = f :: fs ->
     parse_files save_dir w ds (Some d) st
     = (Some (UnboundLocalError "file_output_dir"),
        {| done := done st ++ predictions (file_batch_iterator ds 0) |}))
  /\ (forall ds st, filenames ds = [] ->
      parse_files save_dir w ds (Some d) st
      = (Some (UnboundLocalError "file_index"), st))
  /\ (forall open_dataset files st, length files <> 1%nat ->
      exists x st',
        parse save_dir w open_dataset files (Some d) None st
        = (Some (UnboundLocalError x), st')
        /\ dumps (done st') = dumps (done st)
        /\ made (done st') = made (done st))
  /\ (forall ds st f fs b, filenames ds = f :: fs ->
      file_batch_iterator ds 0 = [b] ->
      (forall e, (parse_file save_dir w ds (Some d) None st).1 <> Some (OSError e)) ->
      exists st',
        parse_file save_dir w ds (Some d) None st = (None, st')
        /\ dumps (done st') = dumps (done st) ++ [path_join d (snd (path_split f))]).
Proof.
  assert (forall ds st f fs, filenames ds = f :: fs ->
     parse_files save_dir w ds (Some d) st
     = (Some (UnboundLocalError "file_output_dir"),
        {| done := done st ++ predictions (file_batch_iterator ds 0) |})) as Hfirst.
  { intros ds st f fs Hfiles. unfold parse_files. rewrite Hfiles.
    cbn [parse_files_loop]. unfold parse_files_file.
    rewrite predict_batches_done. by destruct (path_split f). }
  assert (forall ds st, filenames ds = [] ->
      parse_files save_dir w ds (Some d) st
      = (Some (UnboundLocalError "file_index"), st)) as Hnone.
  { intros ds st Hfiles. unfold parse_files. by rewrite Hfiles. }
  split; [done|]. split; [done|]. split.
  - intros open_dataset files st Hlen. unfold parse. cbn [truthy andb].
    destruct (length files =? 1)%nat eqn:Hone; [apply Nat.eqb_eq in Hone; lia|].
    rewrite bool_decide_eq_false_2 by (intros H; by apply H). cbn [orb].
    set (st1 := perform _ (perform _ st)).
    destruct (filenames (open_dataset files)) as [|f fs] eqn:Hfiles.
    + rewrite (Hnone _ _ Hfiles). exists "file_index", st1. repeat split.
      * unfold st1; cbn. by rewrite <- !app_assoc, !dumps_app, !app_nil_r.
      * unfold st1; cbn. by rewrite <- !app_assoc, !made_app, !app_nil_r.
    + rewrite (Hfirst _ _ _ _ Hfiles). eexists "file_output_dir", _.
      split; [done|]. cbn. split.
      * by rewrite <- !app_assoc, !dumps_app, dumps_predictions, !app_nil_r.
      * by rewrite <- !app_assoc, !made_app, made_predictions, !app_nil_r.
  - intros ds st f fs b Hfiles Hbatches. unfold parse_file.
    rewrite Hfiles, Hbatches. cbn [parse_file_loop]. unfold parse_file_batch.
    cbn [input_filename output_dir output_filename].
    destruct (path_split f) as [input_dir name]. cbn [snd].
    destruct (ensure_dir w d (predict_batch b st)) as [r1 st1] eqn:He.
    apply ensure_dir_done in He as [(e & -> & ->)|(-> & mk & Hmk & Hcases)].
    { intros Hno. by destruct (Hno e). }
    destruct (dump w (path_join d name) st1) as [r2 st2] eqn:Hd.
    apply dump_done in Hd as [(e & -> & ->)|(-> & Hdump)].
    { intros Hno. by destruct (Hno e). }
    intros _. eexists. split; [done|]. cbn. rewrite Hdump, Hmk. cbn.
    rewrite <- !app_assoc, !dumps_app.
    destruct Hcases as [->| ->]; cbn; by rewrite ?app_nil_r.
Qed.

(** Two files and the output directory [out]; and one file of one batch. *)
Lemma output_dir_unbound_in_parse_files_witness :
  parse_files "save" Runs.empty_disk Runs.two_files (Some "out") Runs.nothing
  = (Some (UnboundLocalError "file_output_dir"),
     {| done := [Predict [0; 1]; CachePredictions [0; 1];
                 Predict [2]; CachePredictions [2]]%nat |})
  /\ exists st',
       parse_file "save" Runs.empty_disk Runs.short_file (Some "out") None
         Runs.nothing = (None, st')
       /\ dumps (done st') = ["out/dev.conllu"].
Proof.
  destruct (output_dir_unbound_in_parse_files "save" Runs.empty_disk "out")
    as (Hfirst & _ & _ & Hone).
  split.
  - exact (Hfirst Runs.two_files Runs.nothing _ _ eq_refl).
  - apply (Hone Runs.short_file Runs.nothing _ _ _ eq_refl eq_refl).
    intros e. vm_compute. discriminate.
Defined.

(** *** The check of the output filename *)

Lemma parse_file_loop_error save_dir w bs l st e st' :
  parse_file_loop save_dir w bs l st = (Some e, st') ->
  e = TypeError \/ exists o, e = OSError o.
Proof.
  revert l st. induction bs as [|b bs IH]; intros l st; cbn [parse_file_loop];
    [done|].
  destruct (parse_file_batch save_dir w b l st) as [[[e1|] l1] st1] eqn:Hb.
  - intros [= <- _]. revert Hb. unfold parse_file_batch.
    destruct (path_split _) as [input_dir name].
    destruct (output_dir l) as [od|], (output_filename l) as [nm|];
      (destruct (ensure_dir _ _ _) as [r1 st2] eqn:He;
       apply ensure_dir_done in He as [(o & -> & _)|(-> & _)];
       [intros [= <- _ _]; right; by exists o|]);
      try (intros [= <- _ _]; by left);
      (destruct (dump _ _ _) as [r2 st3] eqn:Hd;
       apply dump_done in Hd as [(o & -> & _)|(-> & _)]; [|done];
       intros [= <- _ _]; right; by exists o).
  - apply IH.
Qed.

Lemma parse_file_error save_dir w ds od name st e st' :
  parse_file save_dir w ds od name st = (Some e, st') -> e <> UsageError.
Proof.
  unfold parse_file. destruct (filenames ds); [by intros [= <- _]|].
  destruct (parse_file_loop _ _ _ _ _) as [[e1|] st1] eqn:Hloop; [|done].
  apply parse_file_loop_error in Hloop as [->|[o ->]]; by intros [= <- _].
Qed.

Lemma parse_files_error save_dir w ds od st e st' :
  parse_files save_dir w ds od st = (Some e, st') -> e <> UsageError.
Proof.
  unfold parse_files.
  destruct (parse_files_loop _ _ _ _ _ _ _ _) as [[e1|] st1] eqn:Hloop.
  - intros [= <- _]. revert Hloop.
    generalize 0%nat, (@None string), st.
    induction (filenames ds) as [|f fs IH]; intros i d st0; cbn [parse_files_loop];
      [done|].
    destruct (parse_files_file _ _ _ _ _ _ _ _) as [[[e2|] d1] st2] eqn:Hf; [|apply IH].
    intros [= <- _]. revert Hf. unfold parse_files_file.
    rewrite predict_batches_done.
    destruct (path_split f) as [input_dir name].
    destruct od as [od|], d as [d|]; try (by intros [= <- _ _]);
      (destruct (ensure_dir _ _ _) as [r1 st3] eqn:He;
       apply ensure_dir_done in He as [(o & -> & _)|(-> & _)];
       [by intros [= <- _ _]|]);
      (destruct (dump _ _ _) as [r2 st4] eqn:Hd;
       apply dump_done in Hd as [(o & -> & _)|(-> & _)]; [|done];
       by intros [= <- _ _]).
  - destruct (filenames ds); by intros [= <- _].
Qed.

(** C6, as the code has it.  [parse] fails with the UsageError of line 354
    exactly when the output filename is given and not empty and the number
    of input files is not one.  It does so after the dataset has been built
    from the input files (line 348) and before anything else: no graph is
    built, no checkpoint restored, no batch run, and the file system is not
    asked for anything. *)
Theorem usage_error_after_dataset save_dir w open_dataset files od name st :
  (fst (parse save_dir w open_dataset files od name st) = Some UsageError
   <-> truthy name = true /\ length files <> 1%nat)
  /\ (truthy name = true -> length files <> 1%nat ->
      parse save_dir w open_dataset files od name st
      = (Some UsageError, {| done := done st ++ [BuildDataset files] |})).
Proof.
  unfold parse.
  destruct (truthy name) eqn:Hname, (length files =? 1)%nat eqn:Hlen;
    cbn [andb negb orb].
  - apply Nat.eqb_eq in Hlen. split; [|done]. split; [|by intros [_ ?]].
    intros Hfst. destruct (parse_file _ _ _ _ _ _) as [[e|] st'] eqn:Hp; [|done].
    injection Hfst as ->. by apply parse_file_error in Hp.
  - apply Nat.eqb_neq in Hlen. by split.
  - split; [|done]. split; [|by intros [? _]].
    intros Hfst. destruct (parse_file _ _ _ _ _ _) as [[e|] st'] eqn:Hp; [|done].
    injection Hfst as ->. by apply parse_file_error in Hp.
  - split; [|done]. split; [|by intros [? _]].
    case_bool_decide.
    + intros Hfst. destruct (parse_file _ _ _ _ _ _) as [[e|] st'] eqn:Hp; [|done].
      injection Hfst as ->. by apply parse_file_error in Hp.
    + intros Hfst. destruct (parse_files _ _ _ _ _) as [[e|] st'] eqn:Hp; [|done].
      injection Hfst as ->. by apply parse_files_error in Hp.
Qed.

(** Two files and the output filename [out.conllu]. *)
Lemma usage_error_after_dataset_witness :
  parse "save" Runs.empty_disk (fun _ => Runs.two_files)
        ["data/dev.conllu"; "data/test.conllu"]
        None (Some "out.conllu") Runs.nothing
  = (Some UsageError,
     {| done := [BuildDataset ["data/dev.conllu"; "data/test.conllu"]] |}).
Proof.
  destruct (usage_error_after_dataset "save" Runs.empty_disk
              (fun _ => Runs.two_files)
              ["data/dev.conllu"; "data/test.conllu"] None (Some "out.conllu")
              Runs.nothing) as [_ Hfails].
  apply Hfails; [reflexivity|cbn; lia].
Defined.

(** C6 as stated fails: when the UsageError is raised, the dataset has been
    built from the two input files; and with an empty output filename and
    two input files no UsageError is raised: the check is skipped and
    [parse_file] is run over the first file, where, on a disk with nothing
    on it, the path that [codecs.open] is given is the output directory
    just made. *)
Lemma dataset_built_before_usage_error :
  done (snd (parse "save" Runs.empty_disk (fun _ => Runs.two_files)
               ["data/dev.conllu"; "data/test.conllu"]
               None (Some "out.conllu") Runs.nothing))
  = [BuildDataset ["data/dev.conllu"; "data/test.conllu"]]
  /\ parse "save" Runs.empty_disk (fun _ => Runs.two_files)
       ["data/dev.conllu"; "data/test.conllu"]
       None (Some EmptyString) Runs.nothing
     = (Some (OSError IsADirectoryError),
        {| done := [BuildDataset ["data/dev.conllu"; "data/test.conllu"];
                    BuildGraph; RestoreCheckpoint;
                    Predict [0; 1]; CachePredictions [0; 1];
                    MakeDirs "save/parsed/data"]%nat |}).
Proof. vm_compute. split; reflexivity. Qed.

(** *** One file and several files *)

(** The batches run through the graph and the batches cached, in order. *)
Definition predicted (es : list effect) : list batch :=
  omap (fun e => match e with Predict b => Some b | _ => None end) es.

Definition cached (es : list effect) : list batch :=
  omap (fun e => match e with CachePredictions b => Some b | _ => None end) es.

(** The batches run and the files written, in the order in which the two
    happen. *)
Definition outline (es : list effect) : list (batch + string) :=
  omap (fun e => match e with
                 | Predict b => Some (inl b)
                 | Dump p => Some (inr p)
                 | _ => None
                 end) es.

(** [<save_dir>/parsed/<relative-input-path>]. *)
Definition default_dir (save_dir input_filename : string) : string :=
  path_join (path_join save_dir "parsed") (fst (path_split input_filename)).

Lemma predicted_app es es' : predicted (es ++ es') = predicted es ++ predicted es'.
Proof. apply omap_app. Qed.

Lemma cached_app es es' : cached (es ++ es') = cached es ++ cached es'.
Proof. apply omap_app. Qed.

Lemma outline_app es es' : outline (es ++ es') = outline es ++ outline es'.
Proof. apply omap_app. Qed.

Lemma predicted_predictions bs : predicted (predictions bs) = bs.
Proof. induction bs as [|b bs IH]; [done|]. cbn. f_equal. exact IH. Qed.

Lemma cached_predictions bs : cached (predictions bs) = bs.
Proof. induction bs as [|b bs IH]; [done|]. cbn. f_equal. exact IH. Qed.

Lemma outline_predictions bs : outline (predictions bs) = inl <$> bs.
Proof. induction bs as [|b bs IH]; [done|]. cbn. f_equal. exact IH. Qed.

(** The loop of [parse_files] over [files], from the file index [i], when no
    output directory is given: it stops at the first thing that the
    operating system refuses, or does the work of every file. *)
Lemma parse_files_loop_work save_dir w ds i files d st0 r st1 :
  parse_files_loop save_dir w ds None i files d st0 = (r, st1) ->
  (exists e, r = Some (OSError e))
  \/ r = None
     /\ exists work,
          done st1 = done st0 ++ work
          /\ outline work
             = mjoin (imap (fun j f => (inl <$> file_batch_iterator ds (i + j))
                                       ++ [inr (default_output save_dir f)]) files)
          /\ cached work = predicted work
          /\ dumps work = default_output save_dir <$> files
          /\ forall x, x ∈ made work -> x ∈ default_dir save_dir <$> files.
Proof.
  revert i d st0. induction files as [|f fs IH]; intros i d st0.
  - cbn. intros [= <- <-]. right. split; [done|]. exists [].
    rewrite app_nil_r. do 4 (split; [done|]). intros x Hx.
    by apply elem_of_nil in Hx.
  - cbn [parse_files_loop]. unfold parse_files_file. rewrite predict_batches_done.
    assert (default_dir save_dir f
            = path_join (path_join save_dir "parsed") (path_split f).1) as Hdir by done.
    assert (default_output save_dir f
            = path_join (default_dir save_dir f) (path_split f).2) as Hout by done.
    destruct (path_split f) as [input_dir name]. cbn [fst snd] in Hdir, Hout.
    rewrite <- Hdir, <- Hout.
    set (bs := file_batch_iterator ds i).
    destruct (ensure_dir w (default_dir save_dir f) _) as [r1 st_a] eqn:He.
    apply ensure_dir_done in He as [(e & -> & _)|(-> & mk & Hmk & Hcases)].
    { intros [= <- _]. left. by exists e. }
    destruct (dump w (default_output save_dir f) st_a) as [r2 st_b] eqn:Hd.
    apply dump_done in Hd as [(e & -> & _)|(-> & Hdump)].
    { intros [= <- _]. left. by exists e. }
    intros Hloop.
    destruct (IH _ _ _ Hloop)
      as [Herr|(-> & work & Hdone & Houtline & Hcached & Hdumps & Hmade)];
      [by left|].
    right. split; [done|].
    exists (predictions bs ++ mk ++ [Dump (default_output save_dir f)] ++ work).
    cbn [done] in Hmk.
    split; [by rewrite Hdone, Hdump, Hmk, <- !app_assoc|].
    assert (outline mk = [] /\ cached mk = [] /\ predicted mk = []
            /\ dumps mk = []
            /\ forall x, x ∈ made mk -> x = default_dir save_dir f)
      as (Ho & Hc & Hp & Hdm & Hm).
    { destruct Hcases as [->| ->]; do 4 (split; [done|]); intros x Hx.
      - by apply elem_of_nil in Hx.
      - change (made [MakeDirs (default_dir save_dir f)])
          with [default_dir save_dir f] in Hx.
        by apply list_elem_of_singleton in Hx. }
    split; [|split; [|split]].
    + rewrite !outline_app, outline_predictions, Ho, Houtline. cbn.
      rewrite Nat.add_0_r. fold bs. rewrite <- app_assoc. cbn. do 2 f_equal.
      f_equal. apply imap_ext. intros j x _. cbn. by rewrite Nat.add_succ_r.
    + rewrite !cached_app, !predicted_app, cached_predictions,
        predicted_predictions, Hc, Hp, Hcached. done.
    + rewrite !dumps_app, dumps_predictions, Hdm, Hdumps. done.
    + intros x. rewrite !made_app, made_predictions, fmap_cons.
      cbn [app]. rewrite !elem_of_app, elem_of_cons.
      change (made [Dump (default_output save_dir f)]) with (@nil string).
      rewrite elem_of_nil.
      intros [Hx|[[]|Hx]]; [left; by apply Hm|right; by apply Hmade].
Qed.

(** Without an output directory, a call of [parse_files] that returns has
    written one file for every input file, at
    [<save_dir>/parsed/<relative-input-path>/<filename>]. *)
Lemma parse_files_dumps save_dir w ds st st' :
  parse_files save_dir w ds None st = (None, st') ->
  dumps (done st') = dumps (done st) ++ (default_output save_dir <$> filenames ds).
Proof.
  unfold parse_files.
  destruct (parse_files_loop _ _ _ _ _ _ _ _) as [r st1] eqn:Hloop.
  apply parse_files_loop_work in Hloop
    as [[e ->]|(-> & work & Hdone & _ & _ & Hdumps & _)]; [done|].
  destruct (filenames ds) as [|f fs]; [done|].
  intros [= <-]. cbn [done perform].
  by rewrite Hdone, !dumps_app, Hdumps, app_nil_r.
Qed.

(** C8 fails on the code, in [parse_file]: over one file of two batches, on
    a disk with nothing on it.  With no output directory nor filename,
    [os.path.join] is given [None] after the first batch, and nothing is
    written.  With the output directory [out], the predictions of the first
    batch are written to [out/dev.conllu] after that batch, and after the
    second batch [codecs.open] is given [out/out/dev.conllu], in a directory
    that does not exist.  [parse_files] over two files writes a file for
    each. *)
Lemma single_file_path_fails :
  parse_file "save" Runs.empty_disk Runs.one_file None None Runs.nothing
  = (Some TypeError,
     {| done := [Predict [0; 1]; CachePredictions [0; 1];
                 MakeDirs "save/parsed/data"]%nat |})
  /\ parse_file "save" Runs.empty_disk Runs.one_file (Some "out") None Runs.nothing
     = (Some (OSError FileNotFoundError),
        {| done := [Predict [0; 1]; CachePredictions [0; 1];
                    MakeDirs "out"; Dump "out/dev.conllu";
                    Predict [2]; CachePredictions [2]]%nat |})
  /\ parse_files "save" Runs.empty_disk Runs.two_files None Runs.nothing
     = (None,
        {| done := [Predict [0; 1]; CachePredictions [0; 1];
                    Predict [2]; CachePredictions [2];
                    MakeDirs "save/parsed/data";
                    Dump "save/parsed/data/dev.conllu";
                    Predict [0]; CachePredictions [0];
                    Dump "save/parsed/data/test.conllu";
                    PrintTime 2]%nat |}).
Proof. vm_compute. repeat split. Qed.

(** *** Several files *)



(** A directory that [os.makedirs] made on the way to another one is found
    by [os.path.exists], and is not made again. *)
Example parents_are_made_once :
  parse "save" Runs.empty_disk (fun _ => Runs.nested_files)
        ["a/b/x.conllu"; "a/y.conllu"] None None Runs.nothing
  = (None,
     {| done := [BuildDataset ["a/b/x.conllu"; "a/y.conllu"];
                 BuildGraph; RestoreCheckpoint;
                 Predict [0]; CachePredictions [0];
                 MakeDirs "save/parsed/a/b";
                 Dump "save/parsed/a/b/x.conllu";
                 Predict [1]; CachePredictions [1];
                 Dump "save/parsed/a/y.conllu";
                 PrintTime 2]%nat |}).
Proof. vm_compute. reflexivity. Qed.

(** *** One file *)

Lemma parse_file_batch_unnamed save_dir w b f st :
  parse_file_batch save_dir w b
    {| input_filename := f; output_dir := None; output_filename := None |} st
  = (match ensure_dir w (default_dir save_dir f) (predict_batch b st) with
     | (Some e, _) => Some e
     | (None, _) => Some TypeError
     end,
     {| input_filename := (path_split f).2;
        output_dir := Some (default_dir save_dir f);
        output_filename := None |},
     (ensure_dir w (default_dir save_dir f) (predict_batch b st)).2).
Proof.
  unfold parse_file_batch, default_dir. cbn [input_filename output_dir output_filename].
  destruct (path_split f) as [input_dir name]. cbn [fst snd].
  by destruct (ensure_dir _ _ _) as [[e|] st'].
Qed.

(** X14.  [parse_file] without an output directory and an output filename
    never writes a file.  Over a file with a batch it fails after the first
    batch: on [os.makedirs], when the output directory does not exist and
    cannot be made, and otherwise on [os.path.join(output_dir, None)]; it
    returns normally only when the file has no batch at all.  So [parse]
    over one file and without the two arguments writes nothing. *)
Theorem unnamed_single_file_is_not_written save_dir w st :
  (forall ds,
     dumps (done (parse_file save_dir w ds None None st).2) = dumps (done st)
     /\ ((parse_file save_dir w ds None None st).1 = None
         <-> filenames ds <> [] /\ file_batch_iterator ds 0 = []))
  /\ (forall ds f fs b bs,
        filenames ds = f :: fs -> file_batch_iterator ds 0 = b :: bs ->
        parse_file save_dir w ds None None st
        = match ensure_dir w (default_dir save_dir f) (predict_batch b st) with
          | (Some e, st') => (Some e, st')
          | (None, st') => (Some TypeError, st')
          end)
  /\ (forall open_dataset files,
        length files = 1%nat ->
        dumps (done (parse save_dir w open_dataset files None None st).2)
        = dumps (done st)).
Proof.
  assert (forall ds f fs b bs st0,
            filenames ds = f :: fs -> file_batch_iterator ds 0 = b :: bs ->
            parse_file save_dir w ds None None st0
            = match ensure_dir w (default_dir save_dir f) (predict_batch b st0) with
              | (Some e, st') => (Some e, st')
              | (None, st') => (Some TypeError, st')
              end) as Hbatch.
  { intros ds f fs b bs st0 Hf Hb. unfold parse_file. rewrite Hf, Hb.
    cbn [parse_file_loop]. rewrite parse_file_batch_unnamed.
    by destruct (ensure_dir _ _ _) as [[e|] st']. }
  assert (forall ds st0,
            dumps (done (parse_file save_dir w ds None None st0).2) = dumps (done st0)
            /\ ((parse_file save_dir w ds None None st0).1 = None
                <-> filenames ds <> [] /\ file_batch_iterator ds 0 = [])) as Hfile.
  { intros ds st0.
    destruct (filenames ds) as [|f fs] eqn:Hf;
      [unfold parse_file; rewrite Hf; split; [done|]; split; [done|by intros [? _]]|].
    destruct (file_batch_iterator ds 0) as [|b bs] eqn:Hb.
    - unfold parse_file. rewrite Hf, Hb. cbn. rewrite dumps_app, app_nil_r. by split.
    - rewrite (Hbatch ds f fs b bs st0 Hf Hb).
      pose proof (dumps_ensure_dir w (default_dir save_dir f) (predict_batch b st0))
        as Hd.
      destruct (ensure_dir _ _ _) as [[e|] st']; cbn [fst snd] in *;
        rewrite Hd; cbn; rewrite dumps_app, app_nil_r;
        (split; [done|]); (split; [done|by intros [_ ?]]). }
  split; [by intros ds|]. split.
  - intros ds f fs b bs. apply Hbatch.
  - intros open_dataset files Hone. unfold parse. cbn [truthy andb].
    apply Nat.eqb_eq in Hone. rewrite Hone. cbn [orb].
    destruct (Hfile (open_dataset files)
                (perform [BuildGraph; RestoreCheckpoint]
                   (perform [BuildDataset files] st))) as [-> _].
    cbn. by rewrite <- app_assoc, dumps_app, app_nil_r.
Qed.

(** *** The name of the output file *)

Lemma cut_at_last_slash_tail p h t :
  cut_at_last_slash p = Some (h, t) -> cut_at_last_slash t = None.
Proof.
  revert h t. induction p as [|c p IH]; intros h t; cbn; [done|].
  destruct (cut_at_last_slash p) as [[h' t']|] eqn:Hcut.
  - intros [= _ <-]. by apply (IH h').
  - destruct (is_slash c); [|done]. by intros [= _ <-].
Qed.

Lemma path_split_tail p : cut_at_last_slash (path_split p).2 = None.
Proof.
  unfold path_split. destruct (cut_at_last_slash p) as [[h t]|] eqn:Hcut; [|done].
  by apply (cut_at_last_slash_tail p h).
Qed.

Lemma append_nil s : String.append EmptyString s = s.
Proof. reflexivity. Qed.

Lemma append_cons c x s :
  String.append (String c x) s = String c (String.append x s).
Proof. reflexivity. Qed.

Lemma cut_at_last_slash_app x b :
  cut_at_last_slash b = None ->
  cut_at_last_slash (String.append x (String "/" b))
  = Some (String.append x (String "/" EmptyString), b).
Proof.
  intros Hb. induction x as [|c x IH].
  - rewrite !append_nil. cbn [cut_at_last_slash]. by rewrite Hb.
  - rewrite !append_cons. cbn [cut_at_last_slash]. by rewrite IH.
Qed.

Lemma ends_with_slash_inv a :
  ends_with_slash a = true ->
  exists x, a = String.append x (String "/" EmptyString).
Proof.
  induction a as [|c a IH]; [done|]. destruct a as [|c' a].
  - cbn. unfold is_slash. intros ->%Ascii.eqb_eq. by exists EmptyString.
  - intros Hends. destruct IH as [x Hx]; [done|]. exists (String c x).
    by rewrite append_cons, <- Hx.
Qed.

Lemma append_slash x b :
  String.append (String.append x (String "/" EmptyString)) b
  = String.append x (String "/" b).
Proof. induction x as [|c x IH]; [done|]. by rewrite !append_cons, IH. Qed.

Lemma no_slash_start b :
  cut_at_last_slash b = None -> starts_with_slash b = false.
Proof.
  destruct b as [|c b]; [done|]. cbn.
  destruct (cut_at_last_slash b) as [[h t]|]; [done|]. by destruct (is_slash c).
Qed.

(** X15.  A file written in a directory under the name of an input file
    has that name: [os.path.split] gives back the name that was joined to
    the directory.  So the outputs of [parse_files] have the names of their
    inputs. *)
Theorem output_keeps_the_name save_dir d f :
  (path_split (path_join d (path_split f).2)).2 = (path_split f).2
  /\ (path_split (default_output save_dir f)).2 = (path_split f).2.
Proof.
  assert (forall d0, (path_split (path_join d0 (path_split f).2)).2
                     = (path_split f).2) as Hjoin.
  { intros d0. pose proof (path_split_tail f) as Htail.
    set (b := (path_split f).2) in *. clearbody b.
    unfold path_join. rewrite (no_slash_start b Htail).
    destruct (String.eqb d0 EmptyString) eqn:Hempty.
    - apply String.eqb_eq in Hempty as ->. cbn [orb]. rewrite append_nil.
      unfold path_split. by rewrite Htail.
    - cbn [orb]. destruct (ends_with_slash d0) eqn:Hends.
      + destruct (ends_with_slash_inv d0 Hends) as [x ->].
        rewrite append_slash. unfold path_split.
        by rewrite (cut_at_last_slash_app x b Htail).
      + rewrite append_cons, append_nil. unfold path_split.
        by rewrite (cut_at_last_slash_app d0 b Htail). }
  split; [apply Hjoin|]. unfold default_output. apply Hjoin.
Qed.

End InferenceFacts.
